(** * CUDA Sanitizer: the happens-before engine of [torch/cuda/_sanitizer.py]

    A shallow embedding of the three cooperating classes of the sanitizer core

    - [_TensorsAccessed]        the per-tensor access log,
    - [StreamSynchronizations]  the per-stream vector clocks and event snapshots,
    - [EventHandler]            the trace handlers, among them the kernel-launch
                                 analysis that emits [UnsynchronizedAccessError]s,

    followed by the properties established about them.

    Modelling conventions.
    - Python [int] (stream ids, event ids, data pointers, sequence numbers) is [Z].
    - A Python [dict] keyed by [int] is a [gmap Z _].  The code iterates over a
      dict in one place only ([state_wait_for_event]); the loop is modelled over
      the list of items of the map and shown independent of their order.
    - Methods mutate [self] and may raise [KeyError]: a method is a function
      from the state before the call to a [Result] and the state after it.  A
      raising call keeps the mutations made before the exception, as in Python.
    - [logger.info] diagnostics have no effect on the state and are left out.
    - [traceback.StackSummary.extract(traceback.walk_stack(None), ...)] reads the
      interpreter's call stack; the captured summary is an input of the handler
      that captures one. *)

From stdpp Require Import gmap strings list fin_maps.

Local Open Scope Z_scope.

(** ** Exceptions and the state-and-exception monad *)

Inductive Exception : Type :=
  | KeyError (key : Z)
  | RecursionError.

Inductive Result (A : Type) : Type :=
  | Return (a : A)
  | Raise (e : Exception).
Arguments Return {A} a.
Arguments Raise {A} e.

Definition M (S A : Type) : Type := S → Result A * S.

Definition ret {S A} (a : A) : M S A := λ s, (Return a, s).

Definition raise {S A} (e : Exception) : M S A := λ s, (Raise e, s).

Definition bind {S A B} (m : M S A) (k : A → M S B) : M S B :=
  λ s, match m s with
       | (Return a, s') => k a s'
       | (Raise e, s') => (Raise e, s')
       end.

Definition gets {S A} (f : S → A) : M S A := λ s, (Return (f s), s).

Definition modify {S} (f : S → S) : M S unit := λ s, (Return tt, f s).

(** [self.field.method(...)]: run a method of a component on that component. *)
Definition zoom {S T A} (proj : S → T) (upd : T → S → S) (m : M T A) : M S A :=
  λ s, let (r, t') := m (proj s) in (r, upd t' s).

Declare Scope py_scope.
Delimit Scope py_scope with py.
Notation "x <- m ;; k" := (bind m (λ x, k))
  (at level 100, m at next level, right associativity) : py_scope.
Notation "m ;;; k" := (bind m (λ _, k))
  (at level 100, right associativity) : py_scope.

(** [for x in l: body(x)] *)
Fixpoint for_each {S A} (body : A → M S unit) (l : list A) : M S unit :=
  match l with
  | [] => ret tt
  | x :: l' => bind (body x) (λ _, for_each body l')
  end.

(** [for x in l: acc = body(x, acc)], for a loop that grows a local list. *)
Fixpoint for_each_acc {S A B} (body : A → B → M S B) (l : list A) (acc : B) : M S B :=
  match l with
  | [] => ret acc
  | x :: l' => bind (body x acc) (λ acc', for_each_acc body l' acc')
  end.

(** [d[k]] on a dict that the method does not own (an argument). *)
Definition dict_getitem {S V} (d : gmap Z V) (k : Z) : M S V :=
  match d !! k with
  | Some v => ret v
  | None => raise (KeyError k)
  end.

(** ** Value types *)

(** The text of a captured [traceback.StackSummary], frame by frame. *)
Definition StackSummary : Type := list string.

Inductive AccessType : Type := READ | WRITE.

Module Access.
Record t : Type := mk {
  type : AccessType;
  seq_num : Z;
  stream : Z;
  operator : string;
  names : list string;
  stack_trace : StackSummary
}.
End Access.

Module UnsynchronizedAccessError.
Record t : Type := mk {
  data_ptr : Z;
  allocation_stack_trace : option StackSummary;
  current_access : Access.t;
  previous_access : Access.t
}.
End UnsynchronizedAccessError.

Module TensorInfo.
Record t : Type := mk {
  allocation_stack_trace : option StackSummary;
  reads : list Access.t;
  write : option Access.t
}.
End TensorInfo.

(** ** class _TensorsAccessed *)

Module _TensorsAccessed.
Record t : Type := mk { accesses : gmap Z TensorInfo.t }.

Definition __init__ : t := mk ∅.

(** [self.accesses[data_ptr]] *)
Definition getitem (data_ptr : Z) : M t TensorInfo.t :=
  λ self, match accesses self !! data_ptr with
          | Some info => (Return info, self)
          | None => (Raise (KeyError data_ptr), self)
          end.

(** [data_ptr in self.accesses] *)
Definition contains (data_ptr : Z) : M t bool :=
  gets (λ self, bool_decide (is_Some (accesses self !! data_ptr))).

Definition create_tensor (data_ptr : Z) (stack_trace : option StackSummary) : M t unit :=
  modify (λ self, mk (<[data_ptr := TensorInfo.mk stack_trace [] None]> (accesses self))).

Definition delete_tensor (data_ptr : Z) : M t unit :=
  λ self, match accesses self !! data_ptr with
          | Some _ => (Return tt, mk (delete data_ptr (accesses self)))
          | None => (Raise (KeyError data_ptr), self)
          end.

Definition ensure_tensor_exists (data_ptr : Z) : M t unit :=
  (present <- contains data_ptr ;;
   if negb present then create_tensor data_ptr None else ret tt)%py.

Definition ensure_tensor_does_not_exist (data_ptr : Z) : M t unit :=
  (present <- contains data_ptr ;;
   if present then delete_tensor data_ptr else ret tt)%py.

Definition were_there_reads_since_last_write (data_ptr : Z) : M t bool :=
  (info <- getitem data_ptr ;;
   ret (match TensorInfo.reads info with [] => false | _ :: _ => true end))%py.

Definition get_allocation_stack_trace (data_ptr : Z) : M t (option StackSummary) :=
  (info <- getitem data_ptr ;; ret (TensorInfo.allocation_stack_trace info))%py.

Definition get_write (data_ptr : Z) : M t (option Access.t) :=
  (info <- getitem data_ptr ;; ret (TensorInfo.write info))%py.

Definition get_reads (data_ptr : Z) : M t (list Access.t) :=
  (info <- getitem data_ptr ;; ret (TensorInfo.reads info))%py.

(** [self.accesses[data_ptr].reads.append(access)] *)
Definition add_read (data_ptr : Z) (access : Access.t) : M t unit :=
  λ self, match accesses self !! data_ptr with
          | Some info =>
              (Return tt,
               mk (<[data_ptr := TensorInfo.mk (TensorInfo.allocation_stack_trace info)
                                   (TensorInfo.reads info ++ [access])
                                   (TensorInfo.write info)]> (accesses self)))
          | None => (Raise (KeyError data_ptr), self)
          end.

(** [self.accesses[data_ptr].write = access; self.accesses[data_ptr].reads = []] *)
Definition set_write (data_ptr : Z) (access : Access.t) : M t unit :=
  λ self, match accesses self !! data_ptr with
          | Some info =>
              (Return tt,
               mk (<[data_ptr := TensorInfo.mk (TensorInfo.allocation_stack_trace info)
                                   [] (Some access)]> (accesses self)))
          | None => (Raise (KeyError data_ptr), self)
          end.
End _TensorsAccessed.

(** ** class StreamSynchronizations *)

Module StreamSynchronizations.
Record t : Type := mk {
  current_sync_states : gmap Z (gmap Z Z);
  recorded_sync_states : gmap Z (gmap Z Z)
}.

Definition __init__ : t := mk ∅ ∅.

(** [stream in self.current_sync_states] *)
Definition contains_stream (stream : Z) : M t bool :=
  gets (λ self, bool_decide (is_Some (current_sync_states self !! stream))).

(** [event in self.recorded_sync_states] *)
Definition contains_event (event : Z) : M t bool :=
  gets (λ self, bool_decide (is_Some (recorded_sync_states self !! event))).

(** [self.current_sync_states[stream]] *)
Definition current_getitem (stream : Z) : M t (gmap Z Z) :=
  λ self, match current_sync_states self !! stream with
          | Some clock => (Return clock, self)
          | None => (Raise (KeyError stream), self)
          end.

(** [self.recorded_sync_states[event]] *)
Definition recorded_getitem (event : Z) : M t (gmap Z Z) :=
  λ self, match recorded_sync_states self !! event with
          | Some clock => (Return clock, self)
          | None => (Raise (KeyError event), self)
          end.

(** [self.current_sync_states[stream] = clock]; also the write-back of an
    in-place update of the clock of [stream], which no other name aliases
    ([record_state] stores a copy). *)
Definition current_setitem (stream : Z) (clock : gmap Z Z) : M t unit :=
  modify (λ self, mk (<[stream := clock]> (current_sync_states self))
                     (recorded_sync_states self)).

(** [self.recorded_sync_states[event] = clock] *)
Definition recorded_setitem (event : Z) (clock : gmap Z Z) : M t unit :=
  modify (λ self, mk (current_sync_states self)
                     (<[event := clock]> (recorded_sync_states self))).

(** [del self.recorded_sync_states[event]] *)
Definition recorded_delitem (event : Z) : M t unit :=
  λ self, match recorded_sync_states self !! event with
          | Some _ => (Return tt, mk (current_sync_states self)
                                     (delete event (recorded_sync_states self)))
          | None => (Raise (KeyError event), self)
          end.

Definition create_stream (stream : Z) : M t unit :=
  (present <- contains_stream stream ;;
   if present then ret tt else current_setitem stream ∅)%py.

Definition _ensure_stream_exists (stream : Z) : M t unit :=
  (present <- contains_stream stream ;;
   if negb present then create_stream stream else ret tt)%py.

(** [create_event], [delete_event], [_ensure_event_exists] and
    [_ensure_event_does_not_exist] call one another.  The recursion is on the
    number of nested calls the interpreter still allows; running out of it is
    Python's [RecursionError]. *)
Fixpoint create_event_rec (depth : nat) (event : Z) : M t unit :=
  match depth with
  | O => raise RecursionError
  | S depth' =>
      (_ensure_event_does_not_exist_rec depth' event ;;;
       recorded_setitem event ∅)%py
  end
with delete_event_rec (depth : nat) (event : Z) : M t unit :=
  match depth with
  | O => raise RecursionError
  | S depth' =>
      (_ensure_event_exists_rec depth' event ;;;
       recorded_delitem event)%py
  end
with _ensure_event_exists_rec (depth : nat) (event : Z) : M t unit :=
  match depth with
  | O => raise RecursionError
  | S depth' =>
      (present <- contains_event event ;;
       if negb present then create_event_rec depth' event else ret tt)%py
  end
with _ensure_event_does_not_exist_rec (depth : nat) (event : Z) : M t unit :=
  match depth with
  | O => raise RecursionError
  | S depth' =>
      (present <- contains_event event ;;
       if present then delete_event_rec depth' event else ret tt)%py
  end.

(** The deepest chain of calls among the four methods has four frames
    ([event_depth_irrelevant] below: more frames change nothing). *)
Definition call_depth : nat := 4%nat.

Definition create_event : Z → M t unit := create_event_rec call_depth.
Definition delete_event : Z → M t unit := delete_event_rec call_depth.
Definition _ensure_event_exists : Z → M t unit := _ensure_event_exists_rec call_depth.
Definition _ensure_event_does_not_exist : Z → M t unit :=
  _ensure_event_does_not_exist_rec call_depth.

Definition update_seq_num (stream : Z) (seq_num : Z) : M t unit :=
  (_ensure_stream_exists stream ;;;
   clock <- current_getitem stream ;;
   current_setitem stream (<[stream := seq_num]> clock))%py.

Definition record_state (event : Z) (stream : Z) : M t unit :=
  (_ensure_event_exists event ;;;
   _ensure_stream_exists stream ;;;
   clock <- current_getitem stream ;;
   recorded_setitem event clock)%py.

(** The body of the loop of [state_wait_for_event]. *)
Definition wait_body (stream : Z) (item : Z * Z) : M t unit :=
  (clock <- current_getitem stream ;;
   current_setitem stream
     (<[item.1 := Z.max (default (-1) (clock !! item.1)) item.2]> clock))%py.

Definition state_wait_for_event (stream : Z) (event : Z) : M t unit :=
  (_ensure_event_exists event ;;;
   _ensure_stream_exists stream ;;;
   snapshot <- recorded_getitem event ;;
   for_each (wait_body stream) (map_to_list snapshot))%py.

Definition is_ordered_after (current_stream : Z) (seq_num : Z) (other_stream : Z)
  : M t bool :=
  (_ensure_stream_exists current_stream ;;;
   _ensure_stream_exists other_stream ;;;
   clock <- current_getitem current_stream ;;
   ret (seq_num <=? default (-1) (clock !! other_stream)))%py.
End StreamSynchronizations.


(** ** class EventHandler *)

Module EventHandler.
Record t : Type := mk {
  tensors_accessed : _TensorsAccessed.t;
  syncs : StreamSynchronizations.t;
  seq_num : Z
}.

Definition __init__ : t :=
  mk _TensorsAccessed.__init__ StreamSynchronizations.__init__ 0.

(** [self.tensors_accessed.method(...)] *)
Definition on_tensors_accessed {A} (m : M _TensorsAccessed.t A) : M t A :=
  zoom tensors_accessed (λ ta self, mk ta (syncs self) (seq_num self)) m.

(** [self.syncs.method(...)] *)
Definition on_syncs {A} (m : M StreamSynchronizations.t A) : M t A :=
  zoom syncs (λ sy self, mk (tensors_accessed self) sy (seq_num self)) m.

(** The closure [check_conflict] of [_handle_kernel_launch].  The list
    [error_list] it appends to is local to the launch: it is passed in and the
    grown list is returned. *)
Definition check_conflict (data_ptr : Z) (current_access : Access.t)
    (previous_access : option Access.t)
    (error_list : list UnsynchronizedAccessError.t)
  : M t (list UnsynchronizedAccessError.t) :=
  match previous_access with
  | None => ret error_list
  | Some previous_access =>
      (ordered <- on_syncs (StreamSynchronizations.is_ordered_after
                              (Access.stream current_access)
                              (Access.seq_num previous_access)
                              (Access.stream previous_access)) ;;
       if negb ordered then
         (allocation_stack_trace <-
            on_tensors_accessed (_TensorsAccessed.get_allocation_stack_trace data_ptr) ;;
          ret (error_list ++
               [UnsynchronizedAccessError.mk data_ptr allocation_stack_trace
                  current_access previous_access]))
       else ret error_list)%py
  end.

(** The body of [for data_ptr in read_only]. *)
Definition read_only_body (stream : Z) (operator : string)
    (tensor_names : gmap Z (list string)) (stack_trace : StackSummary)
    (data_ptr : Z) (error_list : list UnsynchronizedAccessError.t)
  : M t (list UnsynchronizedAccessError.t) :=
  (on_tensors_accessed (_TensorsAccessed.ensure_tensor_exists data_ptr) ;;;
   n <- gets seq_num ;;
   names <- dict_getitem tensor_names data_ptr ;;
   let current_access := Access.mk READ n stream operator names stack_trace in
   previous_access <- on_tensors_accessed (_TensorsAccessed.get_write data_ptr) ;;
   error_list <- check_conflict data_ptr current_access previous_access error_list ;;
   on_tensors_accessed (_TensorsAccessed.add_read data_ptr current_access) ;;;
   ret error_list)%py.

(** The body of [for data_ptr in read_write]. *)
Definition read_write_body (stream : Z) (operator : string)
    (tensor_names : gmap Z (list string)) (stack_trace : StackSummary)
    (data_ptr : Z) (error_list : list UnsynchronizedAccessError.t)
  : M t (list UnsynchronizedAccessError.t) :=
  (on_tensors_accessed (_TensorsAccessed.ensure_tensor_exists data_ptr) ;;;
   n <- gets seq_num ;;
   names <- dict_getitem tensor_names data_ptr ;;
   let current_access := Access.mk WRITE n stream operator names stack_trace in
   were_reads <-
     on_tensors_accessed (_TensorsAccessed.were_there_reads_since_last_write data_ptr) ;;
   error_list <-
     (if were_reads : bool then
        reads <- on_tensors_accessed (_TensorsAccessed.get_reads data_ptr) ;;
        for_each_acc
          (λ previous_access, check_conflict data_ptr current_access (Some previous_access))
          reads error_list
      else
        previous_access <- on_tensors_accessed (_TensorsAccessed.get_write data_ptr) ;;
        check_conflict data_ptr current_access previous_access error_list) ;;
   on_tensors_accessed (_TensorsAccessed.set_write data_ptr current_access) ;;;
   ret error_list)%py.

(** [stack_trace] is the summary captured by the handler after the sequence
    number is bumped. *)
Definition _handle_kernel_launch (stream : Z) (read_only read_write : list Z)
    (operator : string) (tensor_names : gmap Z (list string))
    (stack_trace : StackSummary)
  : M t (list UnsynchronizedAccessError.t) :=
  (modify (λ self, mk (tensors_accessed self) (syncs self) (seq_num self + 1)) ;;;
   n <- gets seq_num ;;
   on_syncs (StreamSynchronizations.update_seq_num stream n) ;;;
   error_list <-
     for_each_acc (read_only_body stream operator tensor_names stack_trace)
       read_only [] ;;
   error_list <-
     for_each_acc (read_write_body stream operator tensor_names stack_trace)
       read_write error_list ;;
   ret error_list)%py.

Definition _handle_event_creation (event : Z) : M t unit :=
  on_syncs (StreamSynchronizations.create_event event).

Definition _handle_event_deletion (event : Z) : M t unit :=
  on_syncs (StreamSynchronizations.delete_event event).

Definition _handle_event_record (event : Z) (stream : Z) : M t unit :=
  on_syncs (StreamSynchronizations.record_state event stream).

Definition _handle_event_wait (event : Z) (stream : Z) : M t unit :=
  on_syncs (StreamSynchronizations.state_wait_for_event stream event).

(** [stack_trace] is the summary captured by the handler. *)
Definition _handle_memory_allocation (data_ptr : Z) (stack_trace : StackSummary)
  : M t unit :=
  (on_tensors_accessed (_TensorsAccessed.ensure_tensor_does_not_exist data_ptr) ;;;
   on_tensors_accessed (_TensorsAccessed.create_tensor data_ptr (Some stack_trace)))%py.

Definition _handle_memory_deallocation (data_ptr : Z) : M t unit :=
  (on_tensors_accessed (_TensorsAccessed.ensure_tensor_exists data_ptr) ;;;
   on_tensors_accessed (_TensorsAccessed.delete_tensor data_ptr))%py.

Definition _handle_stream_creation (stream : Z) : M t unit :=
  on_syncs (StreamSynchronizations.create_stream stream).
End EventHandler.

(** ** Traces: sequences of handler calls *)

(** One call of a handler of [EventHandler], with its arguments and, for the
    two handlers that capture one, the captured stack summary. *)
Inductive Event : Type :=
  | KernelLaunch (stream : Z) (read_only read_write : list Z) (operator : string)
      (tensor_names : gmap Z (list string)) (stack_trace : StackSummary)
  | EventCreation (event : Z)
  | EventDeletion (event : Z)
  | EventRecord (event : Z) (stream : Z)
  | EventWait (event : Z) (stream : Z)
  | MemoryAllocation (data_ptr : Z) (stack_trace : StackSummary)
  | MemoryDeallocation (data_ptr : Z)
  | StreamCreation (stream : Z).

(** What a handler call gives back: the list of errors of a launch, [None] of
    the other handlers. *)
Definition Outcome : Type := Result (option (list UnsynchronizedAccessError.t)).

Definition returning_None {S} (m : M S unit) : M S (option (list UnsynchronizedAccessError.t)) :=
  bind m (λ _, ret None).

Definition handle (ev : Event) : M EventHandler.t (option (list UnsynchronizedAccessError.t)) :=
  match ev with
  | KernelLaunch stream read_only read_write operator tensor_names stack_trace =>
      bind (EventHandler._handle_kernel_launch stream read_only read_write operator
              tensor_names stack_trace)
           (λ error_list, ret (Some error_list))
  | EventCreation event => returning_None (EventHandler._handle_event_creation event)
  | EventDeletion event => returning_None (EventHandler._handle_event_deletion event)
  | EventRecord event stream =>
      returning_None (EventHandler._handle_event_record event stream)
  | EventWait event stream =>
      returning_None (EventHandler._handle_event_wait event stream)
  | MemoryAllocation data_ptr stack_trace =>
      returning_None (EventHandler._handle_memory_allocation data_ptr stack_trace)
  | MemoryDeallocation data_ptr =>
      returning_None (EventHandler._handle_memory_deallocation data_ptr)
  | StreamCreation stream => returning_None (EventHandler._handle_stream_creation stream)
  end.

(** Feed a trace to a handler object, call after call; an exception of one call
    is seen by its caller and the object lives on. *)
Fixpoint replay (evs : list Event) (self : EventHandler.t) : list Outcome * EventHandler.t :=
  match evs with
  | [] => ([], self)
  | ev :: evs' =>
      let (out, self') := handle ev self in
      let (outs, self'') := replay evs' self' in
      (out :: outs, self'')
  end.


(** ** Arguments of a dispatched call *)

(** What the code reads of a [torch.Argument]: its [name] and its
    [alias_info]; [None] stands for an argument without the attribute as well
    as for one whose attribute is [None]. *)
Module AliasInfo.
Record t : Type := mk {
  (** [getattr(alias_info, "is_write", False)] *)
  is_write : bool
}.
End AliasInfo.

Module Argument.
Record t : Type := mk {
  name : string;
  alias_info : option AliasInfo.t
}.
End Argument.

(** What the code reads of a [torch.FunctionSchema]: its [arguments]; [repr]
    is the text of the schema, which the launch handler takes as [operator]. *)
Module FunctionSchema.
Record t : Type := mk {
  arguments : list Argument.t;
  repr : string
}.
End FunctionSchema.

(** A leaf of an argument or of an output, as [_handle_argument] sees it: a
    [torch.Tensor], with [is_cuda] and [data_ptr()], or any other object. *)
Inductive Value : Type :=
  | Tensor (is_cuda : bool) (data_ptr : Z)
  | Other.

(** A Python [dict] with [str] keys that is iterated over: its items in
    insertion order. *)
Fixpoint dict_setitem {V} (k : string) (v : V) (d : list (string * V))
  : list (string * V) :=
  match d with
  | [] => [(k, v)]
  | (k', v') :: d' =>
      if decide (k' = k) then (k, v) :: d' else (k', v') :: dict_setitem k v d'
  end.

(** [{k: v for k, v in kvs}] *)
Definition dict_of_items {V} (kvs : list (string * V)) : list (string * V) :=
  foldl (λ d kv, dict_setitem kv.1 kv.2 d) [] kvs.

(** The generator [zip_by_key(a, b)], as the list of what it yields; [b] is
    only asked for membership and looked up. *)
Fixpoint zip_by_key {Va Vb} (a : list (string * Va)) (b : gmap string Vb)
  : list (string * Va * Vb) :=
  match a with
  | [] => []
  | (arg, value) :: a' =>
      match b !! arg with
      | Some value_b => (arg, value, value_b) :: zip_by_key a' b
      | None => zip_by_key a' b
      end
  end.

(** The generator [zip_arguments(schema, args, kwargs)], as the list of what
    it yields. *)
Definition zip_arguments {Any} (schema : FunctionSchema.t) (args : list Any)
    (kwargs : gmap string Any) : list (Argument.t * Any) :=
  let schema_args := take (length args) (FunctionSchema.arguments schema) in
  let schema_kwargs :=
    dict_of_items ((λ arg, (Argument.name arg, arg)) <$>
                   drop (length args) (FunctionSchema.arguments schema)) in
  zip schema_args args ++
  ((λ '(_, argument, value), (argument, value)) <$> zip_by_key schema_kwargs kwargs).

(** ** class ArgumentHandler *)

Module ArgumentHandler.
Record t : Type := mk {
  dataptrs_read : gset Z;
  dataptrs_written : gset Z;
  tensor_names : gmap Z (list string)
}.

Definition __init__ : t := mk ∅ ∅ ∅.

Definition _handle_argument (value : Value) (is_write : bool) (name : string)
  : M t unit :=
  match value with
  | Tensor true data_ptr =>
      (modify (λ self,
         if is_write then
           mk (dataptrs_read self) ({[data_ptr]} ∪ dataptrs_written self)
              (tensor_names self)
         else
           mk ({[data_ptr]} ∪ dataptrs_read self) (dataptrs_written self)
              (tensor_names self)) ;;;
       (* self.tensor_names.setdefault(data_ptr, []).append(name) *)
       modify (λ self,
         mk (dataptrs_read self) (dataptrs_written self)
            (<[data_ptr := default [] (tensor_names self !! data_ptr) ++ [name]]>
               (tensor_names self))))%py
  | _ => ret tt
  end.

Section parse.
(** [tree_map] is not part of this file: an argument or output of type [Any]
    comes with [tree_leaves], the leaves [tree_map] calls its function on, in
    the order of the calls. *)
Context {Any : Type} (tree_leaves : Any → list Value).

(** [tree_map(f, value)], for its calls of [f]. *)
Definition tree_map (f : Value → M t unit) (value : Any) : M t unit :=
  for_each f (tree_leaves value).

Definition parse_inputs (schema : FunctionSchema.t) (args : list Any)
    (kwargs : gmap string Any) : M t unit :=
  for_each
    (λ '(argument, value),
       let is_write :=
         match Argument.alias_info argument with
         | Some alias_info => AliasInfo.is_write alias_info
         | None => false
         end in
       tree_map (λ leaf, _handle_argument leaf is_write (Argument.name argument)) value)
    (zip_arguments schema args kwargs).

Definition parse_outputs (outputs : Any) : M t unit :=
  tree_map (λ leaf, _handle_argument leaf true "output") outputs.
End parse.
End ArgumentHandler.

(** ** CUDASanitizerDispatchMode.__torch_dispatch__ *)

(** How a dispatched call ends: with the outputs of the kernel, with the
    sanitizer's own exception, or with an exception of the launch handler. *)
Inductive Dispatched (Any : Type) : Type :=
  | Outputs (outputs : Any)
  | CUDASanitizerErrors (errors : list UnsynchronizedAccessError.t)
  | Propagated (e : Exception).
Arguments Outputs {Any} outputs.
Arguments CUDASanitizerErrors {Any} errors.
Arguments Propagated {Any} e.

Section dispatch.
Context {Any : Type} (tree_leaves : Any → list Value).
(** [list(s)] of a set of pointers: its elements in the order Python iterates
    over the set. *)
Variable list_of_set : gset Z → list Z.

(** [__torch_dispatch__] on the event handler [self.event_handler], from the
    kernel [func] on: [outputs] is what the call of [func] returned,
    [cuda_stream] is [torch.cuda.current_stream().cuda_stream] and
    [stack_trace] what the launch handler captures.  The errors are also
    printed to [sys.stderr], which is left out. *)
Definition __torch_dispatch__ (schema : FunctionSchema.t) (args : list Any)
    (kwargs : option (gmap string Any)) (outputs : Any) (cuda_stream : Z)
    (stack_trace : StackSummary) (event_handler : EventHandler.t)
  : Dispatched Any * EventHandler.t :=
  let kwargs := match kwargs with Some kwargs => kwargs | None => ∅ end in
  let argument_handler :=
    (bind (ArgumentHandler.parse_inputs tree_leaves schema args kwargs)
       (λ _, ArgumentHandler.parse_outputs tree_leaves outputs)
       ArgumentHandler.__init__).2 in
  match EventHandler._handle_kernel_launch cuda_stream
          (list_of_set (ArgumentHandler.dataptrs_read argument_handler ∖
                        ArgumentHandler.dataptrs_written argument_handler))
          (list_of_set (ArgumentHandler.dataptrs_written argument_handler))
          (FunctionSchema.repr schema)
          (ArgumentHandler.tensor_names argument_handler)
          stack_trace event_handler with
  | (Return [], event_handler') => (Outputs outputs, event_handler')
  | (Return (error :: errors), event_handler') =>
      (CUDASanitizerErrors (error :: errors), event_handler')
  | (Raise e, event_handler') => (Propagated e, event_handler')
  end.
End dispatch.

(** ** The order of a dict *)

(** [state_wait_for_event] is the one method of the three classes whose loop
    runs over a dict ([self.recorded_sync_states[event].items()]), and a loop
    may leave a state that depends on the order of its items.  The maps of
    this file keep no insertion order, so here the order is an input:
    [items_of] lists the items of the snapshot as the loop is to see them.  The
    rest is the method as it is above. *)
Definition state_wait_for_event_in (items_of : gmap Z Z → list (Z * Z))
    (stream : Z) (event : Z) : M StreamSynchronizations.t unit :=
  (StreamSynchronizations._ensure_event_exists event ;;;
   StreamSynchronizations._ensure_stream_exists stream ;;;
   snapshot <- StreamSynchronizations.recorded_getitem event ;;
   for_each (StreamSynchronizations.wait_body stream) (items_of snapshot))%py.

(** [items_of] lists the items of every dict, each of them once. *)
Definition iteration_order (items_of : gmap Z Z → list (Z * Z)) : Prop :=
  ∀ d, items_of d ≡ₚ map_to_list d.

(** One handler call on a core whose dicts are iterated as [items_of] says. *)
Definition handle_in (items_of : gmap Z Z → list (Z * Z)) (ev : Event)
  : M EventHandler.t (option (list UnsynchronizedAccessError.t)) :=
  match ev with
  | EventWait event stream =>
      returning_None
        (EventHandler.on_syncs (state_wait_for_event_in items_of stream event))
  | _ => handle ev
  end.

Fixpoint replay_in (items_of : gmap Z Z → list (Z * Z)) (evs : list Event)
    (self : EventHandler.t) : list Outcome * EventHandler.t :=
  match evs with
  | [] => ([], self)
  | ev :: evs' =>
      let (out, self') := handle_in items_of ev self in
      let (outs, self'') := replay_in items_of evs' self' in
      (out :: outs, self'')
  end.


(** ** Vocabulary of the properties *)

(** [current[u][t]] and [recorded[e][t]], [None] when either key is missing. *)
Definition clock (σ : StreamSynchronizations.t) (u t : Z) : option Z :=
  StreamSynchronizations.current_sync_states σ !! u ≫= (.!! t).

Definition snapshot (σ : StreamSynchronizations.t) (e t : Z) : option Z :=
  StreamSynchronizations.recorded_sync_states σ !! e ≫= (.!! t).

(** The same with the default [-1] of [dict.get(_, -1)]. *)
Definition clock_value (σ : StreamSynchronizations.t) (u t : Z) : Z :=
  default (-1) (clock σ u t).

Definition snapshot_value (σ : StreamSynchronizations.t) (e t : Z) : Z :=
  default (-1) (snapshot σ e t).

(** The table after [_ensure_stream_exists(stream)]. *)
Definition backfill_stream (stream : Z) (σ : StreamSynchronizations.t)
  : StreamSynchronizations.t :=
  match StreamSynchronizations.current_sync_states σ !! stream with
  | Some _ => σ
  | None =>
      StreamSynchronizations.mk
        (<[stream := ∅]> (StreamSynchronizations.current_sync_states σ))
        (StreamSynchronizations.recorded_sync_states σ)
  end.

(** The table after [_ensure_event_exists(event)]. *)
Definition backfill_event (event : Z) (σ : StreamSynchronizations.t)
  : StreamSynchronizations.t :=
  match StreamSynchronizations.recorded_sync_states σ !! event with
  | Some _ => σ
  | None =>
      StreamSynchronizations.mk
        (StreamSynchronizations.current_sync_states σ)
        (<[event := ∅]> (StreamSynchronizations.recorded_sync_states σ))
  end.

(** A clock after it took in a snapshot, coordinate by coordinate. *)
Definition absorb (clock snapshot : gmap Z Z) : gmap Z Z :=
  merge (λ c n, match n with
                | Some n => Some (Z.max (default (-1) c) n)
                | None => c
                end) clock snapshot.

(** [σ'] is [σ] with empty clocks added for some absent streams. *)
Definition backfilled (σ σ' : StreamSynchronizations.t) : Prop :=
  StreamSynchronizations.recorded_sync_states σ' =
    StreamSynchronizations.recorded_sync_states σ ∧
  ∀ u, StreamSynchronizations.current_sync_states σ' !! u =
         StreamSynchronizations.current_sync_states σ !! u ∨
       (StreamSynchronizations.current_sync_states σ !! u = None ∧
        StreamSynchronizations.current_sync_states σ' !! u = Some ∅).

(** [wp m Q s]: run from [s], [m] ends with a result and a state in [Q]. *)
Definition wp {S A} (m : M S A) (Q : Result A → S → Prop) (s : S) : Prop :=
  Q (m s).1 (m s).2.

(** The log after [ensure_tensor_exists(data_ptr)]. *)
Definition backfill_tensor (data_ptr : Z) (ta : _TensorsAccessed.t) : _TensorsAccessed.t :=
  match _TensorsAccessed.accesses ta !! data_ptr with
  | Some _ => ta
  | None =>
      _TensorsAccessed.mk
        (<[data_ptr := TensorInfo.mk None [] None]> (_TensorsAccessed.accesses ta))
  end.

(** Every access kept in the log was made by a launch numbered at most [n]. *)
Definition info_bounded (n : Z) (info : TensorInfo.t) : Prop :=
  Forall (λ a, Access.seq_num a ≤ n) (TensorInfo.reads info) ∧
  ∀ a, TensorInfo.write info = Some a → Access.seq_num a ≤ n.

Definition log_bounded (n : Z) (ta : _TensorsAccessed.t) : Prop :=
  ∀ data_ptr info,
    _TensorsAccessed.accesses ta !! data_ptr = Some info → info_bounded n info.

(** No error of the list cites two accesses of one stream. *)
Definition no_same_stream (error_list : list UnsynchronizedAccessError.t) : Prop :=
  Forall (λ err, Access.stream (UnsynchronizedAccessError.previous_access err) ≠
                 Access.stream (UnsynchronizedAccessError.current_access err))
         error_list.

(** What holds of the handler throughout launch number [n]: [σ0] is the sync
    table right after [update_seq_num].  The part on the log is guarded by
    [bounded], which says whether the launch started from a bounded log. *)
Definition launch_inv (bounded : Prop) (σ0 : StreamSynchronizations.t) (n : Z)
    (h : EventHandler.t) : Prop :=
  EventHandler.seq_num h = n ∧
  backfilled σ0 (EventHandler.syncs h) ∧
  (bounded → log_bounded n (EventHandler.tensors_accessed h)).

(** The postcondition of every step of the launch. *)
Definition launch_post (bounded : Prop) (σ0 : StreamSynchronizations.t) (n : Z)
  : Result (list UnsynchronizedAccessError.t) → EventHandler.t → Prop :=
  λ r h, launch_inv bounded σ0 n h ∧
         match r with
         | Return error_list => bounded → no_same_stream error_list
         | Raise _ => True
         end.

(** An error cites the accesses [a] and [b], one as the previous and the other
    as the current access. *)
Definition cites (err : UnsynchronizedAccessError.t) (a b : Access.t) : Prop :=
  (UnsynchronizedAccessError.previous_access err = a ∧
   UnsynchronizedAccessError.current_access err = b) ∨
  (UnsynchronizedAccessError.previous_access err = b ∧
   UnsynchronizedAccessError.current_access err = a).

(** The value of the launch counter after the calls of [evs], from [n]. *)
Fixpoint seq_num_from (n : Z) (evs : list Event) : Z :=
  match evs with
  | [] => n
  | KernelLaunch _ _ _ _ _ _ :: evs' => seq_num_from (n + 1) evs'
  | _ :: evs' => seq_num_from n evs'
  end.

(** The sequence number of the last launch of [evs] on stream [s], the counter
    starting from [n]; [last] when [evs] has no launch on [s]. *)
Fixpoint last_launch_from (n : Z) (last : option Z) (s : Z) (evs : list Event)
  : option Z :=
  match evs with
  | [] => last
  | KernelLaunch stream _ _ _ _ _ :: evs' =>
      last_launch_from (n + 1)
        (if bool_decide (stream = s) then Some (n + 1) else last) s evs'
  | _ :: evs' => last_launch_from n last s evs'
  end.

(** On a fresh handler: the counter starts at [0] and no stream has launched. *)
Definition last_launch (evs : list Event) (s : Z) : option Z :=
  last_launch_from 0 None s evs.

(** The sync table of a handler whose counter is [n] and whose last launch on
    each stream [s] was numbered [last s]. *)
Record sync_inv (last : Z → option Z) (n : Z) (σ : StreamSynchronizations.t) : Prop := {
  clock_le_self : ∀ u t k, clock σ u t = Some k → ∃ k', clock σ t t = Some k' ∧ k ≤ k';
  snapshot_le_self :
    ∀ e t k, snapshot σ e t = Some k → ∃ k', clock σ t t = Some k' ∧ k ≤ k';
  self_is_last : ∀ s, clock σ s s = last s;
  last_bounds : ∀ s k, last s = Some k → 1 ≤ k ≤ n;
  clock_ge_1 : ∀ u t k, clock σ u t = Some k → 1 ≤ k;
  snapshot_ge_1 : ∀ e t k, snapshot σ e t = Some k → 1 ≤ k
}.

Definition handler_inv (last : Z → option Z) (h : EventHandler.t) : Prop :=
  log_bounded (EventHandler.seq_num h) (EventHandler.tensors_accessed h) ∧
  sync_inv last (EventHandler.seq_num h) (EventHandler.syncs h).

(** The ordering check of [check_conflict] fails: the previous access is not
    known to [σ] to happen before the current one. *)
Definition unordered (σ : StreamSynchronizations.t)
    (current_access previous_access : Access.t) : bool :=
  negb (Access.seq_num previous_access <=?
        clock_value σ (Access.stream current_access) (Access.stream previous_access)).

(** The errors [check_conflict] appends when [current_access] is checked
    against each access of [checked] in turn. *)
Definition conflicts (data_ptr : Z) (allocation_stack_trace : option StackSummary)
    (σ : StreamSynchronizations.t) (current_access : Access.t)
    (checked : list Access.t) : list UnsynchronizedAccessError.t :=
  map (UnsynchronizedAccessError.mk data_ptr allocation_stack_trace current_access)
      (List.filter (unordered σ current_access) checked).

(** Unfold the primitives of the sync table and of the monad. *)
Ltac run_sync :=
  unfold StreamSynchronizations._ensure_stream_exists,
    StreamSynchronizations.create_stream, StreamSynchronizations.contains_stream,
    StreamSynchronizations.contains_event, StreamSynchronizations.current_getitem,
    StreamSynchronizations.recorded_getitem, StreamSynchronizations.current_setitem,
    StreamSynchronizations.recorded_setitem, StreamSynchronizations.recorded_delitem,
    bind, ret, raise, gets, modify; simpl.

(** The first end-to-end scenario: a write on stream [0], then an unsynchronized
    read of the same buffer [0xB] on stream [1]. *)
Definition unsynchronized_read_after_write_trace (operator : string)
    (tensor_names1 tensor_names2 : gmap Z (list string))
    (allocation_stack_trace stack_trace1 stack_trace2 : StackSummary) : list Event :=
  [StreamCreation 0; StreamCreation 1; MemoryAllocation 11 allocation_stack_trace;
   KernelLaunch 0 [] [11] operator tensor_names1 stack_trace1;
   KernelLaunch 1 [11] [] operator tensor_names2 stack_trace2].

(** ** Forgetting the captured stack summaries *)

Definition erase_access (a : Access.t) : Access.t :=
  Access.mk (Access.type a) (Access.seq_num a) (Access.stream a) (Access.operator a)
    (Access.names a) [].

(** Whether an allocation trace was captured stays; what it holds goes. *)
Definition erase_allocation (st : option StackSummary) : option StackSummary :=
  (λ _, []) <$> st.

Definition erase_error (err : UnsynchronizedAccessError.t) : UnsynchronizedAccessError.t :=
  UnsynchronizedAccessError.mk (UnsynchronizedAccessError.data_ptr err)
    (erase_allocation (UnsynchronizedAccessError.allocation_stack_trace err))
    (erase_access (UnsynchronizedAccessError.current_access err))
    (erase_access (UnsynchronizedAccessError.previous_access err)).

Definition erase_info (info : TensorInfo.t) : TensorInfo.t :=
  TensorInfo.mk (erase_allocation (TensorInfo.allocation_stack_trace info))
    (erase_access <$> TensorInfo.reads info)
    (erase_access <$> TensorInfo.write info).

Definition erase_log (ta : _TensorsAccessed.t) : _TensorsAccessed.t :=
  _TensorsAccessed.mk (erase_info <$> _TensorsAccessed.accesses ta).

Definition erase_handler (h : EventHandler.t) : EventHandler.t :=
  EventHandler.mk (erase_log (EventHandler.tensors_accessed h)) (EventHandler.syncs h)
    (EventHandler.seq_num h).

Definition erase_event (ev : Event) : Event :=
  match ev with
  | KernelLaunch stream read_only read_write operator tensor_names _ =>
      KernelLaunch stream read_only read_write operator tensor_names []
  | MemoryAllocation data_ptr _ => MemoryAllocation data_ptr []
  | _ => ev
  end.

Definition erase_returned (out : option (list UnsynchronizedAccessError.t))
  : option (list UnsynchronizedAccessError.t) :=
  fmap (M := list) erase_error <$> out.

Definition map_Result {A B} (f : A → B) (r : Result A) : Result B :=
  match r with
  | Return a => Return (f a)
  | Raise e => Raise e
  end.

Definition erase_outcome (out : Outcome) : Outcome := map_Result erase_returned out.

(** [m'] does on the image of a state what [m] does on the state: the same
    result up to [fA], and the image of the same final state. *)
Definition commutes {S A} (fS : S → S) (fA : A → A) (m m' : M S A) : Prop :=
  ∀ s, m' (fS s) = (map_Result fA (m s).1, fS (m s).2).

(** ** Vocabulary of the further properties *)

(** The postcondition of a step that keeps an invariant [I] of the handler and,
    when it returns, an invariant [J] of the error list. *)
Definition keeps (I : EventHandler.t → Prop) (J : list UnsynchronizedAccessError.t → Prop)
  : Result (list UnsynchronizedAccessError.t) → EventHandler.t → Prop :=
  λ r h, I h ∧ match r with Return error_list => J error_list | Raise _ => True end.

(** The handler with another access log, with another sync table. *)
Definition with_tensors_accessed (ta : _TensorsAccessed.t) (h : EventHandler.t)
  : EventHandler.t :=
  EventHandler.mk ta (EventHandler.syncs h) (EventHandler.seq_num h).

Definition with_syncs (σ : StreamSynchronizations.t) (h : EventHandler.t)
  : EventHandler.t :=
  EventHandler.mk (EventHandler.tensors_accessed h) σ (EventHandler.seq_num h).

(** The previous accesses that a launch checks a new access of type [ty] to a
    buffer against, [info] being what the log holds for the buffer. *)
Definition checked_against (ty : AccessType) (info : TensorInfo.t) : list Access.t :=
  match ty with
  | READ => option_list (TensorInfo.write info)
  | WRITE =>
      match TensorInfo.reads info with
      | [] => option_list (TensorInfo.write info)
      | _ :: _ => TensorInfo.reads info
      end
  end.

(** The pointers a launch handles as [ty]. *)
Definition pointers_of (ty : AccessType) (read_only read_write : list Z) : list Z :=
  match ty with READ => read_only | WRITE => read_write end.

(** The accesses the log holds for a buffer. *)
Definition accesses_of (info : TensorInfo.t) : list Access.t :=
  TensorInfo.reads info ++ option_list (TensorInfo.write info).

(** The log keeps READ accesses in [reads] and a WRITE access in [write]. *)
Definition info_typed (info : TensorInfo.t) : Prop :=
  Forall (λ a, Access.type a = READ) (TensorInfo.reads info) ∧
  ∀ w, TensorInfo.write info = Some w → Access.type w = WRITE.

Definition log_typed (ta : _TensorsAccessed.t) : Prop :=
  ∀ data_ptr info, _TensorsAccessed.accesses ta !! data_ptr = Some info → info_typed info.

(** One of the two accesses of the error is a write. *)
Definition involves_write (err : UnsynchronizedAccessError.t) : Prop :=
  Access.type (UnsynchronizedAccessError.current_access err) = WRITE ∨
  Access.type (UnsynchronizedAccessError.previous_access err) = WRITE.

(** What holds of the errors a handler call gives back, when it gives any. *)
Definition errors_satisfy (P : UnsynchronizedAccessError.t → Prop) (out : Outcome) : Prop :=
  match out with
  | Return (Some error_list) => Forall P error_list
  | _ => True
  end.

Definition is_launch (ev : Event) : bool :=
  match ev with
  | KernelLaunch _ _ _ _ _ _ => true
  | _ => false
  end.

(** The handler call rewrites or drops the snapshot of [event]. *)
Definition rewrites_snapshot (event : Z) (ev : Event) : bool :=
  match ev with
  | EventCreation e | EventDeletion e | EventRecord e _ => bool_decide (e = event)
  | _ => false
  end.

(** [tensor_names] has no entry for the pointer. *)
Definition unnamed (tensor_names : gmap Z (list string)) (data_ptr : Z) : bool :=
  match tensor_names !! data_ptr with
  | Some _ => false
  | None => true
  end.

(** The first pointer, in the order a launch visits them, that [tensor_names]
    has no entry for. *)
Definition first_unnamed (tensor_names : gmap Z (list string))
    (read_only read_write : list Z) : option Z :=
  List.find (unnamed tensor_names) (read_only ++ read_write).

(** The last write of a buffer is older than every read kept since. *)
Definition writer_older_than_readers (info : TensorInfo.t) : Prop :=
  ∀ w, TensorInfo.write info = Some w →
       Forall (λ r, Access.seq_num w < Access.seq_num r) (TensorInfo.reads info).

(** Every buffer of the log has its write older than its reads and no access
    numbered above [n]; during the reads of launch [n + 1] ([strict]) no write
    numbered [n + 1] either. *)
Definition history_ordered (n : Z) (ta : _TensorsAccessed.t) : Prop :=
  ∀ data_ptr info,
    _TensorsAccessed.accesses ta !! data_ptr = Some info →
    writer_older_than_readers info ∧
    Forall (λ a, Access.seq_num a ≤ n) (accesses_of info).

Definition history_ordered_reading (n : Z) (ta : _TensorsAccessed.t) : Prop :=
  ∀ data_ptr info,
    _TensorsAccessed.accesses ta !! data_ptr = Some info →
    writer_older_than_readers info ∧
    Forall (λ a, Access.seq_num a ≤ n) (TensorInfo.reads info) ∧
    ∀ w, TensorInfo.write info = Some w → Access.seq_num w < n.

(** The handler call is no launch, or a launch on [stream]. *)
Definition launches_on (stream : Z) (ev : Event) : Prop :=
  match ev with
  | KernelLaunch s _ _ _ _ _ => s = stream
  | _ => True
  end.

(** Every access of the log was made on [stream], by a launch numbered at most
    [n]. *)
Definition log_on_stream (stream n : Z) (ta : _TensorsAccessed.t) : Prop :=
  ∀ data_ptr info,
    _TensorsAccessed.accesses ta !! data_ptr = Some info →
    Forall (λ a, Access.stream a = stream ∧ Access.seq_num a ≤ n) (accesses_of info).

(** [is_write] as [parse_inputs] finds it for a schema argument. *)
Definition argument_is_write (argument : Argument.t) : bool :=
  match Argument.alias_info argument with
  | Some alias_info => AliasInfo.is_write alias_info
  | None => false
  end.

(** One call of [_handle_argument]: the leaf, [is_write] and [name]. *)
Definition handle_call (call : Value * bool * string) : M ArgumentHandler.t unit :=
  ArgumentHandler._handle_argument call.1.1 call.1.2 call.2.

(** The leaves of the inputs, in the order [parse_inputs] visits them, each
    with the flag and the name of its schema argument. *)
Definition calls_of_inputs {Any} (tree_leaves : Any → list Value)
    (schema : FunctionSchema.t) (args : list Any) (kwargs : gmap string Any)
  : list (Value * bool * string) :=
  zip_arguments schema args kwargs ≫=
    (λ '(argument, value),
       (λ leaf, (leaf, argument_is_write argument, Argument.name argument)) <$>
       tree_leaves value).

(** The leaves of the outputs, as [parse_outputs] visits them. *)
Definition calls_of_outputs {Any} (tree_leaves : Any → list Value) (outputs : Any)
  : list (Value * bool * string) :=
  (λ leaf, (leaf, true, "output")) <$> tree_leaves outputs.

(** The pointer of a CUDA tensor; nothing for any other leaf. *)
Definition cuda_pointer (value : Value) : option Z :=
  match value with
  | Tensor true data_ptr => Some data_ptr
  | _ => None
  end.

(** The pointers of the CUDA tensors among the calls with the given flag. *)
Definition pointers_with (is_write : bool) (calls : list (Value * bool * string))
  : list Z :=
  omap (λ call, if decide (call.1.2 = is_write) then cuda_pointer call.1.1 else None)
       calls.

(** The names under which the calls mention the pointer, in call order. *)
Definition names_for (data_ptr : Z) (calls : list (Value * bool * string))
  : list string :=
  omap (λ call, if decide (cuda_pointer call.1.1 = Some data_ptr)
                then Some call.2 else None) calls.

(** Every pointer the handler collected has a name list, and no other. *)
Definition named (ah : ArgumentHandler.t) : Prop :=
  dom (ArgumentHandler.tensor_names ah) =
  ArgumentHandler.dataptrs_read ah ∪ ArgumentHandler.dataptrs_written ah.

(** The accesses a new WRITE is checked against, in the words of the spec: the
    readers since the last write when there are any, and then not the last
    writer; otherwise the last writer, when there is one. *)
Definition checked_by_write (info : TensorInfo.t) : list Access.t :=
  match TensorInfo.reads info with
  | [] => option_list (TensorInfo.write info)
  | _ :: _ => TensorInfo.reads info
  end.

(** What the spec says a launch numbered [n] does for one buffer of its
    read-only list, on the errors found so far and the log: the READ access
    is checked against the last writer, then added to the readers. *)
Definition after_read (σ : StreamSynchronizations.t) (n stream : Z) (operator : string)
    (tensor_names : gmap Z (list string)) (stack_trace : StackSummary)
    (st : list UnsynchronizedAccessError.t * gmap Z TensorInfo.t) (data_ptr : Z)
  : list UnsynchronizedAccessError.t * gmap Z TensorInfo.t :=
  let info := default (TensorInfo.mk None [] None) (st.2 !! data_ptr) in
  let current_access :=
    Access.mk READ n stream operator (default [] (tensor_names !! data_ptr))
      stack_trace in
  (st.1 ++ conflicts data_ptr (TensorInfo.allocation_stack_trace info) σ current_access
             (option_list (TensorInfo.write info)),
   <[data_ptr := TensorInfo.mk (TensorInfo.allocation_stack_trace info)
                   (TensorInfo.reads info ++ [current_access])
                   (TensorInfo.write info)]> st.2).

(** What the spec says the launch does for one buffer of its read-write list:
    the WRITE access is checked against [checked_by_write], then installed as
    the last writer, which clears the readers. *)
Definition after_write (σ : StreamSynchronizations.t) (n stream : Z) (operator : string)
    (tensor_names : gmap Z (list string)) (stack_trace : StackSummary)
    (st : list UnsynchronizedAccessError.t * gmap Z TensorInfo.t) (data_ptr : Z)
  : list UnsynchronizedAccessError.t * gmap Z TensorInfo.t :=
  let info := default (TensorInfo.mk None [] None) (st.2 !! data_ptr) in
  let current_access :=
    Access.mk WRITE n stream operator (default [] (tensor_names !! data_ptr))
      stack_trace in
  (st.1 ++ conflicts data_ptr (TensorInfo.allocation_stack_trace info) σ current_access
             (checked_by_write info),
   <[data_ptr := TensorInfo.mk (TensorInfo.allocation_stack_trace info) []
                   (Some current_access)]> st.2).

(** ** The monad: evaluation lemmas *)

Lemma bind_Return {S A B} (m : M S A) (k : A → M S B) s a s' :
  m s = (Return a, s') → bind m k s = k a s'.
Proof. unfold bind. by intros ->. Qed.

Lemma bind_Raise {S A B} (m : M S A) (k : A → M S B) s e s' :
  m s = (Raise e, s') → bind m k s = (Raise e, s').
Proof. unfold bind. by intros ->. Qed.

Lemma bind_ext {S A B} (m m' : M S A) (k k' : A → M S B) s :
  m s = m' s → (∀ a s', k a s' = k' a s') → bind m k s = bind m' k' s.
Proof. intros Hm Hk. unfold bind. rewrite Hm. by destruct (m' s) as [[a|e] s']. Qed.

Lemma dict_getitem_eq {S V} (d : gmap Z V) k v (s : S) :
  d !! k = Some v → dict_getitem d k s = (Return v, s).
Proof. unfold dict_getitem. by intros ->. Qed.

Lemma for_each_acc_ext {S A B} (f g : A → B → M S B) (l : list A) :
  (∀ x acc s, x ∈ l → f x acc s = g x acc s) →
  ∀ acc s, for_each_acc f l acc s = for_each_acc g l acc s.
Proof.
  induction l as [|x l IH]; intros Hfg acc s; simpl; [done|].
  unfold bind. rewrite Hfg by by left.
  destruct (g x acc s) as [[acc'|e] s']; [|done].
  apply IH. intros y acc0 s0 Hy. apply Hfg. by right.
Qed.

(** ** StreamSynchronizations: what each method returns and leaves behind *)

Module SyncFacts.
Import StreamSynchronizations.

Lemma create_stream_eq stream σ :
  create_stream stream σ = (Return tt, backfill_stream stream σ).
Proof.
  unfold backfill_stream. run_sync.
  destruct (current_sync_states σ !! stream) as [c|] eqn:Hc; simpl; [done|].
  by rewrite ?Hc.
Qed.

Lemma _ensure_stream_exists_eq stream σ :
  _ensure_stream_exists stream σ = (Return tt, backfill_stream stream σ).
Proof.
  unfold backfill_stream. run_sync.
  destruct (current_sync_states σ !! stream) as [c|] eqn:Hc; simpl; [done|].
  by rewrite ?Hc.
Qed.

Lemma backfill_stream_lookup stream σ :
  current_sync_states (backfill_stream stream σ) !! stream =
  Some (default ∅ (current_sync_states σ !! stream)).
Proof.
  unfold backfill_stream.
  destruct (current_sync_states σ !! stream) as [c|] eqn:Hc; simpl.
  - by rewrite Hc.
  - by rewrite lookup_insert_eq.
Qed.

Lemma backfill_stream_lookup_ne stream u σ :
  u ≠ stream →
  current_sync_states (backfill_stream stream σ) !! u = current_sync_states σ !! u.
Proof.
  intros Hne. unfold backfill_stream.
  destruct (current_sync_states σ !! stream); simpl; [done|].
  by rewrite lookup_insert_ne.
Qed.

Lemma backfill_stream_recorded stream σ :
  recorded_sync_states (backfill_stream stream σ) = recorded_sync_states σ.
Proof. unfold backfill_stream. by destruct (current_sync_states σ !! stream). Qed.

Lemma backfill_stream_present stream σ :
  is_Some (current_sync_states σ !! stream) → backfill_stream stream σ = σ.
Proof. intros [c Hc]. unfold backfill_stream. by rewrite Hc. Qed.

Lemma backfill_event_lookup event σ :
  recorded_sync_states (backfill_event event σ) !! event =
  Some (default ∅ (recorded_sync_states σ !! event)).
Proof.
  unfold backfill_event.
  destruct (recorded_sync_states σ !! event) as [c|] eqn:Hc; simpl.
  - by rewrite Hc.
  - by rewrite lookup_insert_eq.
Qed.

Lemma backfill_event_lookup_ne event e σ :
  e ≠ event →
  recorded_sync_states (backfill_event event σ) !! e = recorded_sync_states σ !! e.
Proof.
  intros Hne. unfold backfill_event.
  destruct (recorded_sync_states σ !! event); simpl; [done|].
  by rewrite lookup_insert_ne.
Qed.

Lemma backfill_event_current event σ :
  current_sync_states (backfill_event event σ) = current_sync_states σ.
Proof. unfold backfill_event. by destruct (recorded_sync_states σ !! event). Qed.

(** The four event methods, at any depth that lets them finish. *)
Lemma event_methods_eq depth event σ :
  let absent := mk (current_sync_states σ) (delete event (recorded_sync_states σ)) in
  let empty := mk (current_sync_states σ) (<[event := ∅]> (recorded_sync_states σ)) in
  create_event_rec (4 + depth) event σ = (Return tt, empty) ∧
  delete_event_rec (4 + depth) event σ = (Return tt, absent) ∧
  _ensure_event_exists_rec (3 + depth) event σ = (Return tt, backfill_event event σ) ∧
  _ensure_event_does_not_exist_rec (3 + depth) event σ = (Return tt, absent).
Proof.
  intros absent empty. subst absent empty. unfold backfill_event. destruct σ as [cur rec].
  destruct (rec !! event) as [c|] eqn:Hc; simpl; run_sync;
    repeat (rewrite ?Hc, ?lookup_insert_eq, ?lookup_delete_eq; simpl).
  - by rewrite insert_delete_eq.
  - by rewrite delete_insert_eq, !delete_id.
Qed.

Lemma create_event_eq event σ :
  create_event event σ =
  (Return tt, mk (current_sync_states σ) (<[event := ∅]> (recorded_sync_states σ))).
Proof. apply (event_methods_eq 0). Qed.

Lemma delete_event_eq event σ :
  delete_event event σ =
  (Return tt, mk (current_sync_states σ) (delete event (recorded_sync_states σ))).
Proof. apply (event_methods_eq 0). Qed.

Lemma _ensure_event_exists_eq event σ :
  _ensure_event_exists event σ = (Return tt, backfill_event event σ).
Proof. apply (event_methods_eq 1). Qed.

Lemma _ensure_event_does_not_exist_eq event σ :
  _ensure_event_does_not_exist event σ =
  (Return tt, mk (current_sync_states σ) (delete event (recorded_sync_states σ))).
Proof. apply (event_methods_eq 1). Qed.

(** More interpreter stack than [call_depth] changes nothing. *)
Lemma event_depth_irrelevant depth event σ :
  (call_depth ≤ depth)%nat →
  create_event_rec depth event σ = create_event event σ ∧
  delete_event_rec depth event σ = delete_event event σ ∧
  _ensure_event_exists_rec depth event σ = _ensure_event_exists event σ ∧
  _ensure_event_does_not_exist_rec depth event σ =
    _ensure_event_does_not_exist event σ.
Proof.
  unfold call_depth. intros Hd.
  rewrite create_event_eq, delete_event_eq, _ensure_event_exists_eq,
    _ensure_event_does_not_exist_eq.
  destruct (event_methods_eq (depth - 4) event σ) as (H1 & H2 & _ & _).
  destruct (event_methods_eq (S (depth - 4)) event σ) as (_ & _ & H3 & H4).
  replace (4 + (depth - 4))%nat with depth in * by lia.
  replace (3 + S (depth - 4))%nat with depth in * by lia.
  done.
Qed.

Lemma backfill_stream_lookup_present stream u σ :
  is_Some (current_sync_states σ !! u) →
  current_sync_states (backfill_stream stream σ) !! u = current_sync_states σ !! u.
Proof.
  intros Hu. destruct (decide (u = stream)) as [->|Hne].
  - by rewrite backfill_stream_present.
  - by apply backfill_stream_lookup_ne.
Qed.

Lemma insert_backfill_stream stream c σ :
  <[stream := c]> (current_sync_states (backfill_stream stream σ)) =
  <[stream := c]> (current_sync_states σ).
Proof.
  unfold backfill_stream.
  destruct (current_sync_states σ !! stream); simpl; [done|].
  by rewrite insert_insert_eq.
Qed.

Lemma insert_backfill_event event c σ :
  <[event := c]> (recorded_sync_states (backfill_event event σ)) =
  <[event := c]> (recorded_sync_states σ).
Proof.
  unfold backfill_event.
  destruct (recorded_sync_states σ !! event); simpl; [done|].
  by rewrite insert_insert_eq.
Qed.

Lemma current_getitem_eq stream σ c :
  current_sync_states σ !! stream = Some c →
  current_getitem stream σ = (Return c, σ).
Proof. unfold current_getitem. by intros ->. Qed.

Lemma recorded_getitem_eq event σ c :
  recorded_sync_states σ !! event = Some c →
  recorded_getitem event σ = (Return c, σ).
Proof. unfold recorded_getitem. by intros ->. Qed.

Lemma backfill_stream_event_current stream event σ :
  current_sync_states (backfill_stream stream (backfill_event event σ)) =
  current_sync_states (backfill_stream stream σ).
Proof.
  unfold backfill_stream. rewrite backfill_event_current.
  destruct (current_sync_states σ !! stream); simpl;
    by rewrite ?backfill_event_current.
Qed.

Lemma update_seq_num_eq stream seq_num σ :
  update_seq_num stream seq_num σ =
  (Return tt,
   mk (<[stream := <[stream := seq_num]> (default ∅ (current_sync_states σ !! stream))]>
         (current_sync_states σ))
      (recorded_sync_states σ)).
Proof.
  unfold update_seq_num.
  erewrite bind_Return by apply _ensure_stream_exists_eq.
  erewrite bind_Return by apply current_getitem_eq, backfill_stream_lookup.
  unfold current_setitem, modify.
  by rewrite insert_backfill_stream, backfill_stream_recorded.
Qed.

Lemma record_state_eq event stream σ :
  record_state event stream σ =
  (Return tt,
   mk (current_sync_states (backfill_stream stream σ))
      (<[event := default ∅ (current_sync_states σ !! stream)]>
         (recorded_sync_states σ))).
Proof.
  unfold record_state.
  erewrite bind_Return by apply _ensure_event_exists_eq.
  erewrite bind_Return by apply _ensure_stream_exists_eq.
  erewrite bind_Return by apply current_getitem_eq, backfill_stream_lookup.
  unfold recorded_setitem, modify.
  rewrite backfill_stream_recorded, insert_backfill_event.
  by rewrite backfill_stream_event_current, backfill_event_current.
Qed.

Lemma absorb_lookup c snap t :
  absorb c snap !! t =
  match snap !! t with
  | Some n => Some (Z.max (default (-1) (c !! t)) n)
  | None => c !! t
  end.
Proof.
  unfold absorb. rewrite lookup_merge.
  destruct (c !! t), (snap !! t); done.
Qed.

Lemma absorb_insert c snap k n :
  snap !! k = None →
  absorb (<[k := Z.max (default (-1) (c !! k)) n]> c) snap = absorb c (<[k := n]> snap).
Proof.
  intros Hk. apply map_eq. intros t. rewrite !absorb_lookup.
  destruct (decide (t = k)) as [->|Hne].
  - by rewrite Hk, !lookup_insert_eq.
  - by rewrite !lookup_insert_ne.
Qed.

(** The loop of [state_wait_for_event], over any list of items with distinct
    keys. *)
Lemma wait_loop_eq stream (items : list (Z * Z)) :
  NoDup items.*1 →
  ∀ σ c, current_sync_states σ !! stream = Some c →
    for_each (wait_body stream) items σ =
    (Return tt,
     mk (<[stream := absorb c (list_to_map items)]> (current_sync_states σ))
        (recorded_sync_states σ)).
Proof.
  induction items as [|[k n] items IH]; intros Hnd σ c Hc; simpl.
  - unfold ret. f_equal. destruct σ as [cur rec]. simpl in *. f_equal.
    rewrite insert_id; [done|]. rewrite Hc. f_equal.
    apply map_eq. intros t. by rewrite absorb_lookup, lookup_empty.
  - apply NoDup_cons in Hnd as [Hk Hnd].
    unfold wait_body at 1.
    erewrite bind_Return; last first.
    { erewrite bind_Return by by apply current_getitem_eq.
      unfold current_setitem, modify. reflexivity. }
    simpl. erewrite IH; [|done|simpl; apply lookup_insert_eq].
    simpl. rewrite insert_insert_eq. f_equal. f_equal. f_equal.
    apply absorb_insert. by apply not_elem_of_list_to_map_1.
Qed.

(** The order in which the items of the snapshot are visited is irrelevant. *)
Lemma wait_loop_order_irrelevant stream (items items' : list (Z * Z)) σ c :
  current_sync_states σ !! stream = Some c →
  NoDup items.*1 → items ≡ₚ items' →
  for_each (wait_body stream) items σ = for_each (wait_body stream) items' σ.
Proof.
  intros Hc Hnd Hperm.
  assert (NoDup items'.*1) as Hnd' by by rewrite <-Hperm.
  rewrite (wait_loop_eq _ _ Hnd _ _ Hc), (wait_loop_eq _ _ Hnd' _ _ Hc).
  by rewrite (list_to_map_proper _ _ Hnd Hperm).
Qed.

Lemma state_wait_for_event_eq stream event σ :
  state_wait_for_event stream event σ =
  (Return tt,
   mk (<[stream := absorb (default ∅ (current_sync_states σ !! stream))
                     (default ∅ (recorded_sync_states σ !! event))]>
         (current_sync_states σ))
      (recorded_sync_states (backfill_event event σ))).
Proof.
  unfold state_wait_for_event.
  erewrite bind_Return by apply _ensure_event_exists_eq.
  erewrite bind_Return by apply _ensure_stream_exists_eq.
  erewrite bind_Return; last first.
  { apply recorded_getitem_eq. rewrite backfill_stream_recorded.
    apply backfill_event_lookup. }
  erewrite wait_loop_eq;
    [|apply NoDup_fst_map_to_list|apply backfill_stream_lookup].
  rewrite list_to_map_to_list, insert_backfill_stream, backfill_stream_recorded.
  by rewrite !backfill_event_current.
Qed.

Lemma is_ordered_after_eq current_stream seq_num other_stream σ :
  is_ordered_after current_stream seq_num other_stream σ =
  (Return (seq_num <=? clock_value σ current_stream other_stream),
   backfill_stream other_stream (backfill_stream current_stream σ)).
Proof.
  unfold is_ordered_after.
  erewrite bind_Return by apply _ensure_stream_exists_eq.
  erewrite bind_Return by apply _ensure_stream_exists_eq.
  erewrite bind_Return; last first.
  { apply current_getitem_eq.
    rewrite backfill_stream_lookup_present; [apply backfill_stream_lookup|].
    rewrite backfill_stream_lookup. by eexists. }
  unfold ret, clock_value, clock.
  by destruct (current_sync_states σ !! current_stream).
Qed.

(** Back-filling streams is invisible to [clock] and [snapshot]. *)
Lemma backfilled_refl σ : backfilled σ σ.
Proof. split; [done|]. intros u. by left. Qed.

Lemma backfilled_trans σ1 σ2 σ3 :
  backfilled σ1 σ2 → backfilled σ2 σ3 → backfilled σ1 σ3.
Proof.
  intros [Hr12 Hc12] [Hr23 Hc23]. split; [congruence|].
  intros u. destruct (Hc12 u) as [H12|[H1 H2]], (Hc23 u) as [H23|[H2' H3]].
  - left. congruence.
  - right. split; [congruence|done].
  - right. split; [done|congruence].
  - congruence.
Qed.

Lemma backfilled_backfill_stream stream σ : backfilled σ (backfill_stream stream σ).
Proof.
  split; [apply backfill_stream_recorded|]. intros u.
  destruct (decide (u = stream)) as [->|Hne].
  - rewrite backfill_stream_lookup.
    destruct (current_sync_states σ !! stream); [by left|by right].
  - left. by apply backfill_stream_lookup_ne.
Qed.

Lemma backfilled_clock σ σ' u t : backfilled σ σ' → clock σ' u t = clock σ u t.
Proof.
  intros [_ Hc]. unfold clock.
  destruct (Hc u) as [->|[-> ->]]; [done|]. simpl. apply lookup_empty.
Qed.

Lemma backfilled_snapshot σ σ' e t : backfilled σ σ' → snapshot σ' e t = snapshot σ e t.
Proof. intros [Hr _]. unfold snapshot. by rewrite Hr. Qed.

Lemma backfilled_clock_value σ σ' u t :
  backfilled σ σ' → clock_value σ' u t = clock_value σ u t.
Proof. intros H. unfold clock_value. by rewrite (backfilled_clock _ _ _ _ H). Qed.

Lemma backfilled_present σ σ' u :
  backfilled σ σ' → is_Some (current_sync_states σ !! u) →
  current_sync_states σ' !! u = current_sync_states σ !! u.
Proof. intros [_ Hc] [c Hu]. destruct (Hc u) as [?|[? _]]; congruence. Qed.

Lemma is_ordered_after_backfilled current_stream seq_num other_stream σ :
  backfilled σ (is_ordered_after current_stream seq_num other_stream σ).2.
Proof.
  rewrite is_ordered_after_eq. simpl.
  eapply backfilled_trans; apply backfilled_backfill_stream.
Qed.
End SyncFacts.

(** ** _TensorsAccessed: what each method returns and leaves behind *)

Module LogFacts.
Import _TensorsAccessed.

Lemma ensure_tensor_exists_eq data_ptr ta :
  ensure_tensor_exists data_ptr ta = (Return tt, backfill_tensor data_ptr ta).
Proof.
  unfold ensure_tensor_exists, backfill_tensor, contains, create_tensor,
    bind, gets, modify, ret.
  by destruct (accesses ta !! data_ptr).
Qed.

Lemma ensure_tensor_does_not_exist_eq data_ptr ta :
  ensure_tensor_does_not_exist data_ptr ta =
  (Return tt, mk (delete data_ptr (accesses ta))).
Proof.
  unfold ensure_tensor_does_not_exist, contains, delete_tensor, bind, gets, ret.
  destruct (accesses ta !! data_ptr) eqn:Hp; simpl; rewrite ?Hp; [done|].
  rewrite delete_id by done. by destruct ta.
Qed.

Lemma backfill_tensor_lookup data_ptr ta :
  accesses (backfill_tensor data_ptr ta) !! data_ptr =
  Some (default (TensorInfo.mk None [] None) (accesses ta !! data_ptr)).
Proof.
  unfold backfill_tensor.
  destruct (accesses ta !! data_ptr) eqn:Hp; simpl.
  - by rewrite Hp.
  - by rewrite lookup_insert_eq.
Qed.

Lemma backfill_tensor_lookup_ne data_ptr p ta :
  p ≠ data_ptr → accesses (backfill_tensor data_ptr ta) !! p = accesses ta !! p.
Proof.
  intros Hne. unfold backfill_tensor.
  destruct (accesses ta !! data_ptr); simpl; [done|]. by rewrite lookup_insert_ne.
Qed.

Lemma getitem_eq data_ptr ta info :
  accesses ta !! data_ptr = Some info → getitem data_ptr ta = (Return info, ta).
Proof. unfold getitem. by intros ->. Qed.

Lemma get_write_eq data_ptr ta info :
  accesses ta !! data_ptr = Some info →
  get_write data_ptr ta = (Return (TensorInfo.write info), ta).
Proof. intros H. unfold get_write. by erewrite bind_Return by by apply getitem_eq. Qed.

Lemma get_reads_eq data_ptr ta info :
  accesses ta !! data_ptr = Some info →
  get_reads data_ptr ta = (Return (TensorInfo.reads info), ta).
Proof. intros H. unfold get_reads. by erewrite bind_Return by by apply getitem_eq. Qed.

Lemma get_allocation_stack_trace_eq data_ptr ta info :
  accesses ta !! data_ptr = Some info →
  get_allocation_stack_trace data_ptr ta =
  (Return (TensorInfo.allocation_stack_trace info), ta).
Proof.
  intros H. unfold get_allocation_stack_trace.
  by erewrite bind_Return by by apply getitem_eq.
Qed.

Lemma were_there_reads_since_last_write_eq data_ptr ta info :
  accesses ta !! data_ptr = Some info →
  were_there_reads_since_last_write data_ptr ta =
  (Return (match TensorInfo.reads info with [] => false | _ :: _ => true end), ta).
Proof.
  intros H. unfold were_there_reads_since_last_write.
  by erewrite bind_Return by by apply getitem_eq.
Qed.

(** A getter leaves the log as it is, whether it returns or raises. *)
Lemma getter_state {A} (f : TensorInfo.t → A) data_ptr ta :
  (bind (getitem data_ptr) (λ info, ret (f info)) ta).2 = ta.
Proof. unfold bind, getitem, ret. by destruct (accesses ta !! data_ptr). Qed.

Lemma getter_result {A} (f : TensorInfo.t → A) data_ptr ta a :
  (bind (getitem data_ptr) (λ info, ret (f info)) ta).1 = Return a →
  ∃ info, accesses ta !! data_ptr = Some info ∧ a = f info.
Proof.
  unfold bind, getitem, ret.
  destruct (accesses ta !! data_ptr) as [info|]; simpl; [|done].
  intros [= <-]. by exists info.
Qed.

Lemma get_write_state data_ptr ta : (get_write data_ptr ta).2 = ta.
Proof. apply getter_state. Qed.

Lemma get_reads_state data_ptr ta : (get_reads data_ptr ta).2 = ta.
Proof. apply getter_state. Qed.

Lemma get_allocation_stack_trace_state data_ptr ta :
  (get_allocation_stack_trace data_ptr ta).2 = ta.
Proof. apply getter_state. Qed.

Lemma were_there_reads_since_last_write_state data_ptr ta :
  (were_there_reads_since_last_write data_ptr ta).2 = ta.
Proof. apply getter_state. Qed.

Lemma get_write_result data_ptr ta w :
  (get_write data_ptr ta).1 = Return w →
  ∃ info, accesses ta !! data_ptr = Some info ∧ w = TensorInfo.write info.
Proof. apply getter_result. Qed.

Lemma get_reads_result data_ptr ta l :
  (get_reads data_ptr ta).1 = Return l →
  ∃ info, accesses ta !! data_ptr = Some info ∧ l = TensorInfo.reads info.
Proof. apply getter_result. Qed.

(** [log_bounded] along the methods. *)
Lemma log_bounded_mono n n' ta : n ≤ n' → log_bounded n ta → log_bounded n' ta.
Proof.
  intros Hn Hb p info Hp. destruct (Hb p info Hp) as [Hr Hw]. split.
  - eapply Forall_impl; [exact Hr|]. simpl. intros a Ha. lia.
  - intros a Ha. specialize (Hw a Ha). lia.
Qed.

Lemma log_bounded_empty n : log_bounded n __init__.
Proof. intros p info Hp. simpl in Hp. by rewrite lookup_empty in Hp. Qed.

Lemma log_bounded_insert n data_ptr info ta :
  info_bounded n info → log_bounded n ta →
  log_bounded n (mk (<[data_ptr := info]> (accesses ta))).
Proof.
  intros Hi Hb p info' Hp. simpl in Hp.
  destruct (decide (p = data_ptr)) as [->|Hne].
  - rewrite lookup_insert_eq in Hp. by injection Hp as <-.
  - rewrite lookup_insert_ne in Hp by done. by eapply Hb.
Qed.

Lemma log_bounded_delete n data_ptr ta :
  log_bounded n ta → log_bounded n (mk (delete data_ptr (accesses ta))).
Proof.
  intros Hb p info' Hp. simpl in Hp.
  apply lookup_delete_Some in Hp as [_ Hp]. by eapply Hb.
Qed.

Lemma info_bounded_fresh n alloc : info_bounded n (TensorInfo.mk alloc [] None).
Proof. split; [constructor|done]. Qed.

Lemma log_bounded_backfill n data_ptr ta :
  log_bounded n ta → log_bounded n (backfill_tensor data_ptr ta).
Proof.
  intros Hb. unfold backfill_tensor. destruct (accesses ta !! data_ptr); [done|].
  apply log_bounded_insert; [apply info_bounded_fresh|done].
Qed.

Lemma log_bounded_create_tensor n data_ptr alloc ta :
  log_bounded n ta → log_bounded n (create_tensor data_ptr alloc ta).2.
Proof. intros Hb. apply log_bounded_insert; [apply info_bounded_fresh|done]. Qed.

Lemma log_bounded_delete_tensor n data_ptr ta :
  log_bounded n ta → log_bounded n (delete_tensor data_ptr ta).2.
Proof.
  intros Hb. unfold delete_tensor. destruct (accesses ta !! data_ptr); [|done].
  by apply log_bounded_delete.
Qed.

Lemma log_bounded_add_read n data_ptr a ta :
  Access.seq_num a ≤ n → log_bounded n ta → log_bounded n (add_read data_ptr a ta).2.
Proof.
  intros Ha Hb. unfold add_read.
  destruct (accesses ta !! data_ptr) as [info|] eqn:Hp; [|done]. simpl.
  destruct (Hb _ _ Hp) as [Hr Hw].
  apply log_bounded_insert; [|done]. split; simpl; [|done].
  apply Forall_app. split; [done|]. by constructor.
Qed.

Lemma log_bounded_set_write n data_ptr a ta :
  Access.seq_num a ≤ n → log_bounded n ta → log_bounded n (set_write data_ptr a ta).2.
Proof.
  intros Ha Hb. unfold set_write.
  destruct (accesses ta !! data_ptr) as [info|] eqn:Hp; [|done]. simpl.
  apply log_bounded_insert; [|done]. split; simpl; [constructor|].
  by intros a' [= <-].
Qed.
End LogFacts.

(** ** Weakest preconditions of the monad *)

Section wp_rules.
Context {S : Type}.

Lemma wp_ret {A} (a : A) (Q : Result A → S → Prop) s : Q (Return a) s → wp (ret a) Q s.
Proof. done. Qed.

Lemma wp_raise {A} e (Q : Result A → S → Prop) s : Q (Raise e) s → wp (raise e) Q s.
Proof. done. Qed.

Lemma wp_gets {A} (f : S → A) (Q : Result A → S → Prop) s :
  Q (Return (f s)) s → wp (gets f) Q s.
Proof. done. Qed.

Lemma wp_modify (f : S → S) (Q : Result unit → S → Prop) s :
  Q (Return tt) (f s) → wp (modify f) Q s.
Proof. done. Qed.

Lemma wp_bind {A B} (m : M S A) (k : A → M S B) (Q : Result B → S → Prop) s :
  wp m (λ r s', match r with
                | Return a => wp (k a) Q s'
                | Raise e => Q (Raise e) s'
                end) s →
  wp (bind m k) Q s.
Proof. unfold wp, bind. by destruct (m s) as [[a|e] s']. Qed.

Lemma wp_mono {A} (m : M S A) (Q Q' : Result A → S → Prop) s :
  wp m Q s → (∀ r s', Q r s' → Q' r s') → wp m Q' s.
Proof. unfold wp. intros H HQ. by apply HQ. Qed.

Lemma wp_dict_getitem {V} (d : gmap Z V) k (Q : Result V → S → Prop) s :
  (∀ v, d !! k = Some v → Q (Return v) s) →
  (d !! k = None → Q (Raise (KeyError k)) s) →
  wp (dict_getitem d k) Q s.
Proof.
  intros HS HN. unfold dict_getitem. destruct (d !! k) as [v|].
  - by apply wp_ret, HS.
  - by apply wp_raise, HN.
Qed.

(** A loop with a local accumulator keeps an invariant [I] of the state and
    [J] of the accumulator; if it raises, [I] still holds. *)
Lemma wp_for_each_acc {A B} (I : S → Prop) (J : B → Prop)
    (body : A → B → M S B) (l : list A) :
  (∀ x acc s, x ∈ l → J acc → I s →
     wp (body x acc)
        (λ r s', I s' ∧ match r with Return acc' => J acc' | Raise _ => True end) s) →
  ∀ acc s, J acc → I s →
    wp (for_each_acc body l acc)
       (λ r s', I s' ∧ match r with Return acc' => J acc' | Raise _ => True end) s.
Proof.
  induction l as [|x l IH]; intros Hbody acc s HJ HI; simpl.
  - by apply wp_ret.
  - apply wp_bind. eapply wp_mono; [apply Hbody; [by left|done..]|].
    intros [acc'|e] s' [HI' HJ']; [|done].
    apply IH; [|done..]. intros y acc0 s0 Hy. apply Hbody. by right.
Qed.
End wp_rules.

Lemma wp_on_tensors_accessed {A} (m : M _TensorsAccessed.t A)
    (Q : Result A → EventHandler.t → Prop) h :
  Q (m (EventHandler.tensors_accessed h)).1
    (EventHandler.mk (m (EventHandler.tensors_accessed h)).2
       (EventHandler.syncs h) (EventHandler.seq_num h)) →
  wp (EventHandler.on_tensors_accessed m) Q h.
Proof.
  unfold wp, EventHandler.on_tensors_accessed, zoom.
  by destruct (m (EventHandler.tensors_accessed h)).
Qed.

Lemma wp_on_syncs {A} (m : M StreamSynchronizations.t A)
    (Q : Result A → EventHandler.t → Prop) h :
  Q (m (EventHandler.syncs h)).1
    (EventHandler.mk (EventHandler.tensors_accessed h)
       (m (EventHandler.syncs h)).2 (EventHandler.seq_num h)) →
  wp (EventHandler.on_syncs m) Q h.
Proof.
  unfold wp, EventHandler.on_syncs, zoom. by destruct (m (EventHandler.syncs h)).
Qed.

(** ** One kernel launch *)

Section launch.
Import EventHandler.
Variables (bounded : Prop) (σ0 : StreamSynchronizations.t) (n stream : Z).
Hypothesis Hself : clock σ0 stream stream = Some n.
Variables (operator : string) (tensor_names : gmap Z (list string))
  (stack_trace : StackSummary).

Lemma check_conflict_inv data_ptr current_access previous_access error_list h :
  Access.stream current_access = stream →
  (∀ p, previous_access = Some p → bounded → Access.seq_num p ≤ n) →
  (bounded → no_same_stream error_list) → launch_inv bounded σ0 n h →
  wp (check_conflict data_ptr current_access previous_access error_list)
     (launch_post bounded σ0 n) h.
Proof.
  intros Hcur Hprev HJ (Hn & Hσ & Hlog). unfold check_conflict.
  destruct previous_access as [p|]; [|by apply wp_ret].
  specialize (Hprev p eq_refl).
  apply wp_bind, wp_on_syncs. rewrite SyncFacts.is_ordered_after_eq. simpl.
  set (σ1 := backfill_stream _ _).
  assert (backfilled σ0 σ1) as Hσ1.
  { eapply SyncFacts.backfilled_trans; [exact Hσ|].
    eapply SyncFacts.backfilled_trans; apply SyncFacts.backfilled_backfill_stream. }
  destruct (Access.seq_num p <=? _) eqn:Hle; simpl.
  - by apply wp_ret.
  - apply wp_bind, wp_on_tensors_accessed.
    rewrite LogFacts.get_allocation_stack_trace_state.
    destruct (_TensorsAccessed.get_allocation_stack_trace _ _).1 as [alloc|e];
      [|done].
    apply wp_ret. split; [done|]. intros Hb.
    apply Forall_app. split; [by apply HJ|]. constructor; [|constructor]. simpl.
    intros Heq. apply Z.leb_gt in Hle.
    rewrite Heq, Hcur in Hle.
    rewrite (SyncFacts.backfilled_clock_value _ _ _ _ Hσ) in Hle.
    unfold clock_value in Hle. rewrite Hself in Hle. simpl in Hle.
    specialize (Hprev Hb). lia.
Qed.

Lemma read_only_body_inv data_ptr error_list h :
  (bounded → no_same_stream error_list) → launch_inv bounded σ0 n h →
  wp (read_only_body stream operator tensor_names stack_trace data_ptr error_list)
     (launch_post bounded σ0 n) h.
Proof.
  intros HJ (Hn & Hσ & Hlog). unfold read_only_body.
  apply wp_bind, wp_on_tensors_accessed. rewrite LogFacts.ensure_tensor_exists_eq. simpl.
  apply wp_bind, wp_gets. simpl.
  set (h1 := mk (backfill_tensor data_ptr (tensors_accessed h)) (syncs h) (seq_num h)).
  assert (launch_inv bounded σ0 n h1) as Hinv.
  { split_and!; simpl; [done..|]. intros Hb. by apply LogFacts.log_bounded_backfill, Hlog. }
  apply wp_bind, wp_dict_getitem; [intros names _|done].
  apply wp_bind, wp_on_tensors_accessed. simpl.
  rewrite LogFacts.get_write_state.
  destruct (_TensorsAccessed.get_write _ _).1 as [previous_access|e] eqn:Hw; [|done].
  fold h1.
  apply wp_bind. eapply wp_mono.
  { apply check_conflict_inv; [done| |done..].
    intros p -> Hb. apply LogFacts.get_write_result in Hw as (info & Hinfo & Hp).
    destruct Hinv as (_ & _ & Hlog'). destruct (Hlog' Hb _ _ Hinfo) as [_ Hbw].
    by apply Hbw. }
  intros [error_list'|e] h' [(Hn' & Hσ' & Hlog') HJ']; [|done].
  apply wp_bind, wp_on_tensors_accessed.
  assert (launch_inv bounded σ0 n
            (mk (_TensorsAccessed.add_read data_ptr
                   (Access.mk READ (seq_num h) stream operator names stack_trace)
                   (tensors_accessed h')).2 (syncs h') (seq_num h'))) as Hinv'.
  { split_and!; simpl; [done..|]. intros Hb.
    apply LogFacts.log_bounded_add_read; [simpl; lia|by apply Hlog']. }
  destruct (_TensorsAccessed.add_read _ _ _).1; [|done].
  by apply wp_ret.
Qed.

Lemma read_write_body_inv data_ptr error_list h :
  (bounded → no_same_stream error_list) → launch_inv bounded σ0 n h →
  wp (read_write_body stream operator tensor_names stack_trace data_ptr error_list)
     (launch_post bounded σ0 n) h.
Proof.
  intros HJ (Hn & Hσ & Hlog). unfold read_write_body.
  apply wp_bind, wp_on_tensors_accessed. rewrite LogFacts.ensure_tensor_exists_eq. simpl.
  apply wp_bind, wp_gets. simpl.
  set (h1 := mk (backfill_tensor data_ptr (tensors_accessed h)) (syncs h) (seq_num h)).
  assert (launch_inv bounded σ0 n h1) as Hinv.
  { split_and!; simpl; [done..|]. intros Hb. by apply LogFacts.log_bounded_backfill, Hlog. }
  apply wp_bind, wp_dict_getitem; [intros names _|done].
  set (current_access := Access.mk WRITE (seq_num h) stream operator names stack_trace).
  apply wp_bind, wp_on_tensors_accessed. simpl.
  rewrite LogFacts.were_there_reads_since_last_write_state.
  destruct (_TensorsAccessed.were_there_reads_since_last_write _ _).1
    as [were_reads|e]; [|done].
  fold h1.
  apply wp_bind.
  apply (wp_mono _ (launch_post bounded σ0 n)).
  { destruct were_reads.
    - apply wp_bind, wp_on_tensors_accessed. simpl.
      rewrite LogFacts.get_reads_state.
      destruct (_TensorsAccessed.get_reads _ _).1 as [reads|e] eqn:Hr; [|done].
      fold h1.
      apply LogFacts.get_reads_result in Hr as (info & Hinfo & ->).
      destruct Hinv as (? & ? & Hlog1).
      apply (wp_for_each_acc (launch_inv bounded σ0 n)
               (λ errs, bounded → no_same_stream errs)); [|done..].
      intros p acc s Hp Hacc Hs.
      apply check_conflict_inv; [done| |done..].
      intros ? [= <-] Hb. destruct (Hlog1 Hb _ _ Hinfo) as [Hbr _].
      rewrite Forall_forall in Hbr. by apply Hbr.
    - apply wp_bind, wp_on_tensors_accessed. simpl.
      rewrite LogFacts.get_write_state.
      destruct (_TensorsAccessed.get_write _ _).1 as [previous_access|e] eqn:Hw;
        [|done].
      fold h1.
      apply check_conflict_inv; [done| |done..].
      intros p -> Hb. apply LogFacts.get_write_result in Hw as (info & Hinfo & Hp).
      destruct Hinv as (_ & _ & Hlog'). destruct (Hlog' Hb _ _ Hinfo) as [_ Hbw].
      by apply Hbw. }
  intros [error_list'|e] h' [(Hn' & Hσ' & Hlog') HJ']; [|done].
  apply wp_bind, wp_on_tensors_accessed.
  assert (launch_inv bounded σ0 n
            (mk (_TensorsAccessed.set_write data_ptr current_access
                   (tensors_accessed h')).2 (syncs h') (seq_num h'))) as Hinv'.
  { split_and!; simpl; [done..|]. intros Hb.
    apply LogFacts.log_bounded_set_write; [simpl; lia|by apply Hlog']. }
  destruct (_TensorsAccessed.set_write _ _ _).1; [|done].
  by apply wp_ret.
Qed.
End launch.

(** The whole launch: the sequence number is bumped, the sync table is the one
    [update_seq_num] left up to back-filled streams, and, from a bounded log,
    the log stays bounded and no error cites two accesses of one stream. *)
Lemma _handle_kernel_launch_inv (bounded : Prop) stream read_only read_write operator
    tensor_names stack_trace h :
  (bounded → log_bounded (EventHandler.seq_num h) (EventHandler.tensors_accessed h)) →
  wp (EventHandler._handle_kernel_launch stream read_only read_write operator
        tensor_names stack_trace)
     (launch_post bounded
        (StreamSynchronizations.update_seq_num stream (EventHandler.seq_num h + 1)
           (EventHandler.syncs h)).2
        (EventHandler.seq_num h + 1)) h.
Proof.
  intros Hlog. unfold EventHandler._handle_kernel_launch.
  apply wp_bind, wp_modify. apply wp_bind, wp_gets. simpl.
  apply wp_bind, wp_on_syncs. simpl.
  set (σ0 := (StreamSynchronizations.update_seq_num _ _ _).2).
  set (n := EventHandler.seq_num h + 1).
  assert (clock σ0 stream stream = Some n) as Hself.
  { subst σ0. rewrite SyncFacts.update_seq_num_eq. unfold clock. simpl.
    rewrite lookup_insert_eq. simpl. apply lookup_insert_eq. }
  assert ((StreamSynchronizations.update_seq_num stream n (EventHandler.syncs h)).1
          = Return tt) as -> by by rewrite SyncFacts.update_seq_num_eq.
  set (h1 := EventHandler.mk _ _ _).
  assert (launch_inv bounded σ0 n h1) as Hinv.
  { split_and!; [done|apply SyncFacts.backfilled_refl|]. simpl. intros Hb.
    eapply LogFacts.log_bounded_mono; [|by apply Hlog]. lia. }
  apply wp_bind.
  eapply wp_mono.
  { apply (wp_for_each_acc (launch_inv bounded σ0 n)
             (λ errs, bounded → no_same_stream errs)); [|by constructor|done].
    intros p acc s _ Hacc Hs. by apply read_only_body_inv. }
  intros [error_list|e] h2 [Hinv2 HJ2]; [|done].
  apply wp_bind.
  eapply wp_mono.
  { apply (wp_for_each_acc (launch_inv bounded σ0 n)
             (λ errs, bounded → no_same_stream errs)); [|done..].
    intros p acc s _ Hacc Hs. by apply read_write_body_inv. }
  intros [error_list'|e] h3 [Hinv3 HJ3]; [|done].
  by apply wp_ret.
Qed.

(** ** The clocks and snapshots after each method of the sync table *)

Module ClockFacts.
Import StreamSynchronizations.

Lemma clock_default σ u t :
  default ∅ (current_sync_states σ !! u) !! t = clock σ u t.
Proof. unfold clock. destruct (current_sync_states σ !! u); [done|apply lookup_empty]. Qed.

Lemma snapshot_default σ e t :
  default ∅ (recorded_sync_states σ !! e) !! t = snapshot σ e t.
Proof.
  unfold snapshot. destruct (recorded_sync_states σ !! e); [done|apply lookup_empty].
Qed.

Lemma snapshot_backfill_event event σ e t :
  snapshot (backfill_event event σ) e t = snapshot σ e t.
Proof.
  unfold snapshot. destruct (decide (e = event)) as [->|Hne].
  - rewrite SyncFacts.backfill_event_lookup.
    destruct (recorded_sync_states σ !! event); [done|apply lookup_empty].
  - by rewrite SyncFacts.backfill_event_lookup_ne.
Qed.

Lemma clock_update_seq_num stream seq_num σ u t :
  clock (update_seq_num stream seq_num σ).2 u t =
  if bool_decide (u = stream ∧ t = stream) then Some seq_num else clock σ u t.
Proof.
  rewrite SyncFacts.update_seq_num_eq. unfold clock at 1. simpl.
  destruct (decide (u = stream)) as [->|Hu].
  - rewrite lookup_insert_eq. simpl.
    destruct (decide (t = stream)) as [->|Ht].
    + rewrite lookup_insert_eq. by rewrite bool_decide_eq_true_2.
    + rewrite lookup_insert_ne by done. rewrite clock_default.
      rewrite bool_decide_eq_false_2; [done|]. by intros [_ ?].
  - rewrite lookup_insert_ne by done.
    rewrite bool_decide_eq_false_2; [done|]. by intros [? _].
Qed.

Lemma snapshot_update_seq_num stream seq_num σ e t :
  snapshot (update_seq_num stream seq_num σ).2 e t = snapshot σ e t.
Proof. by rewrite SyncFacts.update_seq_num_eq. Qed.

Lemma clock_create_stream stream σ u t : clock (create_stream stream σ).2 u t = clock σ u t.
Proof.
  rewrite SyncFacts.create_stream_eq.
  apply SyncFacts.backfilled_clock, SyncFacts.backfilled_backfill_stream.
Qed.

Lemma snapshot_create_stream stream σ e t :
  snapshot (create_stream stream σ).2 e t = snapshot σ e t.
Proof.
  rewrite SyncFacts.create_stream_eq.
  apply SyncFacts.backfilled_snapshot, SyncFacts.backfilled_backfill_stream.
Qed.

Lemma clock_create_event event σ u t : clock (create_event event σ).2 u t = clock σ u t.
Proof. by rewrite SyncFacts.create_event_eq. Qed.

Lemma snapshot_create_event event σ e t :
  snapshot (create_event event σ).2 e t =
  if bool_decide (e = event) then None else snapshot σ e t.
Proof.
  rewrite SyncFacts.create_event_eq. unfold snapshot. simpl. case_bool_decide as He.
  - subst e. rewrite lookup_insert_eq. simpl. apply lookup_empty.
  - by rewrite lookup_insert_ne.
Qed.

Lemma clock_delete_event event σ u t : clock (delete_event event σ).2 u t = clock σ u t.
Proof. by rewrite SyncFacts.delete_event_eq. Qed.

Lemma snapshot_delete_event event σ e t :
  snapshot (delete_event event σ).2 e t =
  if bool_decide (e = event) then None else snapshot σ e t.
Proof.
  rewrite SyncFacts.delete_event_eq. unfold snapshot. simpl. case_bool_decide as He.
  - subst e. by rewrite lookup_delete_eq.
  - by rewrite lookup_delete_ne.
Qed.

Lemma clock_record_state event stream σ u t :
  clock (record_state event stream σ).2 u t = clock σ u t.
Proof.
  rewrite SyncFacts.record_state_eq. unfold clock at 1. simpl.
  apply (SyncFacts.backfilled_clock σ (backfill_stream stream σ)),
    SyncFacts.backfilled_backfill_stream.
Qed.

Lemma snapshot_record_state event stream σ e t :
  snapshot (record_state event stream σ).2 e t =
  if bool_decide (e = event) then clock σ stream t else snapshot σ e t.
Proof.
  rewrite SyncFacts.record_state_eq. unfold snapshot at 1. simpl. case_bool_decide as He.
  - subst e. rewrite lookup_insert_eq. simpl. apply clock_default.
  - by rewrite lookup_insert_ne.
Qed.

Lemma clock_state_wait_for_event stream event σ u t :
  clock (state_wait_for_event stream event σ).2 u t =
  if bool_decide (u = stream) then
    match snapshot σ event t with
    | Some m => Some (Z.max (clock_value σ stream t) m)
    | None => clock σ stream t
    end
  else clock σ u t.
Proof.
  rewrite SyncFacts.state_wait_for_event_eq. unfold clock at 1. simpl.
  case_bool_decide as Hu.
  - subst u. rewrite lookup_insert_eq. simpl.
    rewrite SyncFacts.absorb_lookup, snapshot_default, clock_default. done.
  - by rewrite lookup_insert_ne.
Qed.

Lemma snapshot_state_wait_for_event stream event σ e t :
  snapshot (state_wait_for_event stream event σ).2 e t = snapshot σ e t.
Proof.
  rewrite SyncFacts.state_wait_for_event_eq. unfold snapshot at 1. simpl.
  apply snapshot_backfill_event.
Qed.

(** [sync_inv] sees the table through [clock] and [snapshot] only. *)
Lemma sync_inv_ext last n σ σ' :
  (∀ u t, clock σ' u t = clock σ u t) →
  (∀ e t, snapshot σ' e t = snapshot σ e t) →
  sync_inv last n σ → sync_inv last n σ'.
Proof.
  intros Hc Hs [H1 H2 H3 H4 H5 H6]. split.
  - intros u t k. rewrite !Hc. apply H1.
  - intros e t k. rewrite Hs, Hc. apply H2.
  - intros s. rewrite Hc. apply H3.
  - done.
  - intros u t k. rewrite Hc. apply H5.
  - intros e t k. rewrite Hs. apply H6.
Qed.

Lemma sync_inv_init : sync_inv (λ _, None) 0 __init__.
Proof.
  split; try done; intros ? ? ?; unfold clock, snapshot; simpl;
    by rewrite lookup_empty.
Qed.

Lemma sync_inv_backfilled last n σ σ' :
  backfilled σ σ' → sync_inv last n σ → sync_inv last n σ'.
Proof.
  intros Hb. apply sync_inv_ext; intros.
  - by apply SyncFacts.backfilled_clock.
  - by apply SyncFacts.backfilled_snapshot.
Qed.

Lemma sync_inv_create_stream last n stream σ :
  sync_inv last n σ → sync_inv last n (create_stream stream σ).2.
Proof.
  apply sync_inv_ext; intros; [apply clock_create_stream|apply snapshot_create_stream].
Qed.

Lemma sync_inv_create_event last n event σ :
  sync_inv last n σ → sync_inv last n (create_event event σ).2.
Proof.
  intros [H1 H2 H3 H4 H5 H6]. split; [| | |done| |].
  - intros u t k. rewrite !clock_create_event. apply H1.
  - intros e t k. rewrite snapshot_create_event, clock_create_event.
    case_bool_decide; [done|apply H2].
  - intros s. rewrite clock_create_event. apply H3.
  - intros u t k. rewrite clock_create_event. apply H5.
  - intros e t k. rewrite snapshot_create_event.
    case_bool_decide; [done|apply H6].
Qed.

Lemma sync_inv_delete_event last n event σ :
  sync_inv last n σ → sync_inv last n (delete_event event σ).2.
Proof.
  intros [H1 H2 H3 H4 H5 H6]. split; [| | |done| |].
  - intros u t k. rewrite !clock_delete_event. apply H1.
  - intros e t k. rewrite snapshot_delete_event, clock_delete_event.
    case_bool_decide; [done|apply H2].
  - intros s. rewrite clock_delete_event. apply H3.
  - intros u t k. rewrite clock_delete_event. apply H5.
  - intros e t k. rewrite snapshot_delete_event.
    case_bool_decide; [done|apply H6].
Qed.

Lemma sync_inv_record_state last n event stream σ :
  sync_inv last n σ → sync_inv last n (record_state event stream σ).2.
Proof.
  intros [H1 H2 H3 H4 H5 H6]. split; [| | |done| |].
  - intros u t k. rewrite !clock_record_state. apply H1.
  - intros e t k. rewrite snapshot_record_state, clock_record_state.
    case_bool_decide; [apply H1|apply H2].
  - intros s. rewrite clock_record_state. apply H3.
  - intros u t k. rewrite clock_record_state. apply H5.
  - intros e t k. rewrite snapshot_record_state.
    case_bool_decide; [apply H5|apply H6].
Qed.

(** A wait never moves the own coordinate of a stream. *)
Lemma clock_self_state_wait_for_event last n stream event σ t :
  sync_inv last n σ →
  clock (state_wait_for_event stream event σ).2 t t = clock σ t t.
Proof.
  intros [H1 H2 H3 H4 H5 H6]. rewrite clock_state_wait_for_event.
  case_bool_decide as Ht; [|done]. subst t.
  destruct (snapshot σ event stream) as [m|] eqn:Hm; [|done].
  destruct (H2 _ _ _ Hm) as (k' & Hk' & Hle).
  unfold clock_value. rewrite Hk'. simpl. f_equal. lia.
Qed.

Lemma sync_inv_state_wait_for_event last n stream event σ :
  sync_inv last n σ → sync_inv last n (state_wait_for_event stream event σ).2.
Proof.
  intros Hinv. pose proof Hinv as [H1 H2 H3 H4 H5 H6]. split; [| | |done| |].
  - intros u t k. rewrite (clock_self_state_wait_for_event _ _ _ _ _ _ Hinv).
    rewrite clock_state_wait_for_event. case_bool_decide as Hu; [|apply H1].
    destruct (snapshot σ event t) as [m|] eqn:Hm; [|apply H1].
    intros [= <-]. destruct (H2 _ _ _ Hm) as (k' & Hk' & Hle).
    exists k'. split; [done|].
    unfold clock_value. destruct (clock σ stream t) as [j|] eqn:Hj; simpl.
    + destruct (H1 _ _ _ Hj) as (k'' & Hk'' & Hle'). simplify_eq. lia.
    + apply H6 in Hm. lia.
  - intros e t k. rewrite snapshot_state_wait_for_event.
    rewrite (clock_self_state_wait_for_event _ _ _ _ _ _ Hinv). apply H2.
  - intros s. rewrite (clock_self_state_wait_for_event _ _ _ _ _ _ Hinv). apply H3.
  - intros u t k. rewrite clock_state_wait_for_event.
    case_bool_decide as Hu; [|apply H5].
    destruct (snapshot σ event t) as [m|] eqn:Hm; [|apply H5].
    intros [= <-]. apply H6 in Hm. lia.
  - intros e t k. rewrite snapshot_state_wait_for_event. apply H6.
Qed.

Lemma sync_inv_update_seq_num last n stream σ :
  0 ≤ n → sync_inv last n σ →
  sync_inv (λ s, if bool_decide (stream = s) then Some (n + 1) else last s) (n + 1)
    (update_seq_num stream (n + 1) σ).2.
Proof.
  intros Hn [H1 H2 H3 H4 H5 H6].
  assert (∀ t, clock (update_seq_num stream (n + 1) σ).2 t t =
               if bool_decide (stream = t) then Some (n + 1) else clock σ t t) as Hself.
  { intros t. rewrite clock_update_seq_num.
    destruct (decide (stream = t)) as [<-|Hne].
    - by rewrite !bool_decide_eq_true_2 by done.
    - rewrite (bool_decide_eq_false_2 (t = stream ∧ t = stream))
        by (intros [? _]; by apply Hne).
      by rewrite bool_decide_eq_false_2 by done. }
  assert (∀ t k, clock σ t t = Some k → k ≤ n) as Hle.
  { intros t k. rewrite H3. intros Hk. apply H4 in Hk. lia. }
  split.
  - intros u t k. rewrite Hself, clock_update_seq_num.
    case_bool_decide as Hut.
    + destruct Hut as [-> ->]. intros [= <-].
      rewrite bool_decide_eq_true_2 by done. by exists (n + 1).
    + intros Hk. destruct (H1 _ _ _ Hk) as (k' & Hk' & Hkk').
      case_bool_decide.
      * exists (n + 1). split; [done|]. apply Hle in Hk'. lia.
      * by exists k'.
  - intros e t k. rewrite Hself, snapshot_update_seq_num. intros Hk.
    destruct (H2 _ _ _ Hk) as (k' & Hk' & Hkk').
    case_bool_decide.
    + exists (n + 1). split; [done|]. apply Hle in Hk'. lia.
    + by exists k'.
  - intros s. rewrite Hself. case_bool_decide; [done|apply H3].
  - intros s k. case_bool_decide.
    + intros [= <-]. lia.
    + intros Hk. apply H4 in Hk. lia.
  - intros u t k. rewrite clock_update_seq_num. case_bool_decide.
    + intros [= <-]. lia.
    + apply H5.
  - intros e t k. rewrite snapshot_update_seq_num. apply H6.
Qed.
End ClockFacts.

(** ** Invariants of a handler along a trace *)

Section trace.
Import EventHandler.

Lemma on_syncs_eq {A} (m : M StreamSynchronizations.t A) h :
  on_syncs m h = ((m (syncs h)).1, mk (tensors_accessed h) (m (syncs h)).2 (seq_num h)).
Proof. unfold on_syncs, zoom. by destruct (m (syncs h)). Qed.

Lemma on_tensors_accessed_eq {A} (m : M _TensorsAccessed.t A) h :
  on_tensors_accessed m h =
  ((m (tensors_accessed h)).1, mk (m (tensors_accessed h)).2 (syncs h) (seq_num h)).
Proof. unfold on_tensors_accessed, zoom. by destruct (m (tensors_accessed h)). Qed.

Lemma returning_None_state {S} (m : M S unit) s : (returning_None m s).2 = (m s).2.
Proof. unfold returning_None, bind, ret. by destruct (m s) as [[[]|e] s']. Qed.

Lemma returning_None_result {S} (m : M S unit) s error_list :
  (returning_None m s).1 ≠ Return (Some error_list).
Proof. unfold returning_None, bind, ret. by destruct (m s) as [[[]|e] s']. Qed.

Lemma seq_num_from_le n evs : n ≤ seq_num_from n evs.
Proof.
  revert n. induction evs as [|ev evs IH]; intros n; simpl; [lia|].
  destruct ev; try apply IH. specialize (IH (n + 1)). lia.
Qed.

Lemma _handle_memory_allocation_state data_ptr stack_trace h :
  (_handle_memory_allocation data_ptr stack_trace h).2 =
  mk (_TensorsAccessed.mk
        (<[data_ptr := TensorInfo.mk (Some stack_trace) [] None]>
           (delete data_ptr (_TensorsAccessed.accesses (tensors_accessed h)))))
     (syncs h) (seq_num h).
Proof.
  unfold _handle_memory_allocation.
  erewrite bind_Return; last first.
  { rewrite on_tensors_accessed_eq,
      LogFacts.ensure_tensor_does_not_exist_eq. reflexivity. }
  by rewrite on_tensors_accessed_eq.
Qed.

Lemma _handle_memory_deallocation_state data_ptr h :
  (_handle_memory_deallocation data_ptr h).2 =
  mk (_TensorsAccessed.delete_tensor data_ptr
        (backfill_tensor data_ptr (tensors_accessed h))).2
     (syncs h) (seq_num h).
Proof.
  unfold _handle_memory_deallocation.
  erewrite bind_Return; last first.
  { rewrite on_tensors_accessed_eq, LogFacts.ensure_tensor_exists_eq. reflexivity. }
  by rewrite on_tensors_accessed_eq.
Qed.

(** One handler call keeps the invariant, bumps the counter on a launch only,
    and a launch returns no error that cites two accesses of one stream. *)
Lemma handle_inv ev h last :
  0 ≤ seq_num h → handler_inv last h →
  seq_num (handle ev h).2 = seq_num_from (seq_num h) [ev] ∧
  handler_inv (λ s, last_launch_from (seq_num h) (last s) s [ev]) (handle ev h).2 ∧
  ∀ error_list, (handle ev h).1 = Return (Some error_list) → no_same_stream error_list.
Proof.
  intros Hn [Hlog Hsync].
  destruct ev as [stream read_only read_write operator tensor_names stack_trace
                 |event|event|event stream|event stream|data_ptr stack_trace|data_ptr
                 |stream]; simpl;
    try (rewrite returning_None_state;
         split_and!; [|split|intros ? H; by apply returning_None_result in H]).
  - pose proof (_handle_kernel_launch_inv True stream read_only read_write operator
                  tensor_names stack_trace h (λ _, Hlog)) as Hwp.
    unfold wp in Hwp. unfold bind at 1 2 3.
    destruct (_handle_kernel_launch _ _ _ _ _ _ h) as [[error_list|e] h'];
      simpl in *; destruct Hwp as [(Hn' & Hσ & Hlog') HJ].
    + split_and!; [done|split|].
      * rewrite Hn'. by apply Hlog'.
      * rewrite Hn'. eapply ClockFacts.sync_inv_backfilled; [exact Hσ|].
        by apply ClockFacts.sync_inv_update_seq_num.
      * intros ? [= <-]. by apply HJ.
    + split_and!; [done|split|done].
      * rewrite Hn'. by apply Hlog'.
      * rewrite Hn'. eapply ClockFacts.sync_inv_backfilled; [exact Hσ|].
        by apply ClockFacts.sync_inv_update_seq_num.
  - unfold _handle_event_creation. by rewrite on_syncs_eq.
  - unfold _handle_event_creation. by rewrite on_syncs_eq.
  - unfold _handle_event_creation. rewrite on_syncs_eq. simpl.
    by apply ClockFacts.sync_inv_create_event.
  - unfold _handle_event_deletion. by rewrite on_syncs_eq.
  - unfold _handle_event_deletion. by rewrite on_syncs_eq.
  - unfold _handle_event_deletion. rewrite on_syncs_eq. simpl.
    by apply ClockFacts.sync_inv_delete_event.
  - unfold _handle_event_record. by rewrite on_syncs_eq.
  - unfold _handle_event_record. by rewrite on_syncs_eq.
  - unfold _handle_event_record. rewrite on_syncs_eq. simpl.
    by apply ClockFacts.sync_inv_record_state.
  - unfold _handle_event_wait. by rewrite on_syncs_eq.
  - unfold _handle_event_wait. by rewrite on_syncs_eq.
  - unfold _handle_event_wait. rewrite on_syncs_eq. simpl.
    by apply ClockFacts.sync_inv_state_wait_for_event.
  - by rewrite _handle_memory_allocation_state.
  - rewrite _handle_memory_allocation_state. simpl.
    exact (LogFacts.log_bounded_insert _ data_ptr _
             (_TensorsAccessed.mk
                (delete data_ptr (_TensorsAccessed.accesses (tensors_accessed h))))
             (LogFacts.info_bounded_fresh _ _)
             (LogFacts.log_bounded_delete _ _ _ Hlog)).
  - by rewrite _handle_memory_allocation_state.
  - by rewrite _handle_memory_deallocation_state.
  - rewrite _handle_memory_deallocation_state. simpl.
    by apply LogFacts.log_bounded_delete_tensor, LogFacts.log_bounded_backfill.
  - by rewrite _handle_memory_deallocation_state.
  - unfold _handle_stream_creation. by rewrite on_syncs_eq.
  - unfold _handle_stream_creation. by rewrite on_syncs_eq.
  - unfold _handle_stream_creation. rewrite on_syncs_eq. simpl.
    by apply ClockFacts.sync_inv_create_stream.
Qed.

Lemma last_launch_from_cons n last s ev evs :
  last_launch_from n last s (ev :: evs) =
  last_launch_from (seq_num_from n [ev]) (last_launch_from n last s [ev]) s evs.
Proof. by destruct ev. Qed.

Lemma seq_num_from_cons n ev evs :
  seq_num_from n (ev :: evs) = seq_num_from (seq_num_from n [ev]) evs.
Proof. by destruct ev. Qed.

Lemma replay_cons ev evs h :
  replay (ev :: evs) h =
  ((handle ev h).1 :: (replay evs (handle ev h).2).1, (replay evs (handle ev h).2).2).
Proof.
  simpl. destruct (handle ev h) as [out h']. simpl. by destruct (replay evs h').
Qed.

Lemma handler_inv_ext last last' h :
  (∀ s, last s = last' s) → handler_inv last' h → handler_inv last h.
Proof.
  intros Heq [Hlog [H1 H2 H3 H4 H5 H6]]. split; [done|]. split; [done|done| | |done|done].
  - intros s. by rewrite Heq.
  - intros s k. rewrite Heq. apply H4.
Qed.

Lemma replay_inv evs : ∀ h last,
  0 ≤ seq_num h → handler_inv last h →
  seq_num (replay evs h).2 = seq_num_from (seq_num h) evs ∧
  handler_inv (λ s, last_launch_from (seq_num h) (last s) s evs) (replay evs h).2 ∧
  ∀ error_list, Return (Some error_list) ∈ (replay evs h).1 → no_same_stream error_list.
Proof.
  induction evs as [|ev evs IH]; intros h last Hn Hinv.
  - simpl. split_and!; [done..|]. intros ? H. by apply elem_of_nil in H.
  - destruct (handle_inv ev h last Hn Hinv) as (Hseq & Hinv' & Herr).
    rewrite replay_cons. cbn [fst snd].
    assert (0 ≤ seq_num (handle ev h).2) as Hn'.
    { rewrite Hseq. pose proof (seq_num_from_le (seq_num h) [ev]). lia. }
    destruct (IH _ _ Hn' Hinv') as (Hseq2 & Hinv2 & Herr2).
    rewrite seq_num_from_cons, <-Hseq. split_and!; [done| |].
    + eapply handler_inv_ext; [|exact Hinv2].
      intros s. by rewrite last_launch_from_cons, <-Hseq.
    + intros error_list [Heq|Hin]%elem_of_cons; [by apply Herr|by apply Herr2].
Qed.

Lemma handler_inv_init : handler_inv (λ _, None) __init__.
Proof. split; [apply LogFacts.log_bounded_empty|apply ClockFacts.sync_inv_init]. Qed.
End trace.

(** ** What a conflict check appends *)

Section checks.
Import EventHandler.

Lemma conflicts_backfilled data_ptr alloc σ σ' current_access checked :
  backfilled σ σ' →
  conflicts data_ptr alloc σ' current_access checked =
  conflicts data_ptr alloc σ current_access checked.
Proof.
  intros Hb. unfold conflicts. f_equal. apply filter_ext. intros p.
  unfold unordered. by rewrite (SyncFacts.backfilled_clock_value _ _ _ _ Hb).
Qed.

Lemma check_conflict_eq data_ptr current_access p error_list h info :
  _TensorsAccessed.accesses (tensors_accessed h) !! data_ptr = Some info →
  check_conflict data_ptr current_access (Some p) error_list h =
  (Return (error_list ++
           conflicts data_ptr (TensorInfo.allocation_stack_trace info) (syncs h)
             current_access [p]),
   mk (tensors_accessed h)
      (backfill_stream (Access.stream p)
         (backfill_stream (Access.stream current_access) (syncs h)))
      (seq_num h)).
Proof.
  intros Hinfo. unfold check_conflict.
  erewrite bind_Return; last first.
  { rewrite on_syncs_eq, SyncFacts.is_ordered_after_eq. reflexivity. }
  unfold conflicts, unordered. simpl.
  destruct (Access.seq_num p <=? _); simpl.
  - by rewrite app_nil_r.
  - erewrite bind_Return; last first.
    { rewrite on_tensors_accessed_eq. simpl.
      erewrite LogFacts.get_allocation_stack_trace_eq by done. reflexivity. }
    done.
Qed.

Lemma check_conflict_loop_eq data_ptr current_access info checked :
  ∀ error_list h,
    _TensorsAccessed.accesses (tensors_accessed h) !! data_ptr = Some info →
    ∃ σ',
      for_each_acc
        (λ previous_access, check_conflict data_ptr current_access (Some previous_access))
        checked error_list h =
      (Return (error_list ++
               conflicts data_ptr (TensorInfo.allocation_stack_trace info) (syncs h)
                 current_access checked),
       mk (tensors_accessed h) σ' (seq_num h)) ∧
      backfilled (syncs h) σ'.
Proof.
  induction checked as [|p checked IH]; intros error_list h Hinfo.
  - exists (syncs h). simpl. unfold ret, conflicts. simpl. rewrite app_nil_r.
    split; [by destruct h|apply SyncFacts.backfilled_refl].
  - cbn [for_each_acc].
    erewrite bind_Return by by apply check_conflict_eq.
    set (h1 := mk _ _ _).
    assert (backfilled (syncs h) (syncs h1)) as Hb.
    { eapply SyncFacts.backfilled_trans; apply SyncFacts.backfilled_backfill_stream. }
    destruct (IH (error_list ++ conflicts data_ptr
                    (TensorInfo.allocation_stack_trace info) (syncs h)
                    current_access [p]) h1 Hinfo) as (σ' & -> & Hb').
    exists σ'. split; [|by eapply SyncFacts.backfilled_trans].
    f_equal. rewrite <-app_assoc. f_equal.
    rewrite (conflicts_backfilled _ _ _ _ _ _ Hb).
    unfold conflicts. simpl. by destruct (unordered (syncs h) current_access p).
Qed.

(** A launch reads [tensor_names] at the pointers of its two lists only. *)
Lemma _handle_kernel_launch_ext stream read_only read_write operator
    (tensor_names tensor_names' : gmap Z (list string)) stack_trace h :
  (∀ data_ptr, data_ptr ∈ read_only ++ read_write →
     tensor_names !! data_ptr = tensor_names' !! data_ptr) →
  _handle_kernel_launch stream read_only read_write operator tensor_names stack_trace h =
  _handle_kernel_launch stream read_only read_write operator tensor_names' stack_trace h.
Proof.
  intros Hnames. unfold _handle_kernel_launch.
  apply bind_ext; [done|]. intros [] h1.
  apply bind_ext; [done|]. intros n h2.
  apply bind_ext; [done|]. intros [] h3.
  apply bind_ext.
  { apply for_each_acc_ext. intros p acc s Hp. unfold read_only_body, dict_getitem.
    by rewrite Hnames by (apply elem_of_app; by left). }
  intros error_list h4.
  apply bind_ext; [|done].
  apply for_each_acc_ext. intros p acc s Hp. unfold read_write_body, dict_getitem.
  by rewrite Hnames by (apply elem_of_app; by right).
Qed.
End checks.

(** ** The captured stacks steer nothing *)

Section commutes.
Context {S : Type} (fS : S → S).

Lemma commutes_ret {A} (fA : A → A) (a : A) : commutes fS fA (ret a) (ret (fA a)).
Proof. done. Qed.

Lemma commutes_bind {A B} (fA : A → A) (fB : B → B) (m m' : M S A) (k k' : A → M S B) :
  commutes fS fA m m' →
  (∀ a, commutes fS fB (k a) (k' (fA a))) →
  commutes fS fB (bind m k) (bind m' k').
Proof.
  intros Hm Hk s. unfold bind. rewrite Hm.
  destruct (m s) as [[a|e] s']; simpl; [apply Hk|done].
Qed.

Lemma commutes_for_each_acc {X B} (fX : X → X) (fB : B → B) (body body' : X → B → M S B)
    (l : list X) :
  (∀ x acc, commutes fS fB (body x acc) (body' (fX x) (fB acc))) →
  ∀ acc, commutes fS fB (for_each_acc body l acc) (for_each_acc body' (fX <$> l) (fB acc)).
Proof.
  intros Hbody. induction l as [|x l IH]; intros acc; simpl.
  - apply commutes_ret.
  - eapply commutes_bind; [apply Hbody|]. intros acc'. apply IH.
Qed.

Lemma commutes_dict_getitem {V} (d : gmap Z V) k :
  commutes fS id (dict_getitem d k) (dict_getitem d k).
Proof. intros s. unfold dict_getitem. by destruct (d !! k). Qed.
End commutes.

Section erase.
Import EventHandler.

Lemma commutes_on_syncs {A} (m : M StreamSynchronizations.t A) :
  commutes erase_handler id (on_syncs m) (on_syncs m).
Proof.
  intros h. rewrite !on_syncs_eq. simpl. by destruct (m (syncs h)) as [[a|e] σ].
Qed.

Lemma commutes_on_tensors_accessed {A} (fA : A → A) (m m' : M _TensorsAccessed.t A) :
  commutes erase_log fA m m' →
  commutes erase_handler fA (on_tensors_accessed m) (on_tensors_accessed m').
Proof. intros Hm h. rewrite !on_tensors_accessed_eq. simpl. by rewrite Hm. Qed.

Lemma commutes_gets_seq_num : commutes erase_handler id (gets seq_num) (gets seq_num).
Proof. done. Qed.

Lemma erase_log_lookup ta data_ptr :
  _TensorsAccessed.accesses (erase_log ta) !! data_ptr =
  erase_info <$> _TensorsAccessed.accesses ta !! data_ptr.
Proof. apply lookup_fmap. Qed.

Lemma erase_log_insert ta data_ptr info :
  erase_log (_TensorsAccessed.mk (<[data_ptr := info]> (_TensorsAccessed.accesses ta))) =
  _TensorsAccessed.mk
    (<[data_ptr := erase_info info]> (_TensorsAccessed.accesses (erase_log ta))).
Proof. unfold erase_log. simpl. by rewrite fmap_insert. Qed.

Lemma erase_log_delete ta data_ptr :
  erase_log (_TensorsAccessed.mk (delete data_ptr (_TensorsAccessed.accesses ta))) =
  _TensorsAccessed.mk (delete data_ptr (_TensorsAccessed.accesses (erase_log ta))).
Proof. unfold erase_log. simpl. by rewrite fmap_delete. Qed.

Lemma commutes_getter {A} (fA : A → A) (f : TensorInfo.t → A) data_ptr :
  (∀ info, f (erase_info info) = fA (f info)) →
  commutes erase_log fA
    (bind (_TensorsAccessed.getitem data_ptr) (λ info, ret (f info)))
    (bind (_TensorsAccessed.getitem data_ptr) (λ info, ret (f info))).
Proof.
  intros Hf ta. unfold bind, _TensorsAccessed.getitem, ret. rewrite erase_log_lookup.
  destruct (_TensorsAccessed.accesses ta !! data_ptr) as [info|]; simpl; [|done].
  by rewrite Hf.
Qed.

Lemma commutes_ensure_tensor_exists data_ptr :
  commutes erase_log id (_TensorsAccessed.ensure_tensor_exists data_ptr)
    (_TensorsAccessed.ensure_tensor_exists data_ptr).
Proof.
  intros ta. rewrite !LogFacts.ensure_tensor_exists_eq. simpl. f_equal.
  unfold backfill_tensor. rewrite erase_log_lookup.
  destruct (_TensorsAccessed.accesses ta !! data_ptr); simpl; [done|].
  by rewrite erase_log_insert.
Qed.

Lemma commutes_ensure_tensor_does_not_exist data_ptr :
  commutes erase_log id (_TensorsAccessed.ensure_tensor_does_not_exist data_ptr)
    (_TensorsAccessed.ensure_tensor_does_not_exist data_ptr).
Proof.
  intros ta. rewrite !LogFacts.ensure_tensor_does_not_exist_eq. simpl.
  by rewrite erase_log_delete.
Qed.

Lemma commutes_create_tensor data_ptr stack_trace :
  commutes erase_log id (_TensorsAccessed.create_tensor data_ptr stack_trace)
    (_TensorsAccessed.create_tensor data_ptr (erase_allocation stack_trace)).
Proof.
  intros ta. unfold _TensorsAccessed.create_tensor, modify. simpl.
  by rewrite erase_log_insert.
Qed.

Lemma commutes_delete_tensor data_ptr :
  commutes erase_log id (_TensorsAccessed.delete_tensor data_ptr)
    (_TensorsAccessed.delete_tensor data_ptr).
Proof.
  intros ta. unfold _TensorsAccessed.delete_tensor. rewrite erase_log_lookup.
  destruct (_TensorsAccessed.accesses ta !! data_ptr); simpl; [|done].
  by rewrite erase_log_delete.
Qed.

Lemma commutes_add_read data_ptr access :
  commutes erase_log id (_TensorsAccessed.add_read data_ptr access)
    (_TensorsAccessed.add_read data_ptr (erase_access access)).
Proof.
  intros ta. unfold _TensorsAccessed.add_read. rewrite erase_log_lookup.
  destruct (_TensorsAccessed.accesses ta !! data_ptr) as [info|]; simpl; [|done].
  rewrite erase_log_insert. unfold erase_info. simpl. by rewrite fmap_app.
Qed.

Lemma commutes_set_write data_ptr access :
  commutes erase_log id (_TensorsAccessed.set_write data_ptr access)
    (_TensorsAccessed.set_write data_ptr (erase_access access)).
Proof.
  intros ta. unfold _TensorsAccessed.set_write. rewrite erase_log_lookup.
  destruct (_TensorsAccessed.accesses ta !! data_ptr) as [info|]; simpl; [|done].
  by rewrite erase_log_insert.
Qed.

Lemma commutes_check_conflict data_ptr current_access previous_access error_list :
  commutes erase_handler (fmap erase_error)
    (check_conflict data_ptr current_access previous_access error_list)
    (check_conflict data_ptr (erase_access current_access)
       (erase_access <$> previous_access) (erase_error <$> error_list)).
Proof.
  unfold check_conflict. destruct previous_access as [p|]; simpl;
    [|apply (commutes_ret _ (fmap erase_error))].
  eapply commutes_bind; [apply commutes_on_syncs|]. intros ordered. simpl.
  destruct ordered; simpl; [apply (commutes_ret _ (fmap erase_error))|].
  eapply commutes_bind.
  { apply commutes_on_tensors_accessed.
    apply (commutes_getter erase_allocation TensorInfo.allocation_stack_trace). done. }
  intros alloc s. unfold ret. simpl. by rewrite fmap_app.
Qed.

Lemma commutes_read_only_body stream operator tensor_names stack_trace data_ptr error_list :
  commutes erase_handler (fmap erase_error)
    (read_only_body stream operator tensor_names stack_trace data_ptr error_list)
    (read_only_body stream operator tensor_names [] data_ptr (erase_error <$> error_list)).
Proof.
  unfold read_only_body.
  eapply commutes_bind.
  { apply commutes_on_tensors_accessed, commutes_ensure_tensor_exists. }
  intros _. eapply commutes_bind; [apply commutes_gets_seq_num|]. intros n.
  eapply commutes_bind; [apply commutes_dict_getitem|]. intros names.
  eapply commutes_bind.
  { apply commutes_on_tensors_accessed.
    apply (commutes_getter (fmap erase_access) TensorInfo.write). done. }
  intros previous_access.
  eapply commutes_bind; [apply commutes_check_conflict|]. intros error_list'.
  eapply commutes_bind.
  { apply commutes_on_tensors_accessed, commutes_add_read. }
  intros _. apply (commutes_ret _ (fmap erase_error)).
Qed.

Lemma commutes_read_write_body stream operator tensor_names stack_trace data_ptr error_list :
  commutes erase_handler (fmap erase_error)
    (read_write_body stream operator tensor_names stack_trace data_ptr error_list)
    (read_write_body stream operator tensor_names [] data_ptr (erase_error <$> error_list)).
Proof.
  unfold read_write_body.
  eapply commutes_bind.
  { apply commutes_on_tensors_accessed, commutes_ensure_tensor_exists. }
  intros _. eapply commutes_bind; [apply commutes_gets_seq_num|]. intros n.
  eapply commutes_bind; [apply commutes_dict_getitem|]. intros names.
  eapply commutes_bind.
  { apply commutes_on_tensors_accessed.
    apply (commutes_getter id
             (λ info, match TensorInfo.reads info with [] => false | _ :: _ => true end)).
    intros info. simpl. by destruct (TensorInfo.reads info). }
  intros were_reads. simpl.
  eapply commutes_bind.
  { destruct were_reads.
    - eapply commutes_bind.
      { apply commutes_on_tensors_accessed.
        apply (commutes_getter (fmap erase_access) TensorInfo.reads). done. }
      intros reads.
      apply (commutes_for_each_acc erase_handler erase_access (fmap erase_error)
               (λ previous_access, check_conflict data_ptr _ (Some previous_access))
               (λ previous_access, check_conflict data_ptr _ (Some previous_access))).
      intros p acc.
      apply (commutes_check_conflict data_ptr
               (Access.mk WRITE n stream operator names stack_trace) (Some p) acc).
    - eapply commutes_bind.
      { apply commutes_on_tensors_accessed.
        apply (commutes_getter (fmap erase_access) TensorInfo.write). done. }
      intros previous_access.
      apply (commutes_check_conflict data_ptr
               (Access.mk WRITE n stream operator names stack_trace)). }
  intros error_list'.
  eapply commutes_bind.
  { apply commutes_on_tensors_accessed, commutes_set_write. }
  intros _. apply (commutes_ret _ (fmap erase_error)).
Qed.

Lemma commutes__handle_kernel_launch stream read_only read_write operator tensor_names
    stack_trace :
  commutes erase_handler (fmap erase_error)
    (_handle_kernel_launch stream read_only read_write operator tensor_names stack_trace)
    (_handle_kernel_launch stream read_only read_write operator tensor_names []).
Proof.
  unfold _handle_kernel_launch.
  eapply (commutes_bind _ id); [done|]. intros _.
  eapply commutes_bind; [apply commutes_gets_seq_num|]. intros n.
  eapply commutes_bind; [apply commutes_on_syncs|]. intros _.
  eapply commutes_bind.
  { pose proof (commutes_for_each_acc erase_handler id (fmap erase_error)
                  (read_only_body stream operator tensor_names stack_trace)
                  (read_only_body stream operator tensor_names []) read_only) as H.
    rewrite list_fmap_id in H. apply (H (commutes_read_only_body _ _ _ _) []). }
  intros error_list.
  eapply commutes_bind.
  { pose proof (commutes_for_each_acc erase_handler id (fmap erase_error)
                  (read_write_body stream operator tensor_names stack_trace)
                  (read_write_body stream operator tensor_names []) read_write) as H.
    rewrite list_fmap_id in H. apply (H (commutes_read_write_body _ _ _ _)). }
  intros error_list'. apply (commutes_ret _ (fmap erase_error)).
Qed.

Lemma commutes_returning_None (m : M t unit) :
  commutes erase_handler id m m →
  commutes erase_handler erase_returned (returning_None m) (returning_None m).
Proof.
  intros Hm. unfold returning_None.
  eapply commutes_bind; [exact Hm|]. intros _. apply (commutes_ret _ erase_returned).
Qed.

Lemma commutes_handle ev :
  commutes erase_handler erase_returned (handle ev) (handle (erase_event ev)).
Proof.
  destruct ev; simpl; try (apply commutes_returning_None, commutes_on_syncs).
  - eapply commutes_bind; [apply commutes__handle_kernel_launch|].
    intros error_list. apply (commutes_ret _ erase_returned).
  - unfold returning_None, _handle_memory_allocation.
    eapply commutes_bind; [|intros _; apply (commutes_ret _ erase_returned)].
    eapply (commutes_bind _ id).
    { apply commutes_on_tensors_accessed, commutes_ensure_tensor_does_not_exist. }
    intros _.
    apply commutes_on_tensors_accessed, (commutes_create_tensor _ (Some _)).
  - apply commutes_returning_None. unfold _handle_memory_deallocation.
    eapply (commutes_bind _ id).
    { apply commutes_on_tensors_accessed, commutes_ensure_tensor_exists. }
    intros _. apply commutes_on_tensors_accessed, commutes_delete_tensor.
Qed.

Lemma replay_erase evs : ∀ h,
  replay (erase_event <$> evs) (erase_handler h) =
  (erase_outcome <$> (replay evs h).1, erase_handler (replay evs h).2).
Proof.
  induction evs as [|ev evs IH]; intros h; [done|].
  rewrite fmap_cons, !replay_cons. cbn [fst snd].
  rewrite (commutes_handle ev h). cbn [fst snd]. by rewrite IH.
Qed.

Lemma erase_handler_init : erase_handler __init__ = __init__.
Proof. unfold erase_handler, erase_log. simpl. by rewrite fmap_empty. Qed.
End erase.

(** * The properties of the sanitizer core *)

(** ** The sync table *)

(** C1.  In every state of the sync table and for all streams [s_cur], [s_prev]
    and every sequence number [n], [is_ordered_after(s_cur, n, s_prev)] returns
    (it never raises) and its result is [True] exactly when
    [n <= current[s_cur][s_prev]], a missing key counting as [-1]; this holds of
    the table before the call as well as of the table the call leaves. *)
Theorem is_ordered_after_iff (σ : StreamSynchronizations.t) (s_cur n s_prev : Z) :
  ∃ σ' b,
    StreamSynchronizations.is_ordered_after s_cur n s_prev σ = (Return b, σ') ∧
    (b = true ↔
     n ≤ default (-1) (StreamSynchronizations.current_sync_states σ !! s_cur
                         ≫= (.!! s_prev))) ∧
    (b = true ↔
     n ≤ default (-1) (StreamSynchronizations.current_sync_states σ' !! s_cur
                         ≫= (.!! s_prev))).
Proof.
  eexists _, _. split; [apply SyncFacts.is_ordered_after_eq|].
  fold (clock σ s_cur s_prev). fold (clock_value σ s_cur s_prev).
  match goal with |- _ ∧ (_ ↔ _ ≤ default _ (?c ≫= _)) =>
    match c with context [StreamSynchronizations.current_sync_states ?s] =>
      fold (clock s s_cur s_prev); fold (clock_value s s_cur s_prev);
      assert (backfilled σ s) as Hb
    end
  end.
  { eapply SyncFacts.backfilled_trans; apply SyncFacts.backfilled_backfill_stream. }
  rewrite (SyncFacts.backfilled_clock_value _ _ _ _ Hb).
  split; apply Z.leb_le.
Qed.

(** C4.  [record_state(e, s)] returns, and right after it [recorded[e]] is the
    clock [current[s]]: the two maps are equal, so they agree on every stream
    [t] and [recorded[e]] has no key that [current[s]] lacks.  Nothing of a
    snapshot [e] held before remains: the new one is the clock [s] had (empty
    when [s] was unknown), whatever [recorded[e]] was. *)
Theorem record_state_snapshot (σ : StreamSynchronizations.t) (e s : Z) :
  ∃ σ' c,
    StreamSynchronizations.record_state e s σ = (Return tt, σ') ∧
    StreamSynchronizations.current_sync_states σ' !! s = Some c ∧
    StreamSynchronizations.recorded_sync_states σ' !! e = Some c ∧
    c = default ∅ (StreamSynchronizations.current_sync_states σ !! s) ∧
    (∀ t, snapshot σ' e t = clock σ' s t) ∧
    (∀ t, is_Some (snapshot σ' e t) → is_Some (clock σ' s t)).
Proof.
  eexists _, _. split; [apply SyncFacts.record_state_eq|]. simpl.
  rewrite SyncFacts.backfill_stream_lookup, lookup_insert_eq.
  split_and!; [done..| |].
  - intros t. unfold snapshot, clock. simpl.
    by rewrite SyncFacts.backfill_stream_lookup, lookup_insert_eq.
  - intros t. unfold snapshot, clock. simpl.
    by rewrite SyncFacts.backfill_stream_lookup, lookup_insert_eq.
Qed.

(** C5.  [state_wait_for_event(s, e)] returns; each entry [(t, n)] of
    [recorded[e]] sets [current[s][t]] to [max(current[s][t], n)] (a missing
    [current[s][t]] counting as [-1]), the entries of [current[s]] for streams
    not in [recorded[e]] are as before, and so are the snapshots and the clocks
    of the other streams.  Hence after the wait
    [current[s][t] >= recorded[e][t]], missing keys counting as [-1], for every
    stream [t] of the snapshot and every [t] whose entry in [current[s]] was
    not below [-1]: in every table a handler reaches from its initial state,
    whose entries are sequence numbers, that is every stream [t]. *)
Theorem state_wait_for_event_maxima :
  (∀ (σ : StreamSynchronizations.t) (s e : Z),
     ∃ σ',
       StreamSynchronizations.state_wait_for_event s e σ = (Return tt, σ') ∧
       (∀ t n, snapshot σ e t = Some n →
               clock σ' s t = Some (Z.max (clock_value σ s t) n)) ∧
       (∀ t, snapshot σ e t = None → clock σ' s t = clock σ s t) ∧
       (∀ e' t, snapshot σ' e' t = snapshot σ e' t) ∧
       (∀ u t, u ≠ s → clock σ' u t = clock σ u t) ∧
       (∀ t, is_Some (snapshot σ e t) ∨ -1 ≤ clock_value σ s t →
             snapshot_value σ' e t ≤ clock_value σ' s t)) ∧
  (∀ (evs : list Event) (s e : Z),
     let σ := EventHandler.syncs (replay evs EventHandler.__init__).2 in
     let σ' := (StreamSynchronizations.state_wait_for_event s e σ).2 in
     ∀ t, snapshot_value σ' e t ≤ clock_value σ' s t).
Proof.
  assert (∀ σ s e t,
            clock (StreamSynchronizations.state_wait_for_event s e σ).2 s t =
            match snapshot σ e t with
            | Some m => Some (Z.max (clock_value σ s t) m)
            | None => clock σ s t
            end) as Hs.
  { intros σ s e t. rewrite ClockFacts.clock_state_wait_for_event.
    by rewrite bool_decide_eq_true_2. }
  split.
  - intros σ s e.
    exists (StreamSynchronizations.state_wait_for_event s e σ).2.
    split; [by rewrite SyncFacts.state_wait_for_event_eq|].
    split_and!.
    + intros t n Hn. by rewrite Hs, Hn.
    + intros t Hn. by rewrite Hs, Hn.
    + intros. apply ClockFacts.snapshot_state_wait_for_event.
    + intros u t Hu. rewrite ClockFacts.clock_state_wait_for_event.
      by rewrite bool_decide_eq_false_2.
    + intros t Ht. unfold snapshot_value, clock_value at 1.
      rewrite ClockFacts.snapshot_state_wait_for_event, Hs.
      destruct (snapshot σ e t) as [n|]; simpl; [apply Z.le_max_r|].
      destruct Ht as [[? [=]]|Ht]. exact Ht.
  - intros evs s e σ σ' t. subst σ'.
    destruct (replay_inv evs EventHandler.__init__ (λ _, None)) as (_ & [_ Hinv] & _);
      [done|apply handler_inv_init|]. fold σ in Hinv.
    unfold snapshot_value, clock_value at 1.
    rewrite ClockFacts.snapshot_state_wait_for_event, Hs.
    destruct (snapshot σ e t) as [n|]; simpl; [apply Z.le_max_r|].
    destruct (clock σ s t) as [k|] eqn:Hk; simpl; [|done].
    apply (clock_ge_1 _ _ _ Hinv) in Hk. lia.
Qed.

(** C10.  [is_ordered_after(s_cur, n, s_prev)] is a query that writes: it
    leaves every snapshot and the clock of every stream already in the table as
    they were, and the only change it makes is an empty clock for [s_cur] and
    for [s_prev] when they were absent; on a fresh table it does change the
    state.  When [current[s_cur]] has no entry for [s_prev] the result is
    [n <= -1], and in every table a handler reaches from its initial state
    that is the case of every [s_prev] absent from the table. *)
Theorem is_ordered_after_backfills :
  (∀ (σ : StreamSynchronizations.t) (s_cur n s_prev : Z),
     let r := StreamSynchronizations.is_ordered_after s_cur n s_prev σ in
     StreamSynchronizations.recorded_sync_states r.2 =
       StreamSynchronizations.recorded_sync_states σ ∧
     (∀ u, is_Some (StreamSynchronizations.current_sync_states σ !! u) →
           StreamSynchronizations.current_sync_states r.2 !! u =
           StreamSynchronizations.current_sync_states σ !! u) ∧
     (∀ u, u ≠ s_cur → u ≠ s_prev →
           StreamSynchronizations.current_sync_states r.2 !! u =
           StreamSynchronizations.current_sync_states σ !! u) ∧
     (StreamSynchronizations.current_sync_states σ !! s_cur = None →
      StreamSynchronizations.current_sync_states r.2 !! s_cur = Some ∅) ∧
     (StreamSynchronizations.current_sync_states σ !! s_prev = None →
      StreamSynchronizations.current_sync_states r.2 !! s_prev = Some ∅) ∧
     (clock σ s_cur s_prev = None → r.1 = Return (n <=? -1))) ∧
  (StreamSynchronizations.is_ordered_after 0 1 1 StreamSynchronizations.__init__).2
    ≠ StreamSynchronizations.__init__ ∧
  (∀ (evs : list Event) (s_cur n s_prev : Z),
     let σ := EventHandler.syncs (replay evs EventHandler.__init__).2 in
     StreamSynchronizations.current_sync_states σ !! s_prev = None →
     (StreamSynchronizations.is_ordered_after s_cur n s_prev σ).1 =
       Return (n <=? -1)).
Proof.
  split_and!.
  - intros σ s_cur n s_prev r. subst r.
    rewrite SyncFacts.is_ordered_after_eq. simpl.
    set (σ1 := backfill_stream s_cur σ).
    assert (backfilled σ (backfill_stream s_prev σ1)) as Hb.
    { eapply SyncFacts.backfilled_trans; apply SyncFacts.backfilled_backfill_stream. }
    split_and!.
    + apply Hb.
    + intros u Hu. by apply SyncFacts.backfilled_present.
    + intros u H1 H2. subst σ1. by rewrite !SyncFacts.backfill_stream_lookup_ne.
    + intros Hc.
      rewrite SyncFacts.backfill_stream_lookup_present;
        subst σ1; rewrite SyncFacts.backfill_stream_lookup, ?Hc; [done|by eexists].
    + intros Hp. rewrite SyncFacts.backfill_stream_lookup.
      destruct (decide (s_prev = s_cur)) as [->|Hne].
      * subst σ1. by rewrite SyncFacts.backfill_stream_lookup, Hp.
      * subst σ1. by rewrite SyncFacts.backfill_stream_lookup_ne, Hp.
    + intros Hc. unfold clock_value. by rewrite Hc.
  - intros Heq. apply (f_equal (λ σ, StreamSynchronizations.current_sync_states σ !! 0))
      in Heq. by vm_compute in Heq.
  - intros evs s_cur n s_prev σ Hp.
    rewrite SyncFacts.is_ordered_after_eq. simpl. unfold clock_value.
    destruct (clock σ s_cur s_prev) as [k|] eqn:Hk; [|done]. exfalso.
    destruct (replay_inv evs EventHandler.__init__ (λ _, None)) as (_ & [_ Hinv] & _);
      [done|apply handler_inv_init|].
    destruct (clock_le_self _ _ _ Hinv _ _ _ Hk) as (k' & Hk' & _).
    unfold clock in Hk'. fold σ in Hk'. by rewrite Hp in Hk'.
Qed.

(** ** The access log *)

(** C6.  For a buffer [b] of the log and an access [a], [set_write(b, a)]
    returns, and right after it [get_reads(b)] is the empty list and
    [get_write(b)] is [a]. *)
Theorem set_write_clears_reads (ta : _TensorsAccessed.t) (b : Z) (a : Access.t) :
  is_Some (_TensorsAccessed.accesses ta !! b) →
  ∃ ta',
    _TensorsAccessed.set_write b a ta = (Return tt, ta') ∧
    _TensorsAccessed.get_reads b ta' = (Return [], ta') ∧
    _TensorsAccessed.get_write b ta' = (Return (Some a), ta').
Proof.
  intros [info Hinfo]. unfold _TensorsAccessed.set_write. rewrite Hinfo.
  eexists. split; [done|]. split.
  - apply (LogFacts.get_reads_eq _ _
             (TensorInfo.mk (TensorInfo.allocation_stack_trace info) [] (Some a))),
      lookup_insert_eq.
  - apply (LogFacts.get_write_eq _ _
             (TensorInfo.mk (TensorInfo.allocation_stack_trace info) [] (Some a))),
      lookup_insert_eq.
Qed.

Lemma set_write_clears_reads_witness :
  let a := Access.mk READ 1 0 "op" ["x"] [] in
  let ta := _TensorsAccessed.mk {[ 11 := TensorInfo.mk None [a] None ]} in
  is_Some (_TensorsAccessed.accesses ta !! 11) ∧
  ∃ ta',
    _TensorsAccessed.set_write 11 (Access.mk WRITE 2 1 "op" ["y"] []) ta = (Return tt, ta') ∧
    _TensorsAccessed.get_reads 11 ta' = (Return [], ta') ∧
    _TensorsAccessed.get_write 11 ta' = (Return (Some (Access.mk WRITE 2 1 "op" ["y"] [])), ta').
Proof.
  intros a ta.
  assert (is_Some (_TensorsAccessed.accesses ta !! 11)) as H by (by eexists).
  split; [exact H|].
  exact (set_write_clears_reads ta 11 (Access.mk WRITE 2 1 "op" ["y"] []) H).
Defined.

(** ** The launch analysis *)

(** C2.  Whatever trace a fresh handler consumes, no error in the list a
    launch returns cites two accesses [a] and [b] of one stream with
    [a.seq_num < b.seq_num], in either role: the previous and the current
    access of an error are never on the same stream. *)
Theorem same_stream_never_races (evs : list Event)
    (error_list : list UnsynchronizedAccessError.t)
    (err : UnsynchronizedAccessError.t) (a b : Access.t) :
  Return (Some error_list) ∈ (replay evs EventHandler.__init__).1 →
  err ∈ error_list →
  Access.stream a = Access.stream b →
  Access.seq_num a < Access.seq_num b →
  ¬ cites err a b.
Proof.
  intros Hout Herr Hstream _ Hcites.
  destruct (replay_inv evs EventHandler.__init__ (λ _, None)) as (_ & _ & Hno);
    [done|apply handler_inv_init|].
  specialize (Hno _ Hout). unfold no_same_stream in Hno.
  rewrite Forall_forall in Hno. specialize (Hno _ Herr).
  destruct Hcites as [[<- <-]|[<- <-]]; by apply Hno.
Qed.

Lemma same_stream_never_races_witness :
  let evs := unsynchronized_read_after_write_trace "op" {[ 11 := ["x"] ]}
               {[ 11 := ["x"] ]} [] [] [] in
  let err := UnsynchronizedAccessError.mk 11 (Some [])
               (Access.mk READ 2 1 "op" ["x"] []) (Access.mk WRITE 1 0 "op" ["x"] []) in
  let a := Access.mk WRITE 1 0 "op" ["x"] [] in
  let b := Access.mk READ 2 0 "op" ["x"] [] in
  Return (Some [err]) ∈ (replay evs EventHandler.__init__).1 ∧
  err ∈ [err] ∧
  Access.stream a = Access.stream b ∧
  Access.seq_num a < Access.seq_num b ∧
  ¬ cites err a b.
Proof.
  intros evs err a b.
  assert (Return (Some [err]) ∈ (replay evs EventHandler.__init__).1) as H1.
  { apply (list_elem_of_lookup_2 _ 4%nat). vm_compute. reflexivity. }
  assert (err ∈ [err]) as H2 by apply list_elem_of_here.
  assert (Access.stream a = Access.stream b) as H3 by reflexivity.
  assert (Access.seq_num a < Access.seq_num b) as H4 by (simpl; lia).
  exact (conj H1 (conj H2 (conj H3 (conj H4
           (same_stream_never_races evs [err] err a b H1 H2 H3 H4))))).
Defined.

(** C7.  A launch on stream [s] bumps the counter to [n = seq_num + 1] and,
    whether it returns or raises, leaves [current[s][s] = n].  So after any
    trace on a fresh handler, [current[s][s]] is for every stream [s] the
    sequence number of the last launch on [s], and unset when there was none. *)
Theorem bumped_self_clock :
  (∀ (h : EventHandler.t) (s : Z) (read_only read_write : list Z) (operator : string)
     (tensor_names : gmap Z (list string)) (stack_trace : StackSummary),
     let h' := (EventHandler._handle_kernel_launch s read_only read_write operator
                  tensor_names stack_trace h).2 in
     EventHandler.seq_num h' = EventHandler.seq_num h + 1 ∧
     clock (EventHandler.syncs h') s s = Some (EventHandler.seq_num h + 1)) ∧
  (∀ (evs : list Event) (s : Z),
     clock (EventHandler.syncs (replay evs EventHandler.__init__).2) s s =
     last_launch evs s).
Proof.
  split.
  - intros h s read_only read_write operator tensor_names stack_trace h'.
    pose proof (_handle_kernel_launch_inv False s read_only read_write operator
                  tensor_names stack_trace h (λ H : False, match H with end)) as Hwp.
    unfold wp in Hwp. fold h' in Hwp. destruct Hwp as [(Hn & Hσ & _) _].
    split; [done|].
    rewrite (SyncFacts.backfilled_clock _ _ _ _ Hσ).
    rewrite ClockFacts.clock_update_seq_num. by rewrite bool_decide_eq_true_2.
  - intros evs s.
    destruct (replay_inv evs EventHandler.__init__ (λ _, None)) as (_ & [_ Hinv] & _);
      [done|apply handler_inv_init|].
    apply (self_is_last _ _ _ Hinv).
Qed.

Lemma state_wait_for_event_in_eq items_of stream event σ :
  iteration_order items_of →
  state_wait_for_event_in items_of stream event σ =
  StreamSynchronizations.state_wait_for_event stream event σ.
Proof.
  intros Horder.
  unfold state_wait_for_event_in, StreamSynchronizations.state_wait_for_event.
  erewrite !(bind_Return (StreamSynchronizations._ensure_event_exists event))
    by apply SyncFacts._ensure_event_exists_eq.
  erewrite !(bind_Return (StreamSynchronizations._ensure_stream_exists stream))
    by apply SyncFacts._ensure_stream_exists_eq.
  assert (StreamSynchronizations.recorded_getitem event
            (backfill_stream stream (backfill_event event σ)) =
          (Return (default ∅ (StreamSynchronizations.recorded_sync_states σ !! event)),
           backfill_stream stream (backfill_event event σ))) as Hget.
  { apply SyncFacts.recorded_getitem_eq. rewrite SyncFacts.backfill_stream_recorded.
    apply SyncFacts.backfill_event_lookup. }
  erewrite !bind_Return by exact Hget.
  symmetry. eapply SyncFacts.wait_loop_order_irrelevant.
  - apply SyncFacts.backfill_stream_lookup.
  - apply NoDup_fst_map_to_list.
  - symmetry. apply Horder.
Qed.

Lemma handle_in_eq items_of ev h :
  iteration_order items_of → handle_in items_of ev h = handle ev h.
Proof.
  intros Horder. destruct ev; try done. simpl.
  unfold EventHandler._handle_event_wait, returning_None, bind.
  rewrite !on_syncs_eq. by rewrite state_wait_for_event_in_eq.
Qed.

Lemma replay_in_eq items_of evs h :
  iteration_order items_of → replay_in items_of evs h = replay evs h.
Proof.
  intros Horder. revert h. induction evs as [|ev evs IH]; intros h; [done|].
  simpl. rewrite handle_in_eq by done. destruct (handle ev h) as [out h'].
  by rewrite IH.
Qed.





Lemma read_write_body_eq (stream : Z) (operator : string)
    (tensor_names : gmap Z (list string)) (stack_trace : StackSummary)
    (data_ptr : Z) (error_list : list UnsynchronizedAccessError.t)
    (h : EventHandler.t) (names : list string) :
  tensor_names !! data_ptr = Some names →
  let info := default (TensorInfo.mk None [] None)
                (_TensorsAccessed.accesses (EventHandler.tensors_accessed h) !! data_ptr) in
  let current_access :=
    Access.mk WRITE (EventHandler.seq_num h) stream operator names stack_trace in
  let checked := match TensorInfo.reads info with
                 | [] => option_list (TensorInfo.write info)
                 | _ :: _ => TensorInfo.reads info
                 end in
  ∃ h',
    EventHandler.read_write_body stream operator tensor_names stack_trace data_ptr
      error_list h =
    (Return (error_list ++
             conflicts data_ptr (TensorInfo.allocation_stack_trace info)
               (EventHandler.syncs h) current_access checked), h') ∧
    _TensorsAccessed.accesses (EventHandler.tensors_accessed h') !! data_ptr =
      Some (TensorInfo.mk (TensorInfo.allocation_stack_trace info) []
              (Some current_access)) ∧
    (∀ p, p ≠ data_ptr →
       _TensorsAccessed.accesses (EventHandler.tensors_accessed h') !! p =
       _TensorsAccessed.accesses (EventHandler.tensors_accessed h) !! p) ∧
    EventHandler.seq_num h' = EventHandler.seq_num h ∧
    backfilled (EventHandler.syncs h) (EventHandler.syncs h').
Proof.
  intros Hnames info current_access checked.
  unfold EventHandler.read_write_body.
  erewrite bind_Return; last first.
  { rewrite on_tensors_accessed_eq, LogFacts.ensure_tensor_exists_eq. reflexivity. }
  simpl. set (h1 := EventHandler.mk _ _ _).
  assert (_TensorsAccessed.accesses (EventHandler.tensors_accessed h1) !! data_ptr
          = Some info) as Hinfo by apply LogFacts.backfill_tensor_lookup.
  erewrite bind_Return by reflexivity. simpl.
  erewrite bind_Return by by apply dict_getitem_eq.
  fold current_access.
  erewrite bind_Return; last first.
  { rewrite on_tensors_accessed_eq.
    erewrite LogFacts.were_there_reads_since_last_write_eq by exact Hinfo.
    reflexivity. }
  simpl.
  assert (∃ σ',
    (if match TensorInfo.reads info with [] => false | _ :: _ => true end
     then
       bind (EventHandler.on_tensors_accessed (_TensorsAccessed.get_reads data_ptr))
         (λ reads,
            for_each_acc
              (λ previous_access,
                 EventHandler.check_conflict data_ptr current_access (Some previous_access))
              reads error_list)
     else
       bind (EventHandler.on_tensors_accessed (_TensorsAccessed.get_write data_ptr))
         (λ previous_access,
            EventHandler.check_conflict data_ptr current_access previous_access
              error_list)) h1 =
    (Return (error_list ++
             conflicts data_ptr (TensorInfo.allocation_stack_trace info)
               (EventHandler.syncs h) current_access checked),
     EventHandler.mk (EventHandler.tensors_accessed h1) σ' (EventHandler.seq_num h)) ∧
    backfilled (EventHandler.syncs h) σ') as (σ' & Hchecks & Hσ').
  { subst checked. destruct (TensorInfo.reads info) as [|r reads] eqn:Hreads.
    - erewrite bind_Return; last first.
      { rewrite on_tensors_accessed_eq.
        erewrite LogFacts.get_write_eq by exact Hinfo. reflexivity. }
      simpl. destruct (TensorInfo.write info) as [w|] eqn:Hw.
      + erewrite check_conflict_eq by exact Hinfo. simpl.
        eexists. split; [reflexivity|].
        eapply SyncFacts.backfilled_trans; apply SyncFacts.backfilled_backfill_stream.
      + exists (EventHandler.syncs h). simpl. unfold ret, conflicts. simpl.
        rewrite app_nil_r. split; [done|apply SyncFacts.backfilled_refl].
    - erewrite bind_Return; last first.
      { rewrite on_tensors_accessed_eq.
        erewrite LogFacts.get_reads_eq by exact Hinfo. reflexivity. }
      simpl. rewrite Hreads.
      destruct (check_conflict_loop_eq data_ptr current_access info (r :: reads)
                  error_list h1 Hinfo) as (σ' & Hloop & Hσ').
      exists σ'. by split. }
  erewrite bind_Return by exact Hchecks.
  erewrite bind_Return; last first.
  { rewrite on_tensors_accessed_eq. simpl.
    unfold _TensorsAccessed.set_write. simpl in Hinfo. rewrite Hinfo. reflexivity. }
  unfold ret. simpl. eexists. split; [reflexivity|]. simpl.
  split_and!; [apply lookup_insert_eq| |done..].
  intros p Hp. rewrite lookup_insert_ne by done.
  by apply LogFacts.backfill_tensor_lookup_ne.
Qed.

Lemma read_only_body_eq stream operator tensor_names stack_trace data_ptr error_list h
    names :
  tensor_names !! data_ptr = Some names →
  let info := default (TensorInfo.mk None [] None)
                (_TensorsAccessed.accesses (EventHandler.tensors_accessed h) !! data_ptr) in
  let current_access :=
    Access.mk READ (EventHandler.seq_num h) stream operator names stack_trace in
  ∃ h',
    EventHandler.read_only_body stream operator tensor_names stack_trace data_ptr
      error_list h =
    (Return (error_list ++
             conflicts data_ptr (TensorInfo.allocation_stack_trace info)
               (EventHandler.syncs h) current_access
               (option_list (TensorInfo.write info))), h') ∧
    _TensorsAccessed.accesses (EventHandler.tensors_accessed h') !! data_ptr =
      Some (TensorInfo.mk (TensorInfo.allocation_stack_trace info)
              (TensorInfo.reads info ++ [current_access]) (TensorInfo.write info)) ∧
    (∀ p, p ≠ data_ptr →
       _TensorsAccessed.accesses (EventHandler.tensors_accessed h') !! p =
       _TensorsAccessed.accesses (EventHandler.tensors_accessed h) !! p) ∧
    EventHandler.seq_num h' = EventHandler.seq_num h ∧
    backfilled (EventHandler.syncs h) (EventHandler.syncs h').
Proof.
  intros Hnames info current_access.
  unfold EventHandler.read_only_body.
  erewrite bind_Return; last first.
  { rewrite on_tensors_accessed_eq, LogFacts.ensure_tensor_exists_eq. reflexivity. }
  simpl. set (h1 := EventHandler.mk _ _ _).
  assert (_TensorsAccessed.accesses (EventHandler.tensors_accessed h1) !! data_ptr
          = Some info) as Hinfo by apply LogFacts.backfill_tensor_lookup.
  erewrite bind_Return by reflexivity. simpl.
  erewrite bind_Return by by apply dict_getitem_eq.
  fold current_access.
  erewrite bind_Return; last first.
  { rewrite on_tensors_accessed_eq.
    erewrite LogFacts.get_write_eq by exact Hinfo. reflexivity. }
  simpl.
  assert (∃ σ',
    EventHandler.check_conflict data_ptr current_access (TensorInfo.write info)
      error_list h1 =
    (Return (error_list ++
             conflicts data_ptr (TensorInfo.allocation_stack_trace info)
               (EventHandler.syncs h) current_access
               (option_list (TensorInfo.write info))),
     EventHandler.mk (EventHandler.tensors_accessed h1) σ' (EventHandler.seq_num h)) ∧
    backfilled (EventHandler.syncs h) σ') as (σ' & Hcheck & Hσ').
  { destruct (TensorInfo.write info) as [w|] eqn:Hw.
    - erewrite check_conflict_eq by exact Hinfo. simpl.
      eexists. split; [reflexivity|].
      eapply SyncFacts.backfilled_trans; apply SyncFacts.backfilled_backfill_stream.
    - exists (EventHandler.syncs h). simpl. unfold ret, conflicts. simpl.
      rewrite app_nil_r. split; [done|apply SyncFacts.backfilled_refl]. }
  erewrite bind_Return by exact Hcheck.
  erewrite bind_Return; last first.
  { rewrite on_tensors_accessed_eq. simpl.
    unfold _TensorsAccessed.add_read. simpl in Hinfo. rewrite Hinfo. reflexivity. }
  unfold ret. simpl. eexists. split; [reflexivity|]. simpl.
  split_and!; [apply lookup_insert_eq| |done..].
  intros p Hp. rewrite lookup_insert_ne by done.
  by apply LogFacts.backfill_tensor_lookup_ne.
Qed.

(** C8.  On a fresh handler, the trace [create_stream(0); create_stream(1);
    alloc(0xB); launch(0, [], [0xB], op); launch(1, [0xB], [], op)] makes the
    first launch return no error and the second exactly one: the READ numbered
    [2] on stream [1] against the WRITE numbered [1] on stream [0], on buffer
    [0xB] with its allocation trace. *)
Theorem unsynchronized_read_after_write (operator : string)
    (tensor_names1 tensor_names2 : gmap Z (list string)) (names1 names2 : list string)
    (allocation_stack_trace stack_trace1 stack_trace2 : StackSummary) :
  tensor_names1 !! 11 = Some names1 →
  tensor_names2 !! 11 = Some names2 →
  (replay (unsynchronized_read_after_write_trace operator tensor_names1 tensor_names2
             allocation_stack_trace stack_trace1 stack_trace2)
     EventHandler.__init__).1 =
  [Return None; Return None; Return None;
   Return (Some []);
   Return (Some [UnsynchronizedAccessError.mk 11 (Some allocation_stack_trace)
                   (Access.mk READ 2 1 operator names2 stack_trace2)
                   (Access.mk WRITE 1 0 operator names1 stack_trace1)])].
Proof.
  intros H1 H2. unfold unsynchronized_read_after_write_trace.
  rewrite !replay_cons. cbn [fst snd replay].
  assert (∀ tensor_names names stream read_only read_write stack_trace h,
            tensor_names !! 11 = Some names →
            (∀ p, p ∈ read_only ++ read_write → p = 11) →
            handle (KernelLaunch stream read_only read_write operator tensor_names
                      stack_trace) h =
            handle (KernelLaunch stream read_only read_write operator {[ 11 := names ]}
                      stack_trace) h) as Hext.
  { intros tn names s ro rw st h Hn Hp. simpl. apply bind_ext; [|done].
    apply _handle_kernel_launch_ext. intros p Hin. rewrite (Hp p Hin), Hn.
    by rewrite lookup_singleton_eq. }
  rewrite !(Hext tensor_names1 names1) by (done || by intros p ->%list_elem_of_singleton).
  rewrite !(Hext tensor_names2 names2) by (done || by intros p ->%list_elem_of_singleton).
  vm_compute. reflexivity.
Qed.

Lemma unsynchronized_read_after_write_witness :
  let tensor_names : gmap Z (list string) := {[ 11 := ["x"] ]} in
  tensor_names !! 11 = Some ["x"] ∧
  tensor_names !! 11 = Some ["x"] ∧
  (replay (unsynchronized_read_after_write_trace "op" tensor_names tensor_names
             ["alloc"] ["launch 1"] ["launch 2"])
     EventHandler.__init__).1 =
  [Return None; Return None; Return None;
   Return (Some []);
   Return (Some [UnsynchronizedAccessError.mk 11 (Some ["alloc"])
                   (Access.mk READ 2 1 "op" ["x"] ["launch 2"])
                   (Access.mk WRITE 1 0 "op" ["x"] ["launch 1"])])].
Proof.
  intros tensor_names.
  assert (tensor_names !! 11 = Some ["x"]) as H by reflexivity.
  exact (conj H (conj H
           (unsynchronized_read_after_write "op" tensor_names tensor_names ["x"] ["x"]
              ["alloc"] ["launch 1"] ["launch 2"] H H))).
Defined.

(** ** The two loops of a launch *)

Section launch_loops.
Variables (stream : Z) (operator : string) (tensor_names : gmap Z (list string))
  (stack_trace : StackSummary) (σ : StreamSynchronizations.t).

Lemma read_loop_eq (l : list Z) :
  (∀ p, p ∈ l → is_Some (tensor_names !! p)) →
  ∀ error_list h,
    backfilled σ (EventHandler.syncs h) →
    let st := foldl (after_read σ (EventHandler.seq_num h) stream operator tensor_names
                       stack_trace)
                (error_list, _TensorsAccessed.accesses (EventHandler.tensors_accessed h))
                l in
    ∃ h',
      for_each_acc (EventHandler.read_only_body stream operator tensor_names stack_trace)
        l error_list h = (Return st.1, h') ∧
      _TensorsAccessed.accesses (EventHandler.tensors_accessed h') = st.2 ∧
      EventHandler.seq_num h' = EventHandler.seq_num h ∧
      backfilled σ (EventHandler.syncs h').
Proof.
  induction l as [|p l IH]; intros Hl error_list h Hσ; simpl.
  - by exists h.
  - destruct (Hl p) as [names Hnames]; [by left|].
    destruct (read_only_body_eq stream operator tensor_names stack_trace p error_list h
                names Hnames) as (h1 & Hbody & Hp & Hother & Hseq & Hσ1).
    erewrite bind_Return by exact Hbody.
    assert (backfilled σ (EventHandler.syncs h1)) as Hσ'
      by by eapply SyncFacts.backfilled_trans.
    cbv zeta in Hbody.
    match type of Hbody with _ = (Return ?errs, _) => set (errs1 := errs) in * end.
    destruct (IH (λ q Hq, Hl q (list_elem_of_further _ _ _ Hq)) errs1 h1 Hσ')
      as (h' & Hloop & Hlog & Hseq' & Hσ'').
    exists h'. rewrite Hloop, Hlog, Hseq', Hseq.
    assert (after_read σ (EventHandler.seq_num h) stream operator tensor_names
              stack_trace
              (error_list, _TensorsAccessed.accesses (EventHandler.tensors_accessed h)) p
            = (error_list ++
               conflicts p
                 (TensorInfo.allocation_stack_trace
                    (default (TensorInfo.mk None [] None)
                       (_TensorsAccessed.accesses (EventHandler.tensors_accessed h) !! p)))
                 (EventHandler.syncs h)
                 (Access.mk READ (EventHandler.seq_num h) stream operator names
                    stack_trace)
                 (option_list
                    (TensorInfo.write
                       (default (TensorInfo.mk None [] None)
                          (_TensorsAccessed.accesses (EventHandler.tensors_accessed h)
                             !! p)))),
               _TensorsAccessed.accesses (EventHandler.tensors_accessed h1))) as ->.
    { unfold after_read. cbn [fst snd]. rewrite Hnames. cbn [default from_option id].
      rewrite (conflicts_backfilled _ _ _ _ _ _ Hσ). f_equal.
      apply map_eq. intros q. destruct (decide (q = p)) as [->|Hq].
      - by rewrite lookup_insert_eq, Hp.
      - by rewrite lookup_insert_ne, Hother. }
    subst errs1. by split_and!.
Qed.

Lemma write_loop_eq (l : list Z) :
  (∀ p, p ∈ l → is_Some (tensor_names !! p)) →
  ∀ error_list h,
    backfilled σ (EventHandler.syncs h) →
    let st := foldl (after_write σ (EventHandler.seq_num h) stream operator tensor_names
                       stack_trace)
                (error_list, _TensorsAccessed.accesses (EventHandler.tensors_accessed h))
                l in
    ∃ h',
      for_each_acc (EventHandler.read_write_body stream operator tensor_names stack_trace)
        l error_list h = (Return st.1, h') ∧
      _TensorsAccessed.accesses (EventHandler.tensors_accessed h') = st.2 ∧
      EventHandler.seq_num h' = EventHandler.seq_num h ∧
      backfilled σ (EventHandler.syncs h').
Proof.
  induction l as [|p l IH]; intros Hl error_list h Hσ; simpl.
  - by exists h.
  - destruct (Hl p) as [names Hnames]; [by left|].
    destruct (read_write_body_eq stream operator tensor_names stack_trace p error_list h
                names Hnames) as (h1 & Hbody & Hp & Hother & Hseq & Hσ1).
    erewrite bind_Return by exact Hbody.
    assert (backfilled σ (EventHandler.syncs h1)) as Hσ'
      by by eapply SyncFacts.backfilled_trans.
    cbv zeta in Hbody.
    match type of Hbody with _ = (Return ?errs, _) => set (errs1 := errs) in * end.
    destruct (IH (λ q Hq, Hl q (list_elem_of_further _ _ _ Hq)) errs1 h1 Hσ')
      as (h' & Hloop & Hlog & Hseq' & Hσ'').
    exists h'. rewrite Hloop, Hlog, Hseq', Hseq.
    assert (after_write σ (EventHandler.seq_num h) stream operator tensor_names
              stack_trace
              (error_list, _TensorsAccessed.accesses (EventHandler.tensors_accessed h)) p
            = (error_list ++
               conflicts p
                 (TensorInfo.allocation_stack_trace
                    (default (TensorInfo.mk None [] None)
                       (_TensorsAccessed.accesses (EventHandler.tensors_accessed h) !! p)))
                 (EventHandler.syncs h)
                 (Access.mk WRITE (EventHandler.seq_num h) stream operator names
                    stack_trace)
                 (checked_by_write
                    (default (TensorInfo.mk None [] None)
                       (_TensorsAccessed.accesses (EventHandler.tensors_accessed h)
                          !! p))),
               _TensorsAccessed.accesses (EventHandler.tensors_accessed h1))) as ->.
    { unfold after_write. cbn [fst snd]. rewrite Hnames. cbn [default from_option id].
      rewrite (conflicts_backfilled _ _ _ _ _ _ Hσ). f_equal.
      apply map_eq. intros q. destruct (decide (q = p)) as [->|Hq].
      - by rewrite lookup_insert_eq, Hp.
      - by rewrite lookup_insert_ne, Hother. }
    subst errs1. by split_and!.
Qed.
End launch_loops.

Lemma after_write_frame σ n stream operator tensor_names stack_trace (l : list Z) :
  ∀ st p, p ∉ l →
    (foldl (after_write σ n stream operator tensor_names stack_trace) st l).2 !! p =
    st.2 !! p.
Proof.
  induction l as [|x l IH]; intros st p Hp; [done|].
  apply not_elem_of_cons in Hp as [Hx Hp]. simpl. rewrite IH by done.
  unfold after_write. cbn [snd]. by rewrite lookup_insert_ne.
Qed.

Lemma after_write_installs σ n stream operator tensor_names stack_trace (l : list Z) :
  ∀ st p, p ∈ l →
    ∃ allocation_stack_trace,
      (foldl (after_write σ n stream operator tensor_names stack_trace) st l).2 !! p =
      Some (TensorInfo.mk allocation_stack_trace []
              (Some (Access.mk WRITE n stream operator
                       (default [] (tensor_names !! p)) stack_trace))).
Proof.
  induction l as [|x l IH]; intros st p Hp; [by apply elem_of_nil in Hp|].
  simpl. destruct (decide (p ∈ l)) as [Hl|Hl]; [by apply IH|].
  apply elem_of_cons in Hp as [->|Hp]; [|done].
  rewrite after_write_frame by done. unfold after_write. cbn [snd].
  rewrite lookup_insert_eq. by eexists.
Qed.

(** C3.  What a launch does for the buffers of [read_write], when
    [tensor_names] knows every buffer of its two lists.  The launch returns,
    and its error list and the log it leaves are those the spec describes:
    from no error and the log as it was, the buffers of [read_only] are gone
    through in turn ([after_read]) and then those of [read_write]
    ([after_write]), where for each buffer the new WRITE access is checked
    against each reader since the last write when there are any, and then not
    against the last writer, and otherwise against the last writer alone when
    there is one ([checked_by_write]); an error is appended for each checked
    access the sync table does not order before the launching stream.
    Afterwards the write is installed: every buffer of [read_write] has no
    readers and this launch's WRITE as its last writer. *)
Theorem launch_checks_writes (h : EventHandler.t) (stream : Z)
    (read_only read_write : list Z) (operator : string)
    (tensor_names : gmap Z (list string)) (stack_trace : StackSummary) :
  (∀ data_ptr, data_ptr ∈ read_only ++ read_write →
               is_Some (tensor_names !! data_ptr)) →
  let n := EventHandler.seq_num h + 1 in
  let σ := (StreamSynchronizations.update_seq_num stream n (EventHandler.syncs h)).2 in
  let after_reads :=
    foldl (after_read σ n stream operator tensor_names stack_trace)
      ([], _TensorsAccessed.accesses (EventHandler.tensors_accessed h)) read_only in
  let after_writes :=
    foldl (after_write σ n stream operator tensor_names stack_trace)
      after_reads read_write in
  ∃ h',
    EventHandler._handle_kernel_launch stream read_only read_write operator
      tensor_names stack_trace h = (Return after_writes.1, h') ∧
    _TensorsAccessed.accesses (EventHandler.tensors_accessed h') = after_writes.2 ∧
    ∀ data_ptr, data_ptr ∈ read_write →
      _TensorsAccessed.get_reads data_ptr (EventHandler.tensors_accessed h') =
        (Return [], EventHandler.tensors_accessed h') ∧
      _TensorsAccessed.get_write data_ptr (EventHandler.tensors_accessed h') =
        (Return (Some (Access.mk WRITE n stream operator
                         (default [] (tensor_names !! data_ptr)) stack_trace)),
         EventHandler.tensors_accessed h').
Proof.
  intros Hnamed n σ after_reads after_writes.
  unfold EventHandler._handle_kernel_launch.
  erewrite bind_Return by reflexivity.
  erewrite bind_Return by reflexivity.
  set (h1 := EventHandler.mk (EventHandler.tensors_accessed h) σ n).
  erewrite (bind_Return _ _ _ tt h1); last first.
  { rewrite on_syncs_eq. subst h1 σ n. simpl.
    by rewrite SyncFacts.update_seq_num_eq. }
  destruct (read_loop_eq stream operator tensor_names stack_trace σ read_only
              (λ p Hp, Hnamed p (proj2 (elem_of_app _ _ _) (or_introl Hp)))
              [] h1 (SyncFacts.backfilled_refl _))
    as (h2 & Hreads & Hlog2 & Hseq2 & Hσ2).
  erewrite bind_Return by exact Hreads.
  assert (EventHandler.seq_num h2 = n) as Hn2 by by rewrite Hseq2.
  assert ((after_reads.1, _TensorsAccessed.accesses (EventHandler.tensors_accessed h2))
          = after_reads) as Hst2.
  { rewrite Hlog2. symmetry. apply surjective_pairing. }
  destruct (write_loop_eq stream operator tensor_names stack_trace σ read_write
              (λ p Hp, Hnamed p (proj2 (elem_of_app _ _ _) (or_intror Hp)))
              after_reads.1 h2 Hσ2)
    as (h3 & Hwrites & Hlog3 & Hseq3 & Hσ3).
  rewrite Hn2, Hst2 in Hwrites, Hlog3. fold after_writes in Hwrites, Hlog3.
  erewrite bind_Return by exact Hwrites.
  exists h3. split_and!; [done..|].
  intros data_ptr Hp.
  destruct (after_write_installs σ n stream operator tensor_names stack_trace
              read_write after_reads data_ptr Hp) as [allocation_stack_trace Hinst].
  fold after_writes in Hinst. rewrite <-Hlog3 in Hinst.
  by rewrite (LogFacts.get_reads_eq _ _ _ Hinst), (LogFacts.get_write_eq _ _ _ Hinst).
Qed.

Lemma launch_checks_writes_witness :
  let reader := Access.mk READ 2 1 "op" ["x"] [] in
  let writer := Access.mk WRITE 1 1 "op" ["x"] [] in
  let other_writer := Access.mk WRITE 3 2 "op" ["y"] [] in
  let h := EventHandler.mk
             (_TensorsAccessed.mk
                {[ 11 := TensorInfo.mk None [reader] (Some writer);
                   12 := TensorInfo.mk None [] (Some other_writer) ]})
             (StreamSynchronizations.mk
                {[ 0 := ∅; 1 := {[ 1 := 2 ]}; 2 := {[ 2 := 3 ]} ]} ∅) 3 in
  let tensor_names : gmap Z (list string) :=
    {[ 11 := ["out"]; 12 := ["self"]; 13 := ["other"] ]} in
  let σ := (StreamSynchronizations.update_seq_num 0 4 (EventHandler.syncs h)).2 in
  let after_reads :=
    foldl (after_read σ 4 0 "op" tensor_names [])
      ([], _TensorsAccessed.accesses (EventHandler.tensors_accessed h)) [13] in
  let after_writes := foldl (after_write σ 4 0 "op" tensor_names []) after_reads [11; 12] in
  (∀ data_ptr, data_ptr ∈ [13] ++ [11; 12] → is_Some (tensor_names !! data_ptr)) ∧
  after_writes.1 =
    [UnsynchronizedAccessError.mk 11 None (Access.mk WRITE 4 0 "op" ["out"] []) reader;
     UnsynchronizedAccessError.mk 12 None (Access.mk WRITE 4 0 "op" ["self"] [])
       other_writer] ∧
  ∃ h',
    EventHandler._handle_kernel_launch 0 [13] [11; 12] "op" tensor_names [] h =
      (Return after_writes.1, h') ∧
    _TensorsAccessed.accesses (EventHandler.tensors_accessed h') = after_writes.2 ∧
    ∀ data_ptr, data_ptr ∈ [11; 12] →
      _TensorsAccessed.get_reads data_ptr (EventHandler.tensors_accessed h') =
        (Return [], EventHandler.tensors_accessed h') ∧
      _TensorsAccessed.get_write data_ptr (EventHandler.tensors_accessed h') =
        (Return (Some (Access.mk WRITE (EventHandler.seq_num h + 1) 0 "op"
                         (default [] (tensor_names !! data_ptr)) [])),
         EventHandler.tensors_accessed h').
Proof.
  intros reader writer other_writer h tensor_names σ after_reads after_writes.
  assert (∀ data_ptr, data_ptr ∈ [13] ++ [11; 12] → is_Some (tensor_names !! data_ptr))
    as H.
  { intros data_ptr Hp. simpl in Hp.
    repeat (apply elem_of_cons in Hp as [->|Hp]); [by eexists..|].
    by apply elem_of_nil in Hp. }
  split; [exact H|]. split; [by vm_compute|].
  exact (launch_checks_writes h 0 [13] [11; 12] "op" tensor_names [] H).
Defined.

(** * Further properties *)

(** ** A launch, step by step, under any invariant *)

Section launch_steps.
Import EventHandler.
Variables (n stream : Z) (operator : string) (tensor_names : gmap Z (list string))
  (stack_trace : StackSummary) (read_only read_write : list Z).
Variables (I : t → Prop) (J : list UnsynchronizedAccessError.t → Prop).

Hypothesis I_seq_num : ∀ h, I h → seq_num h = n.
Hypothesis I_ensure : ∀ data_ptr h,
  data_ptr ∈ read_only ++ read_write → I h →
  I (with_tensors_accessed (backfill_tensor data_ptr (tensors_accessed h)) h).
Hypothesis I_backfilled : ∀ σ' h,
  backfilled (syncs h) σ' → I h → I (with_syncs σ' h).
Hypothesis I_add_read : ∀ data_ptr names h,
  data_ptr ∈ read_only → tensor_names !! data_ptr = Some names → I h →
  I (with_tensors_accessed
       (_TensorsAccessed.add_read data_ptr
          (Access.mk READ n stream operator names stack_trace) (tensors_accessed h)).2 h).
Hypothesis I_set_write : ∀ data_ptr names h,
  data_ptr ∈ read_write → tensor_names !! data_ptr = Some names → I h →
  I (with_tensors_accessed
       (_TensorsAccessed.set_write data_ptr
          (Access.mk WRITE n stream operator names stack_trace) (tensors_accessed h)).2 h).
Hypothesis J_error : ∀ ty data_ptr names info p error_list h,
  I h → J error_list →
  data_ptr ∈ pointers_of ty read_only read_write →
  tensor_names !! data_ptr = Some names →
  _TensorsAccessed.accesses (tensors_accessed h) !! data_ptr = Some info →
  p ∈ checked_against ty info →
  unordered (syncs h) (Access.mk ty n stream operator names stack_trace) p = true →
  J (error_list ++
     [UnsynchronizedAccessError.mk data_ptr (TensorInfo.allocation_stack_trace info)
        (Access.mk ty n stream operator names stack_trace) p]).

Lemma check_conflict_keeps ty data_ptr names info p error_list h :
  I h → J error_list →
  data_ptr ∈ pointers_of ty read_only read_write →
  tensor_names !! data_ptr = Some names →
  _TensorsAccessed.accesses (tensors_accessed h) !! data_ptr = Some info →
  p ∈ checked_against ty info →
  wp (check_conflict data_ptr (Access.mk ty n stream operator names stack_trace)
        (Some p) error_list)
     (keeps (λ h', I h' ∧ tensors_accessed h' = tensors_accessed h) J) h.
Proof.
  intros HI HJ Hdp Hnames Hinfo Hp.
  unfold wp. erewrite check_conflict_eq by exact Hinfo. simpl.
  split; [split; [|done]|].
  - apply (I_backfilled _ h); [|done].
    eapply SyncFacts.backfilled_trans; apply SyncFacts.backfilled_backfill_stream.
  - unfold conflicts. simpl.
    destruct (unordered (syncs h) _ p) eqn:Hun; simpl.
    + by eapply J_error.
    + by rewrite app_nil_r.
Qed.

Lemma check_conflict_loop_keeps ty data_ptr names info (checked : list Access.t) :
  data_ptr ∈ pointers_of ty read_only read_write →
  tensor_names !! data_ptr = Some names →
  (∀ p, p ∈ checked → p ∈ checked_against ty info) →
  ∀ error_list h,
    I h → J error_list →
    _TensorsAccessed.accesses (tensors_accessed h) !! data_ptr = Some info →
    wp (for_each_acc
          (λ previous_access,
             check_conflict data_ptr (Access.mk ty n stream operator names stack_trace)
               (Some previous_access))
          checked error_list)
       (keeps (λ h', I h' ∧ tensors_accessed h' = tensors_accessed h) J) h.
Proof.
  intros Hdp Hnames. induction checked as [|p checked IH];
    intros Hsub error_list h HI HJ Hinfo; simpl.
  - by apply wp_ret.
  - apply wp_bind. eapply wp_mono.
    { eapply check_conflict_keeps; [done..|]. apply Hsub. by left. }
    intros [error_list'|e] h1 [[HI1 Hta] HJ1]; [|done].
    eapply wp_mono.
    { apply IH; [|done..|by rewrite Hta]. intros q Hq. apply Hsub. by right. }
    intros r h2 [[HI2 Hta2] HJ2]. split; [split; [done|congruence]|done].
Qed.

Lemma read_only_body_keeps data_ptr error_list h :
  data_ptr ∈ read_only → I h → J error_list →
  wp (read_only_body stream operator tensor_names stack_trace data_ptr error_list)
     (keeps I J) h.
Proof.
  intros Hdp HI HJ. unfold read_only_body.
  apply wp_bind, wp_on_tensors_accessed. rewrite LogFacts.ensure_tensor_exists_eq. simpl.
  apply wp_bind, wp_gets. simpl.
  set (h1 := mk (backfill_tensor data_ptr (tensors_accessed h)) (syncs h) (seq_num h)).
  assert (I h1) as HI1 by (apply (I_ensure data_ptr h); [apply elem_of_app; by left|done]).
  rewrite (I_seq_num h HI).
  apply wp_bind, wp_dict_getitem; [intros names Hnames|done].
  apply wp_bind, wp_on_tensors_accessed. simpl.
  rewrite LogFacts.get_write_state.
  destruct (_TensorsAccessed.get_write _ _).1 as [previous_access|e] eqn:Hw; [|done].
  fold h1.
  apply LogFacts.get_write_result in Hw as (info & Hinfo & ->).
  apply wp_bind.
  apply (wp_mono _ (keeps (λ h', I h' ∧ tensors_accessed h' = tensors_accessed h1) J)).
  { destruct (TensorInfo.write info) as [w|] eqn:Hwr.
    - eapply (check_conflict_keeps READ); [done..|]. simpl. rewrite Hwr. by left.
    - by apply wp_ret. }
  intros [error_list'|e] h2 [[HI2 Hta] HJ2]; [|done].
  apply wp_bind, wp_on_tensors_accessed.
  pose proof (I_add_read data_ptr names h2 Hdp Hnames HI2) as HI3.
  unfold with_tensors_accessed in HI3.
  destruct (_TensorsAccessed.add_read _ _ _).1; [|done].
  by apply wp_ret.
Qed.

Lemma read_write_body_keeps data_ptr error_list h :
  data_ptr ∈ read_write → I h → J error_list →
  wp (read_write_body stream operator tensor_names stack_trace data_ptr error_list)
     (keeps I J) h.
Proof.
  intros Hdp HI HJ. unfold read_write_body.
  apply wp_bind, wp_on_tensors_accessed. rewrite LogFacts.ensure_tensor_exists_eq. simpl.
  apply wp_bind, wp_gets. simpl.
  set (h1 := mk (backfill_tensor data_ptr (tensors_accessed h)) (syncs h) (seq_num h)).
  assert (I h1) as HI1 by (apply (I_ensure data_ptr h); [apply elem_of_app; by right|done]).
  rewrite (I_seq_num h HI).
  apply wp_bind, wp_dict_getitem; [intros names Hnames|done].
  apply wp_bind, wp_on_tensors_accessed. simpl.
  rewrite LogFacts.were_there_reads_since_last_write_state.
  destruct (_TensorsAccessed.were_there_reads_since_last_write _ _).1
    as [were_reads|e] eqn:Hwere; [|done].
  fold h1.
  apply LogFacts.getter_result in Hwere as (info & Hinfo & ->).
  apply wp_bind.
  apply (wp_mono _ (keeps (λ h', I h' ∧ tensors_accessed h' = tensors_accessed h1) J)).
  { destruct (TensorInfo.reads info) as [|r reads] eqn:Hreads.
    - apply wp_bind, wp_on_tensors_accessed. simpl.
      rewrite LogFacts.get_write_state.
      rewrite (LogFacts.get_write_eq _ _ _ Hinfo). simpl. fold h1.
      destruct (TensorInfo.write info) as [w|] eqn:Hwr.
      + eapply (check_conflict_keeps WRITE); [done..|]. simpl.
        rewrite Hreads, Hwr. by left.
      + by apply wp_ret.
    - apply wp_bind, wp_on_tensors_accessed. simpl.
      rewrite LogFacts.get_reads_state.
      rewrite (LogFacts.get_reads_eq _ _ _ Hinfo). simpl. fold h1.
      apply (check_conflict_loop_keeps WRITE data_ptr names info
               (TensorInfo.reads info) Hdp Hnames); [|done..].
      intros p Hp. simpl. by rewrite Hreads in Hp |- *. }
  intros [error_list'|e] h2 [[HI2 Hta] HJ2]; [|done].
  apply wp_bind, wp_on_tensors_accessed.
  pose proof (I_set_write data_ptr names h2 Hdp Hnames HI2) as HI3.
  unfold with_tensors_accessed in HI3.
  destruct (_TensorsAccessed.set_write _ _ _).1; [|done].
  by apply wp_ret.
Qed.

(** The two loops of the launch, from the state after [update_seq_num]. *)
Lemma launch_loops_keeps h :
  I h → J [] →
  wp (bind (for_each_acc (read_only_body stream operator tensor_names stack_trace)
              read_only [])
        (λ error_list,
           bind (for_each_acc
                   (read_write_body stream operator tensor_names stack_trace)
                   read_write error_list)
             (λ error_list, ret error_list)))
     (keeps I J) h.
Proof.
  intros HI HJ. apply wp_bind. eapply wp_mono.
  { apply (wp_for_each_acc I J); [|done..].
    intros p acc s Hp Hacc Hs. by apply read_only_body_keeps. }
  intros [error_list|e] h2 [HI2 HJ2]; [|done].
  apply wp_bind. eapply wp_mono.
  { apply (wp_for_each_acc I J); [|done..].
    intros p acc s Hp Hacc Hs. by apply read_write_body_keeps. }
  intros [error_list'|e] h3 [HI3 HJ3]; [|done].
  by apply wp_ret.
Qed.
End launch_steps.

(** The whole launch: [I] and [J] are kept from the state that
    [update_seq_num] leaves. *)
Lemma _handle_kernel_launch_keeps stream read_only read_write operator tensor_names
    stack_trace (I : EventHandler.t → Prop)
    (J : list UnsynchronizedAccessError.t → Prop) h :
  let n := EventHandler.seq_num h + 1 in
  let h1 := EventHandler.mk (EventHandler.tensors_accessed h)
              (StreamSynchronizations.update_seq_num stream n (EventHandler.syncs h)).2
              n in
  (∀ h', I h' → EventHandler.seq_num h' = n) →
  (∀ data_ptr h', data_ptr ∈ read_only ++ read_write → I h' →
     I (with_tensors_accessed
          (backfill_tensor data_ptr (EventHandler.tensors_accessed h')) h')) →
  (∀ σ' h', backfilled (EventHandler.syncs h') σ' → I h' → I (with_syncs σ' h')) →
  (∀ data_ptr names h',
     data_ptr ∈ read_only → tensor_names !! data_ptr = Some names → I h' →
     I (with_tensors_accessed
          (_TensorsAccessed.add_read data_ptr
             (Access.mk READ n stream operator names stack_trace)
             (EventHandler.tensors_accessed h')).2 h')) →
  (∀ data_ptr names h',
     data_ptr ∈ read_write → tensor_names !! data_ptr = Some names → I h' →
     I (with_tensors_accessed
          (_TensorsAccessed.set_write data_ptr
             (Access.mk WRITE n stream operator names stack_trace)
             (EventHandler.tensors_accessed h')).2 h')) →
  (∀ ty data_ptr names info p error_list h',
     I h' → J error_list →
     data_ptr ∈ pointers_of ty read_only read_write →
     tensor_names !! data_ptr = Some names →
     _TensorsAccessed.accesses (EventHandler.tensors_accessed h') !! data_ptr
       = Some info →
     p ∈ checked_against ty info →
     unordered (EventHandler.syncs h')
       (Access.mk ty n stream operator names stack_trace) p = true →
     J (error_list ++
        [UnsynchronizedAccessError.mk data_ptr (TensorInfo.allocation_stack_trace info)
           (Access.mk ty n stream operator names stack_trace) p])) →
  I h1 → J [] →
  wp (EventHandler._handle_kernel_launch stream read_only read_write operator
        tensor_names stack_trace) (keeps I J) h.
Proof.
  intros n h1 H0 H1 H2 H3 H4 H5 HI HJ. unfold EventHandler._handle_kernel_launch.
  apply wp_bind, wp_modify. apply wp_bind, wp_gets. simpl.
  apply wp_bind, wp_on_syncs. simpl.
  assert ((StreamSynchronizations.update_seq_num stream n (EventHandler.syncs h)).1
          = Return tt) as Hret by by rewrite SyncFacts.update_seq_num_eq.
  fold n. rewrite Hret.
  by apply (launch_loops_keeps n stream operator tensor_names stack_trace
              read_only read_write I J).
Qed.

(** ** What a launch reports and what it touches *)

Lemma checked_against_accesses_of ty info p :
  p ∈ checked_against ty info → p ∈ accesses_of info.
Proof.
  unfold accesses_of. destruct ty; simpl.
  - intros Hp. apply elem_of_app. by right.
  - destruct (TensorInfo.reads info) as [|r reads]; intros Hp; apply elem_of_app;
      [by right|by left].
Qed.

Lemma add_read_lookup data_ptr access ta p :
  _TensorsAccessed.accesses (_TensorsAccessed.add_read data_ptr access ta).2 !! p =
  if bool_decide (p = data_ptr) then
    (λ info, TensorInfo.mk (TensorInfo.allocation_stack_trace info)
               (TensorInfo.reads info ++ [access]) (TensorInfo.write info))
      <$> _TensorsAccessed.accesses ta !! data_ptr
  else _TensorsAccessed.accesses ta !! p.
Proof.
  unfold _TensorsAccessed.add_read. case_bool_decide as Hp.
  - subst p. destruct (_TensorsAccessed.accesses ta !! data_ptr) as [info|] eqn:Hi;
      simpl; [by rewrite lookup_insert_eq|done].
  - destruct (_TensorsAccessed.accesses ta !! data_ptr) as [info|] eqn:Hi;
      simpl; [by rewrite lookup_insert_ne|done].
Qed.

Lemma set_write_lookup data_ptr access ta p :
  _TensorsAccessed.accesses (_TensorsAccessed.set_write data_ptr access ta).2 !! p =
  if bool_decide (p = data_ptr) then
    (λ info, TensorInfo.mk (TensorInfo.allocation_stack_trace info) [] (Some access))
      <$> _TensorsAccessed.accesses ta !! data_ptr
  else _TensorsAccessed.accesses ta !! p.
Proof.
  unfold _TensorsAccessed.set_write. case_bool_decide as Hp.
  - subst p. destruct (_TensorsAccessed.accesses ta !! data_ptr) as [info|] eqn:Hi;
      simpl; [by rewrite lookup_insert_eq|done].
  - destruct (_TensorsAccessed.accesses ta !! data_ptr) as [info|] eqn:Hi;
      simpl; [by rewrite lookup_insert_ne|done].
Qed.

Lemma backfill_tensor_lookup_cases data_ptr ta p :
  _TensorsAccessed.accesses (backfill_tensor data_ptr ta) !! p =
  if bool_decide (p = data_ptr) then
    Some (default (TensorInfo.mk None [] None) (_TensorsAccessed.accesses ta !! data_ptr))
  else _TensorsAccessed.accesses ta !! p.
Proof.
  case_bool_decide as Hp.
  - subst p. apply LogFacts.backfill_tensor_lookup.
  - by apply LogFacts.backfill_tensor_lookup_ne.
Qed.

Lemma clock_after_update_seq_num stream n σ :
  clock (StreamSynchronizations.update_seq_num stream n σ).2 stream stream = Some n.
Proof. rewrite ClockFacts.clock_update_seq_num. by rewrite bool_decide_eq_true_2. Qed.

(** X1.  Every error that a launch returns blames the launch itself for a real
    violation: it is about a buffer of the list its access type comes from
    ([read_only] for a READ, [read_write] for a WRITE), its current access is
    the access of this launch to that buffer (the bumped sequence number, the
    stream, the operator, the names [tensor_names] gives, the captured stack),
    and the sync table the launch leaves does not order its previous access
    before the launching stream. *)
Theorem launch_errors_are_violations (h : EventHandler.t) (stream : Z)
    (read_only read_write : list Z) (operator : string)
    (tensor_names : gmap Z (list string)) (stack_trace : StackSummary) :
  let r := EventHandler._handle_kernel_launch stream read_only read_write operator
             tensor_names stack_trace h in
  match r.1 with
  | Return error_list =>
      Forall (λ err,
        ∃ ty names,
          UnsynchronizedAccessError.data_ptr err ∈ pointers_of ty read_only read_write ∧
          tensor_names !! UnsynchronizedAccessError.data_ptr err = Some names ∧
          UnsynchronizedAccessError.current_access err =
            Access.mk ty (EventHandler.seq_num h + 1) stream operator names stack_trace ∧
          ¬ (Access.seq_num (UnsynchronizedAccessError.previous_access err) ≤
             clock_value (EventHandler.syncs r.2) stream
               (Access.stream (UnsynchronizedAccessError.previous_access err))))
        error_list
  | Raise _ => True
  end.
Proof.
  intros r. subst r.
  set (n := EventHandler.seq_num h + 1).
  set (σ0 := (StreamSynchronizations.update_seq_num stream n (EventHandler.syncs h)).2).
  pose proof (_handle_kernel_launch_keeps stream read_only read_write operator
    tensor_names stack_trace
    (λ h', EventHandler.seq_num h' = n ∧ backfilled σ0 (EventHandler.syncs h'))
    (Forall (λ err,
       ∃ ty names,
         UnsynchronizedAccessError.data_ptr err ∈ pointers_of ty read_only read_write ∧
         tensor_names !! UnsynchronizedAccessError.data_ptr err = Some names ∧
         UnsynchronizedAccessError.current_access err =
           Access.mk ty n stream operator names stack_trace ∧
         unordered σ0 (UnsynchronizedAccessError.current_access err)
           (UnsynchronizedAccessError.previous_access err) = true)) h) as Hwp.
  simpl in Hwp. fold n σ0 in Hwp. unfold wp, keeps in Hwp.
  destruct Hwp as [[Hn Hσ] HJ].
  - by intros h' [? _].
  - by intros data_ptr h' _ [? ?].
  - intros σ' h' Hb [? ?]. split; [done|]. by eapply SyncFacts.backfilled_trans.
  - by intros data_ptr names h' _ _ [? ?].
  - by intros data_ptr names h' _ _ [? ?].
  - intros ty data_ptr names info p error_list h' [Hn' Hσ'] HJ Hdp Hnames Hinfo Hp Hun.
    apply Forall_app. split; [done|]. constructor; [|constructor].
    exists ty, names. simpl. split_and!; [done..|].
    unfold unordered in *. simpl in *.
    by rewrite <-(SyncFacts.backfilled_clock_value _ _ _ _ Hσ').
  - split; [done|apply SyncFacts.backfilled_refl].
  - constructor.
  - destruct (EventHandler._handle_kernel_launch _ _ _ _ _ _ h).1 as [error_list|e];
      [|done].
    eapply Forall_impl; [exact HJ|]. simpl.
    intros err (ty & names & H1 & H2 & H3 & H4). exists ty, names.
    split_and!; [done..|]. unfold unordered in H4. rewrite H3 in H4. simpl in H4.
    rewrite (SyncFacts.backfilled_clock_value _ _ _ _ Hσ).
    apply negb_true_iff, Z.leb_gt in H4. lia.
Qed.

(** X2.  A launch, whether it returns or raises, touches the log at the
    buffers of its two lists only, keeps every snapshot, and changes no clock
    entry but [current[stream][stream]]. *)
Theorem launch_touches_its_buffers_only (h : EventHandler.t) (stream : Z)
    (read_only read_write : list Z) (operator : string)
    (tensor_names : gmap Z (list string)) (stack_trace : StackSummary) :
  let h' := (EventHandler._handle_kernel_launch stream read_only read_write operator
               tensor_names stack_trace h).2 in
  (∀ p, p ∉ read_only ++ read_write →
     _TensorsAccessed.accesses (EventHandler.tensors_accessed h') !! p =
     _TensorsAccessed.accesses (EventHandler.tensors_accessed h) !! p) ∧
  StreamSynchronizations.recorded_sync_states (EventHandler.syncs h') =
    StreamSynchronizations.recorded_sync_states (EventHandler.syncs h) ∧
  (∀ u t, ¬ (u = stream ∧ t = stream) →
     clock (EventHandler.syncs h') u t = clock (EventHandler.syncs h) u t).
Proof.
  intros h'. subst h'.
  set (n := EventHandler.seq_num h + 1).
  set (σ0 := (StreamSynchronizations.update_seq_num stream n (EventHandler.syncs h)).2).
  pose proof (_handle_kernel_launch_keeps stream read_only read_write operator
    tensor_names stack_trace
    (λ h', EventHandler.seq_num h' = n ∧ backfilled σ0 (EventHandler.syncs h') ∧
           ∀ p, p ∉ read_only ++ read_write →
             _TensorsAccessed.accesses (EventHandler.tensors_accessed h') !! p =
             _TensorsAccessed.accesses (EventHandler.tensors_accessed h) !! p)
    (λ _, True) h) as Hwp.
  simpl in Hwp. fold n σ0 in Hwp. unfold wp, keeps in Hwp.
  destruct Hwp as [(Hn & Hσ & Hlog) _].
  - by intros h' [? _].
  - intros data_ptr h' Hdp (? & ? & Hl). split_and!; [done..|]. intros p Hp.
    rewrite backfill_tensor_lookup_cases, bool_decide_eq_false_2; [by apply Hl|].
    by intros ->.
  - intros σ' h' Hb (? & ? & ?). split_and!; [done| |done].
    by eapply SyncFacts.backfilled_trans.
  - intros data_ptr names h' Hdp _ (? & ? & Hl). split_and!; [done..|]. intros p Hp.
    rewrite add_read_lookup, bool_decide_eq_false_2; [by apply Hl|].
    intros ->. apply Hp, elem_of_app. by left.
  - intros data_ptr names h' Hdp _ (? & ? & Hl). split_and!; [done..|]. intros p Hp.
    rewrite set_write_lookup, bool_decide_eq_false_2; [by apply Hl|].
    intros ->. apply Hp, elem_of_app. by right.
  - done.
  - split_and!; [done|apply SyncFacts.backfilled_refl|done].
  - done.
  - split_and!; [done| |].
    + destruct Hσ as [-> _]. subst σ0. by rewrite SyncFacts.update_seq_num_eq.
    + intros u t Hut. rewrite (SyncFacts.backfilled_clock _ _ _ _ Hσ). subst σ0.
      rewrite ClockFacts.clock_update_seq_num. by rewrite bool_decide_eq_false_2.
Qed.

(** X3.  A buffer the log holds no access for (unknown, or just allocated)
    gets no error from a launch, however often the launch names it in its
    lists: the accesses of one launch never conflict with one another. *)
Theorem buffer_without_history_never_races (h : EventHandler.t) (stream : Z)
    (read_only read_write : list Z) (operator : string)
    (tensor_names : gmap Z (list string)) (stack_trace : StackSummary)
    (data_ptr : Z) :
  accesses_of (default (TensorInfo.mk None [] None)
                 (_TensorsAccessed.accesses (EventHandler.tensors_accessed h)
                    !! data_ptr)) = [] →
  match (EventHandler._handle_kernel_launch stream read_only read_write operator
           tensor_names stack_trace h).1 with
  | Return error_list =>
      Forall (λ err, UnsynchronizedAccessError.data_ptr err ≠ data_ptr) error_list
  | Raise _ => True
  end.
Proof.
  intros Hfresh.
  set (n := EventHandler.seq_num h + 1).
  set (σ0 := (StreamSynchronizations.update_seq_num stream n (EventHandler.syncs h)).2).
  pose proof (_handle_kernel_launch_keeps stream read_only read_write operator
    tensor_names stack_trace
    (λ h', EventHandler.seq_num h' = n ∧ backfilled σ0 (EventHandler.syncs h') ∧
           Forall (λ a, Access.stream a = stream ∧ Access.seq_num a = n)
             (accesses_of
                (default (TensorInfo.mk None [] None)
                   (_TensorsAccessed.accesses (EventHandler.tensors_accessed h')
                      !! data_ptr))))
    (Forall (λ err, UnsynchronizedAccessError.data_ptr err ≠ data_ptr)) h) as Hwp.
  simpl in Hwp. fold n σ0 in Hwp. unfold wp, keeps in Hwp.
  destruct Hwp as [_ HJ]; [..|done].
  - by intros h' [? _].
  - intros p h' _ (? & ? & Hl). split_and!; [done..|].
    simpl. rewrite backfill_tensor_lookup_cases. case_bool_decide; [|done]. subst p.
    simpl.
    by destruct (_TensorsAccessed.accesses (EventHandler.tensors_accessed h')
                   !! data_ptr).
  - intros σ' h' Hb (? & ? & ?). split_and!; [done| |done].
    by eapply SyncFacts.backfilled_trans.
  - intros p names h' _ _ (? & ? & Hl). split_and!; [done..|].
    simpl. rewrite add_read_lookup. case_bool_decide; [|done]. subst p.
    destruct (_TensorsAccessed.accesses (EventHandler.tensors_accessed h') !! data_ptr)
      as [info|]; simpl in Hl |- *; [|constructor].
    unfold accesses_of in *. simpl. rewrite <-app_assoc.
    rewrite Forall_app in Hl. destruct Hl as [Hr Hw].
    rewrite !Forall_app. split_and!; [done| |done]. by repeat constructor.
  - intros p names h' _ _ (? & ? & Hl). split_and!; [done..|].
    simpl. rewrite set_write_lookup. case_bool_decide; [|done]. subst p.
    destruct (_TensorsAccessed.accesses (EventHandler.tensors_accessed h') !! data_ptr)
      as [info|]; simpl; [|constructor].
    unfold accesses_of. simpl. by repeat constructor.
  - intros ty p names info a error_list h' (Hn' & Hσ' & Hl) HJ' Hp Hnames Hinfo Ha Hun.
    apply Forall_app. split; [done|]. constructor; [|constructor]. simpl.
    intros ->. rewrite Hinfo in Hl. simpl in Hl.
    apply checked_against_accesses_of in Ha.
    rewrite Forall_forall in Hl. destruct (Hl _ Ha) as [Hs Hseq].
    unfold unordered in Hun. simpl in Hun.
    rewrite Hs, Hseq, (SyncFacts.backfilled_clock_value _ _ _ _ Hσ') in Hun.
    subst σ0. unfold clock_value in Hun. rewrite clock_after_update_seq_num in Hun.
    simpl in Hun. by rewrite Z.leb_refl in Hun.
  - split_and!; [done|apply SyncFacts.backfilled_refl|]. simpl. rewrite Hfresh.
    constructor.
  - constructor.
Qed.

Lemma buffer_without_history_never_races_witness :
  let h := (replay [MemoryAllocation 11 []] EventHandler.__init__).2 in
  let tensor_names : gmap Z (list string) := {[ 11 := ["x"] ]} in
  accesses_of (default (TensorInfo.mk None [] None)
                 (_TensorsAccessed.accesses (EventHandler.tensors_accessed h) !! 11))
    = [] ∧
  match (EventHandler._handle_kernel_launch 0 [11; 11] [11] "op" tensor_names [] h).1 with
  | Return error_list =>
      Forall (λ err, UnsynchronizedAccessError.data_ptr err ≠ 11) error_list
  | Raise _ => True
  end.
Proof.
  intros h tensor_names.
  assert (accesses_of (default (TensorInfo.mk None [] None)
            (_TensorsAccessed.accesses (EventHandler.tensors_accessed h) !! 11)) = [])
    as H by reflexivity.
  exact (conj H (buffer_without_history_never_races h 0 [11; 11] [11] "op"
                   tensor_names [] 11 H)).
Defined.

(** ** Handlers along a trace *)

Lemma log_typed_insert data_ptr info ta :
  info_typed info → log_typed ta →
  log_typed (_TensorsAccessed.mk (<[data_ptr := info]> (_TensorsAccessed.accesses ta))).
Proof.
  intros Hi Ht p info' Hp. simpl in Hp.
  destruct (decide (p = data_ptr)) as [->|Hne].
  - rewrite lookup_insert_eq in Hp. by injection Hp as <-.
  - rewrite lookup_insert_ne in Hp by done. by eapply Ht.
Qed.

Lemma log_typed_delete data_ptr ta :
  log_typed ta → log_typed (_TensorsAccessed.mk (delete data_ptr (_TensorsAccessed.accesses ta))).
Proof.
  intros Ht p info' Hp. simpl in Hp.
  apply lookup_delete_Some in Hp as [_ Hp]. by eapply Ht.
Qed.

Lemma info_typed_fresh alloc : info_typed (TensorInfo.mk alloc [] None).
Proof. split; [constructor|done]. Qed.

Lemma log_typed_backfill data_ptr ta :
  log_typed ta → log_typed (backfill_tensor data_ptr ta).
Proof.
  intros Ht. unfold backfill_tensor.
  destruct (_TensorsAccessed.accesses ta !! data_ptr); [done|].
  apply log_typed_insert; [apply info_typed_fresh|done].
Qed.

Lemma log_typed_add_read data_ptr a ta :
  Access.type a = READ → log_typed ta →
  log_typed (_TensorsAccessed.add_read data_ptr a ta).2.
Proof.
  intros Ha Ht. unfold _TensorsAccessed.add_read.
  destruct (_TensorsAccessed.accesses ta !! data_ptr) as [info|] eqn:Hp; [|done]. simpl.
  destruct (Ht _ _ Hp) as [Hr Hw].
  apply log_typed_insert; [|done]. split; simpl; [|done].
  apply Forall_app. split; [done|]. by constructor.
Qed.

Lemma log_typed_set_write data_ptr a ta :
  Access.type a = WRITE → log_typed ta →
  log_typed (_TensorsAccessed.set_write data_ptr a ta).2.
Proof.
  intros Ha Ht. unfold _TensorsAccessed.set_write.
  destruct (_TensorsAccessed.accesses ta !! data_ptr) as [info|] eqn:Hp; [|done]. simpl.
  apply log_typed_insert; [|done]. split; simpl; [constructor|].
  by intros a' [= <-].
Qed.

Lemma _handle_kernel_launch_typed stream read_only read_write operator tensor_names
    stack_trace h :
  log_typed (EventHandler.tensors_accessed h) →
  wp (EventHandler._handle_kernel_launch stream read_only read_write operator
        tensor_names stack_trace)
     (keeps (λ h', log_typed (EventHandler.tensors_accessed h')) (Forall involves_write))
     h.
Proof.
  intros Ht.
  set (n := EventHandler.seq_num h + 1).
  eapply wp_mono.
  { apply (_handle_kernel_launch_keeps stream read_only read_write operator
             tensor_names stack_trace
             (λ h', EventHandler.seq_num h' = n ∧
                    log_typed (EventHandler.tensors_accessed h'))
             (Forall involves_write) h); fold n.
    - by intros h' [? _].
    - intros data_ptr h' _ [? ?]. split; [done|]. by apply log_typed_backfill.
    - by intros σ' h' _ [? ?].
    - intros data_ptr names h' _ _ [? ?]. split; [done|]. by apply log_typed_add_read.
    - intros data_ptr names h' _ _ [? ?]. split; [done|]. by apply log_typed_set_write.
    - intros ty data_ptr names info p error_list h' [_ Hl] HJ _ _ Hinfo Hp _.
      apply Forall_app. split; [done|]. constructor; [|constructor].
      unfold involves_write. simpl. destruct ty; [right|by left].
      simpl in Hp. destruct (Hl _ _ Hinfo) as [_ Hw].
      destruct (TensorInfo.write info) as [w|]; simpl in Hp.
      + apply list_elem_of_singleton in Hp as ->. by apply Hw.
      + by apply elem_of_nil in Hp.
    - done.
    - constructor. }
  intros r h' [[_ ?] ?]. by split.
Qed.

Lemma handle_typed ev h :
  log_typed (EventHandler.tensors_accessed h) →
  log_typed (EventHandler.tensors_accessed (handle ev h).2) ∧
  errors_satisfy involves_write (handle ev h).1.
Proof.
  intros Ht.
  destruct ev as [stream read_only read_write operator tensor_names stack_trace
                 |event|event|event stream|event stream|data_ptr stack_trace|data_ptr
                 |stream]; simpl;
    try (rewrite returning_None_state; split;
         [|pose proof (returning_None_result
                         (S := EventHandler.t)) as Hn;
           match goal with |- errors_satisfy _ (returning_None ?m ?s).1 =>
             specialize (Hn m s);
             destruct (returning_None m s).1 as [[l|]|]; [by destruct (Hn l)|done..]
           end]).
  - pose proof (_handle_kernel_launch_typed stream read_only read_write operator
                  tensor_names stack_trace h Ht) as Hwp.
    unfold wp, keeps in Hwp. unfold bind at 1 2.
    by destruct (EventHandler._handle_kernel_launch _ _ _ _ _ _ h) as [[l|e] h'].
  - unfold EventHandler._handle_event_creation. by rewrite on_syncs_eq.
  - unfold EventHandler._handle_event_deletion. by rewrite on_syncs_eq.
  - unfold EventHandler._handle_event_record. by rewrite on_syncs_eq.
  - unfold EventHandler._handle_event_wait. by rewrite on_syncs_eq.
  - rewrite _handle_memory_allocation_state. simpl.
    exact (log_typed_insert data_ptr _
             (_TensorsAccessed.mk
                (delete data_ptr
                   (_TensorsAccessed.accesses (EventHandler.tensors_accessed h))))
             (info_typed_fresh _) (log_typed_delete _ _ Ht)).
  - rewrite _handle_memory_deallocation_state. simpl.
    unfold _TensorsAccessed.delete_tensor.
    destruct (_TensorsAccessed.accesses _ !! data_ptr); simpl.
    + by apply log_typed_delete, log_typed_backfill.
    + by apply log_typed_backfill.
  - unfold EventHandler._handle_stream_creation. by rewrite on_syncs_eq.
Qed.

(** X4.  Whatever trace a fresh handler consumes, every error a launch returns
    involves a write: two reads are never reported against each other. *)
Theorem every_race_involves_a_write (evs : list Event) :
  Forall (errors_satisfy involves_write) (replay evs EventHandler.__init__).1.
Proof.
  assert (∀ h, log_typed (EventHandler.tensors_accessed h) →
               Forall (errors_satisfy involves_write) (replay evs h).1) as Hgen.
  { induction evs as [|ev evs IH]; intros h Ht; [constructor|].
    rewrite replay_cons. simpl. destruct (handle_typed ev h Ht) as [Ht' Herr].
    constructor; [done|]. by apply IH. }
  apply Hgen. intros p info Hp. simpl in Hp. by rewrite lookup_empty in Hp.
Qed.

(** X5.  The counter of a handler counts its launches: after any trace on a
    fresh handler it is the number of calls of [_handle_kernel_launch] in the
    trace, those that raised included; no other handler moves it. *)
Theorem counter_counts_launches (evs : list Event) :
  EventHandler.seq_num (replay evs EventHandler.__init__).2 =
  Z.of_nat (length (List.filter is_launch evs)).
Proof.
  assert (∀ n, seq_num_from n evs = n + Z.of_nat (length (List.filter is_launch evs)))
    as Hcount.
  { induction evs as [|ev evs IH]; intros n; [simpl; lia|].
    destruct ev; cbn [seq_num_from List.filter is_launch length]; rewrite IH;
      rewrite ?Nat2Z.inj_succ; lia. }
  destruct (replay_inv evs EventHandler.__init__ (λ _, None)) as (Hseq & _);
    [done|apply handler_inv_init|].
  by rewrite Hseq, Hcount.
Qed.

Lemma anomalies_never_raise_aux h data_ptr stack_trace :
  (EventHandler._handle_memory_allocation data_ptr stack_trace h).1 = Return tt ∧
  (EventHandler._handle_memory_deallocation data_ptr h).1 = Return tt.
Proof.
  split.
  - unfold EventHandler._handle_memory_allocation.
    erewrite bind_Return; last first.
    { rewrite on_tensors_accessed_eq, LogFacts.ensure_tensor_does_not_exist_eq.
      reflexivity. }
    by rewrite on_tensors_accessed_eq.
  - unfold EventHandler._handle_memory_deallocation.
    erewrite bind_Return; last first.
    { rewrite on_tensors_accessed_eq, LogFacts.ensure_tensor_exists_eq. reflexivity. }
    rewrite on_tensors_accessed_eq. simpl. unfold _TensorsAccessed.delete_tensor.
    by rewrite LogFacts.backfill_tensor_lookup.
Qed.

(** X6.  Out-of-order and duplicate lifecycle events are recovered from, never
    raised: in every state, each handler other than the launch returns,
    whatever the event, stream or buffer is (unknown or already known). *)
Theorem anomalies_never_raise (h : EventHandler.t) :
  (∀ event, (EventHandler._handle_event_creation event h).1 = Return tt) ∧
  (∀ event, (EventHandler._handle_event_deletion event h).1 = Return tt) ∧
  (∀ event stream, (EventHandler._handle_event_record event stream h).1 = Return tt) ∧
  (∀ event stream, (EventHandler._handle_event_wait event stream h).1 = Return tt) ∧
  (∀ data_ptr stack_trace,
     (EventHandler._handle_memory_allocation data_ptr stack_trace h).1 = Return tt) ∧
  (∀ data_ptr, (EventHandler._handle_memory_deallocation data_ptr h).1 = Return tt) ∧
  (∀ stream, (EventHandler._handle_stream_creation stream h).1 = Return tt).
Proof.
  split_and!.
  - intros event. unfold EventHandler._handle_event_creation.
    by rewrite on_syncs_eq, SyncFacts.create_event_eq.
  - intros event. unfold EventHandler._handle_event_deletion.
    by rewrite on_syncs_eq, SyncFacts.delete_event_eq.
  - intros event stream. unfold EventHandler._handle_event_record.
    by rewrite on_syncs_eq, SyncFacts.record_state_eq.
  - intros event stream. unfold EventHandler._handle_event_wait.
    by rewrite on_syncs_eq, SyncFacts.state_wait_for_event_eq.
  - intros data_ptr stack_trace. apply anomalies_never_raise_aux.
  - intros data_ptr. apply (anomalies_never_raise_aux h data_ptr []).
  - intros stream. unfold EventHandler._handle_stream_creation.
    by rewrite on_syncs_eq, SyncFacts.create_stream_eq.
Qed.

(** ** The sync table: events, waits and what a stream knows *)

(** X7.  The four event methods call one another in a cycle, and yet always
    finish: with at least four nested calls allowed they return, [create_event]
    leaving [event] with an empty snapshot and [delete_event] leaving it
    absent, with exactly the result of [call_depth] frames; and four are
    needed, as creating an event that exists raises [RecursionError] with
    three. *)
Theorem event_methods_finish_within_four_calls :
  (∀ (depth : nat) (event : Z) (σ : StreamSynchronizations.t),
     (4 ≤ depth)%nat →
     StreamSynchronizations.create_event_rec depth event σ =
       (Return tt,
        StreamSynchronizations.mk (StreamSynchronizations.current_sync_states σ)
          (<[event := ∅]> (StreamSynchronizations.recorded_sync_states σ))) ∧
     StreamSynchronizations.delete_event_rec depth event σ =
       (Return tt,
        StreamSynchronizations.mk (StreamSynchronizations.current_sync_states σ)
          (delete event (StreamSynchronizations.recorded_sync_states σ))) ∧
     StreamSynchronizations._ensure_event_exists_rec depth event σ =
       StreamSynchronizations._ensure_event_exists event σ ∧
     StreamSynchronizations._ensure_event_does_not_exist_rec depth event σ =
       StreamSynchronizations._ensure_event_does_not_exist event σ) ∧
  (∀ (event : Z) (σ : StreamSynchronizations.t),
     is_Some (StreamSynchronizations.recorded_sync_states σ !! event) →
     (StreamSynchronizations.create_event_rec 3 event σ).1 = Raise RecursionError).
Proof.
  split.
  - intros depth event σ Hd.
    destruct (SyncFacts.event_depth_irrelevant depth event σ Hd) as (H1 & H2 & H3 & H4).
    rewrite H1, H2, SyncFacts.create_event_eq, SyncFacts.delete_event_eq. done.
  - intros event σ [c Hc]. simpl. run_sync. by rewrite Hc.
Qed.

(** X8.  Waiting for an event the table does not know (never created, or
    deleted) returns, teaches the waiting stream nothing, and brings the event
    back with an empty snapshot; the stream itself is back-filled when
    unknown. *)
Theorem wait_for_unknown_event (σ : StreamSynchronizations.t) (stream event : Z) :
  StreamSynchronizations.recorded_sync_states σ !! event = None →
  ∃ σ',
    StreamSynchronizations.state_wait_for_event stream event σ = (Return tt, σ') ∧
    (∀ u t, clock σ' u t = clock σ u t) ∧
    StreamSynchronizations.recorded_sync_states σ' =
      <[event := ∅]> (StreamSynchronizations.recorded_sync_states σ) ∧
    StreamSynchronizations.current_sync_states σ' !! stream =
      Some (default ∅ (StreamSynchronizations.current_sync_states σ !! stream)).
Proof.
  intros He.
  exists (StreamSynchronizations.state_wait_for_event stream event σ).2.
  split; [by rewrite SyncFacts.state_wait_for_event_eq|].
  assert (∀ t, snapshot σ event t = None) as Hs
    by (intros t; unfold snapshot; by rewrite He).
  split_and!.
  - intros u t. rewrite ClockFacts.clock_state_wait_for_event, Hs.
    case_bool_decide; by subst.
  - rewrite SyncFacts.state_wait_for_event_eq. simpl.
    unfold backfill_event. by rewrite He.
  - rewrite SyncFacts.state_wait_for_event_eq. simpl. rewrite lookup_insert_eq, He.
    simpl. f_equal. apply map_eq. intros t.
    by rewrite SyncFacts.absorb_lookup, lookup_empty.
Qed.

Lemma wait_for_unknown_event_witness :
  let σ := StreamSynchronizations.mk {[ 0 := {[ 0 := 3 ]} ]} ∅ in
  StreamSynchronizations.recorded_sync_states σ !! 7 = None ∧
  ∃ σ',
    StreamSynchronizations.state_wait_for_event 0 7 σ = (Return tt, σ') ∧
    (∀ u t, clock σ' u t = clock σ u t) ∧
    StreamSynchronizations.recorded_sync_states σ' =
      <[7 := ∅]> (StreamSynchronizations.recorded_sync_states σ) ∧
    StreamSynchronizations.current_sync_states σ' !! 0 =
      Some (default ∅ (StreamSynchronizations.current_sync_states σ !! 0)).
Proof.
  intros σ.
  assert (StreamSynchronizations.recorded_sync_states σ !! 7 = None) as H
    by reflexivity.
  exact (conj H (wait_for_unknown_event σ 0 7 H)).
Defined.

(** X9.  The loop of [state_wait_for_event] gives the same table in whatever
    order it visits the items of the snapshot: run over any enumeration of the
    items of [recorded[event]], from the table the two back-fills leave, it
    ends as [state_wait_for_event] does. *)
Theorem state_wait_for_event_any_order (σ : StreamSynchronizations.t) (stream event : Z)
    (items : list (Z * Z)) :
  items ≡ₚ map_to_list
             (default ∅ (StreamSynchronizations.recorded_sync_states σ !! event)) →
  for_each (StreamSynchronizations.wait_body stream) items
    (backfill_stream stream (backfill_event event σ)) =
  StreamSynchronizations.state_wait_for_event stream event σ.
Proof.
  intros Hperm.
  assert (StreamSynchronizations.current_sync_states
            (backfill_stream stream (backfill_event event σ)) !! stream
          = Some (default ∅ (StreamSynchronizations.current_sync_states
                               (backfill_event event σ) !! stream))) as Hc
    by apply SyncFacts.backfill_stream_lookup.
  rewrite <-(SyncFacts.wait_loop_order_irrelevant stream
               (map_to_list
                  (default ∅ (StreamSynchronizations.recorded_sync_states σ !! event)))
               items _ _ Hc (NoDup_fst_map_to_list _)) by done.
  unfold StreamSynchronizations.state_wait_for_event.
  erewrite bind_Return by apply SyncFacts._ensure_event_exists_eq.
  erewrite bind_Return by apply SyncFacts._ensure_stream_exists_eq.
  erewrite bind_Return; [done|].
  apply SyncFacts.recorded_getitem_eq. rewrite SyncFacts.backfill_stream_recorded.
  apply SyncFacts.backfill_event_lookup.
Qed.

Lemma state_wait_for_event_any_order_witness :
  let σ := StreamSynchronizations.mk {[ 0 := {[ 0 := 3 ]} ]}
             {[ 7 := {[ 1 := 5; 2 := 6 ]} ]} in
  [(2, 6); (1, 5)] ≡ₚ
    map_to_list (default ∅ (StreamSynchronizations.recorded_sync_states σ !! 7)) ∧
  for_each (StreamSynchronizations.wait_body 0) [(2, 6); (1, 5)]
    (backfill_stream 0 (backfill_event 7 σ)) =
  StreamSynchronizations.state_wait_for_event 0 7 σ.
Proof.
  intros σ.
  assert ([(2, 6); (1, 5)] ≡ₚ
            map_to_list (default ∅ (StreamSynchronizations.recorded_sync_states σ !! 7)))
    as H.
  { vm_compute. first [reflexivity | apply perm_swap]. }
  exact (conj H (state_wait_for_event_any_order σ 0 7 [(2, 6); (1, 5)] H)).
Defined.

(** ** What the handlers do to the sync table *)

Lemma handle_KernelLaunch_state stream read_only read_write operator tensor_names
    stack_trace h :
  (handle (KernelLaunch stream read_only read_write operator tensor_names stack_trace)
     h).2 =
  (EventHandler._handle_kernel_launch stream read_only read_write operator tensor_names
     stack_trace h).2.
Proof.
  simpl. unfold bind at 1, ret.
  by destruct (EventHandler._handle_kernel_launch _ _ _ _ _ _ h) as [[l|e] h'].
Qed.

Lemma _handle_kernel_launch_syncs stream read_only read_write operator tensor_names
    stack_trace h :
  backfilled
    (StreamSynchronizations.update_seq_num stream (EventHandler.seq_num h + 1)
       (EventHandler.syncs h)).2
    (EventHandler.syncs
       (EventHandler._handle_kernel_launch stream read_only read_write operator
          tensor_names stack_trace h).2).
Proof.
  pose proof (_handle_kernel_launch_inv False stream read_only read_write operator
                tensor_names stack_trace h (λ H : False, match H with end)) as Hwp.
  unfold wp in Hwp. by destruct Hwp as [(_ & Hσ & _) _].
Qed.

(** The syncs of the handler after a call that is no launch. *)
Lemma handle_syncs ev h :
  EventHandler.syncs (handle ev h).2 =
  match ev with
  | KernelLaunch stream read_only read_write operator tensor_names stack_trace =>
      EventHandler.syncs
        (EventHandler._handle_kernel_launch stream read_only read_write operator
           tensor_names stack_trace h).2
  | EventCreation event =>
      (StreamSynchronizations.create_event event (EventHandler.syncs h)).2
  | EventDeletion event =>
      (StreamSynchronizations.delete_event event (EventHandler.syncs h)).2
  | EventRecord event stream =>
      (StreamSynchronizations.record_state event stream (EventHandler.syncs h)).2
  | EventWait event stream =>
      (StreamSynchronizations.state_wait_for_event stream event (EventHandler.syncs h)).2
  | StreamCreation stream =>
      (StreamSynchronizations.create_stream stream (EventHandler.syncs h)).2
  | MemoryAllocation _ _ | MemoryDeallocation _ => EventHandler.syncs h
  end.
Proof.
  destruct ev; try (simpl; rewrite returning_None_state).
  - by rewrite handle_KernelLaunch_state.
  - unfold EventHandler._handle_event_creation. by rewrite on_syncs_eq.
  - unfold EventHandler._handle_event_deletion. by rewrite on_syncs_eq.
  - unfold EventHandler._handle_event_record. by rewrite on_syncs_eq.
  - unfold EventHandler._handle_event_wait. by rewrite on_syncs_eq.
  - by rewrite _handle_memory_allocation_state.
  - by rewrite _handle_memory_deallocation_state.
  - unfold EventHandler._handle_stream_creation. by rewrite on_syncs_eq.
Qed.

Lemma handle_keeps_snapshot event ev h t :
  rewrites_snapshot event ev = false →
  snapshot (EventHandler.syncs (handle ev h).2) event t =
  snapshot (EventHandler.syncs h) event t.
Proof.
  intros Hev. rewrite handle_syncs. destruct ev; simpl in Hev; try done.
  - rewrite (SyncFacts.backfilled_snapshot _ _ _ _
               (_handle_kernel_launch_syncs _ _ _ _ _ _ _)).
    apply ClockFacts.snapshot_update_seq_num.
  - rewrite ClockFacts.snapshot_create_event. by rewrite bool_decide_eq_false_2
      by (intros ->; by rewrite bool_decide_eq_true_2 in Hev).
  - rewrite ClockFacts.snapshot_delete_event. by rewrite bool_decide_eq_false_2
      by (intros ->; by rewrite bool_decide_eq_true_2 in Hev).
  - rewrite ClockFacts.snapshot_record_state. by rewrite bool_decide_eq_false_2
      by (intros ->; by rewrite bool_decide_eq_true_2 in Hev).
  - apply ClockFacts.snapshot_state_wait_for_event.
  - apply ClockFacts.snapshot_create_stream.
Qed.

Lemma replay_keeps_snapshot event evs : ∀ h t,
  Forall (λ ev, rewrites_snapshot event ev = false) evs →
  snapshot (EventHandler.syncs (replay evs h).2) event t =
  snapshot (EventHandler.syncs h) event t.
Proof.
  induction evs as [|ev evs IH]; intros h t Hevs; [done|].
  apply Forall_cons in Hevs as [Hev Hevs].
  rewrite replay_cons. simpl. rewrite IH by done. by apply handle_keeps_snapshot.
Qed.

(** X10.  Recording an event on a stream and waiting for it on another hands
    over what the first stream knew: if [current[s0][t]] was [k] when the event
    was recorded, then after the wait on [s1] every access of stream [t]
    numbered at most [k] is ordered before [s1], whatever handler calls came
    between the record and the wait, as long as none re-created, deleted or
    re-recorded the event. *)
Theorem wait_after_record_orders (h : EventHandler.t) (event s0 s1 t k n : Z)
    (evs : list Event) :
  clock (EventHandler.syncs h) s0 t = Some k →
  n ≤ k →
  Forall (λ ev, rewrites_snapshot event ev = false) evs →
  let h1 := (handle (EventRecord event s0) h).2 in
  let h2 := (replay evs h1).2 in
  let h3 := (handle (EventWait event s1) h2).2 in
  (StreamSynchronizations.is_ordered_after s1 n t (EventHandler.syncs h3)).1 =
  Return true.
Proof.
  intros Hk Hn Hevs h1 h2 h3.
  assert (snapshot (EventHandler.syncs h2) event t = Some k) as Hsnap.
  { subst h2. rewrite replay_keeps_snapshot by done. subst h1.
    rewrite handle_syncs, ClockFacts.snapshot_record_state.
    by rewrite bool_decide_eq_true_2. }
  rewrite SyncFacts.is_ordered_after_eq. simpl. f_equal. apply Z.leb_le.
  subst h3. unfold clock_value at 1.
  rewrite handle_syncs, ClockFacts.clock_state_wait_for_event.
  rewrite bool_decide_eq_true_2, Hsnap by done. simpl. lia.
Qed.

Lemma wait_after_record_orders_witness :
  let tensor_names : gmap Z (list string) := {[ 11 := ["x"] ]} in
  let h := (replay [KernelLaunch 0 [] [11] "op" tensor_names []]
              EventHandler.__init__).2 in
  let evs := [KernelLaunch 0 [] [11] "op" tensor_names []; StreamCreation 1] in
  clock (EventHandler.syncs h) 0 0 = Some 1 ∧
  1 ≤ 1 ∧
  Forall (λ ev, rewrites_snapshot 5 ev = false) evs ∧
  (StreamSynchronizations.is_ordered_after 1 1 0
     (EventHandler.syncs
        (handle (EventWait 5 1)
           (replay evs (handle (EventRecord 5 0) h).2).2).2)).1 =
  Return true.
Proof.
  intros tensor_names h evs.
  assert (clock (EventHandler.syncs h) 0 0 = Some 1) as H1 by reflexivity.
  assert (1 ≤ 1) as H2 by lia.
  assert (Forall (λ ev, rewrites_snapshot 5 ev = false) evs) as H3
    by (repeat constructor).
  exact (conj H1 (conj H2 (conj H3
           (wait_after_record_orders h 5 0 1 0 1 1 evs H1 H2 H3)))).
Defined.

Lemma replay_app evs evs' h :
  replay (evs ++ evs') h =
  ((replay evs h).1 ++ (replay evs' (replay evs h).2).1,
   (replay evs' (replay evs h).2).2).
Proof.
  revert h. induction evs as [|ev evs IH]; intros h.
  - simpl. by destruct (replay evs' h).
  - rewrite <-app_comm_cons, !replay_cons. simpl. by rewrite IH.
Qed.

Lemma handle_clock_value_mono ev h last u t :
  0 ≤ EventHandler.seq_num h → handler_inv last h →
  clock_value (EventHandler.syncs h) u t ≤
  clock_value (EventHandler.syncs (handle ev h).2) u t.
Proof.
  intros Hn [_ Hinv]. rewrite handle_syncs. unfold clock_value.
  destruct ev.
  - rewrite (SyncFacts.backfilled_clock _ _ _ _
               (_handle_kernel_launch_syncs _ _ _ _ _ _ _)).
    rewrite ClockFacts.clock_update_seq_num. case_bool_decide as Hut; [|done].
    destruct Hut as [-> ->]. rewrite (self_is_last _ _ _ Hinv).
    destruct (last stream) as [k|] eqn:Hk; simpl; [|lia].
    apply (last_bounds _ _ _ Hinv) in Hk. lia.
  - by rewrite ClockFacts.clock_create_event.
  - by rewrite ClockFacts.clock_delete_event.
  - by rewrite ClockFacts.clock_record_state.
  - rewrite ClockFacts.clock_state_wait_for_event. case_bool_decide; [|done]. subst u.
    destruct (snapshot (EventHandler.syncs h) event t); simpl; [|done].
    unfold clock_value. lia.
  - done.
  - done.
  - by rewrite ClockFacts.clock_create_stream.
Qed.

Lemma replay_clock_value_mono evs : ∀ h last u t,
  0 ≤ EventHandler.seq_num h → handler_inv last h →
  clock_value (EventHandler.syncs h) u t ≤
  clock_value (EventHandler.syncs (replay evs h).2) u t.
Proof.
  induction evs as [|ev evs IH]; intros h last u t Hn Hinv; [done|].
  rewrite replay_cons. simpl.
  destruct (handle_inv ev h last Hn Hinv) as (Hseq & Hinv' & _).
  etrans; [by eapply handle_clock_value_mono|].
  eapply IH; [|exact Hinv'].
  rewrite Hseq. pose proof (seq_num_from_le (EventHandler.seq_num h) [ev]). lia.
Qed.

(** X11.  What a stream knows is never lost: along any trace on a fresh
    handler no entry of a clock ever decreases, so an access that
    [is_ordered_after] once found ordered before a stream is found ordered
    before it ever after. *)
Theorem ordering_is_stable (evs evs' : list Event) (s_cur n s_prev : Z) :
  let σ := EventHandler.syncs (replay evs EventHandler.__init__).2 in
  let σ' := EventHandler.syncs (replay (evs ++ evs') EventHandler.__init__).2 in
  clock_value σ s_cur s_prev ≤ clock_value σ' s_cur s_prev ∧
  ((StreamSynchronizations.is_ordered_after s_cur n s_prev σ).1 = Return true →
   (StreamSynchronizations.is_ordered_after s_cur n s_prev σ').1 = Return true).
Proof.
  intros σ σ'.
  assert (clock_value σ s_cur s_prev ≤ clock_value σ' s_cur s_prev) as Hle.
  { subst σ σ'. rewrite replay_app. simpl.
    destruct (replay_inv evs EventHandler.__init__ (λ _, None)) as (Hseq & Hinv & _);
      [done|apply handler_inv_init|].
    eapply replay_clock_value_mono; [|exact Hinv].
    rewrite Hseq. apply seq_num_from_le. }
  split; [done|].
  rewrite !SyncFacts.is_ordered_after_eq. simpl.
  intros [= Hb]. f_equal. apply Z.leb_le in Hb. apply Z.leb_le. lia.
Qed.

(** X12.  An allocation gives the buffer a history of its own: whatever the
    log held for it (a duplicate allocation included), afterwards the buffer
    has the captured allocation trace, no reads and no write.  A deallocation
    removes the buffer, known or not.  Both return, leave the other buffers,
    the sync table and the counter as they were. *)
Theorem memory_lifecycle (h : EventHandler.t) (data_ptr : Z) (stack_trace : StackSummary) :
  let a := EventHandler._handle_memory_allocation data_ptr stack_trace h in
  let d := EventHandler._handle_memory_deallocation data_ptr h in
  (a.1 = Return tt ∧
   _TensorsAccessed.accesses (EventHandler.tensors_accessed a.2) !! data_ptr =
     Some (TensorInfo.mk (Some stack_trace) [] None) ∧
   (∀ p, p ≠ data_ptr →
      _TensorsAccessed.accesses (EventHandler.tensors_accessed a.2) !! p =
      _TensorsAccessed.accesses (EventHandler.tensors_accessed h) !! p) ∧
   EventHandler.syncs a.2 = EventHandler.syncs h ∧
   EventHandler.seq_num a.2 = EventHandler.seq_num h) ∧
  (d.1 = Return tt ∧
   _TensorsAccessed.accesses (EventHandler.tensors_accessed d.2) !! data_ptr = None ∧
   (∀ p, p ≠ data_ptr →
      _TensorsAccessed.accesses (EventHandler.tensors_accessed d.2) !! p =
      _TensorsAccessed.accesses (EventHandler.tensors_accessed h) !! p) ∧
   EventHandler.syncs d.2 = EventHandler.syncs h ∧
   EventHandler.seq_num d.2 = EventHandler.seq_num h).
Proof.
  intros a d. subst a d.
  destruct (anomalies_never_raise_aux h data_ptr stack_trace) as [Ha Hd].
  rewrite _handle_memory_allocation_state, _handle_memory_deallocation_state. simpl.
  split; split_and!; try done.
  - apply lookup_insert_eq.
  - intros p Hp. by rewrite lookup_insert_ne, lookup_delete_ne.
  - unfold _TensorsAccessed.delete_tensor. rewrite LogFacts.backfill_tensor_lookup.
    simpl. apply lookup_delete_eq.
  - intros p Hp. unfold _TensorsAccessed.delete_tensor.
    rewrite LogFacts.backfill_tensor_lookup. simpl.
    rewrite lookup_delete_ne by done. by apply LogFacts.backfill_tensor_lookup_ne.
Qed.

(** ** When a launch returns *)

Lemma for_each_acc_first_raise {S A B} (body : A → B → M S B) (bad : A → bool)
    (exn : A → Exception) :
  (∀ x acc s, bad x = false → ∃ acc' s', body x acc s = (Return acc', s')) →
  (∀ x acc s, bad x = true → ∃ s', body x acc s = (Raise (exn x), s')) →
  ∀ l acc s,
    match List.find bad l with
    | Some x => ∃ s', for_each_acc body l acc s = (Raise (exn x), s')
    | None => ∃ acc' s', for_each_acc body l acc s = (Return acc', s')
    end.
Proof.
  intros Hgood Hbad. induction l as [|x l IH]; intros acc s; simpl.
  - by eexists _, _.
  - destruct (bad x) eqn:Hx.
    + destruct (Hbad x acc s Hx) as (s' & Hs'). exists s'. by erewrite bind_Raise.
    + destruct (Hgood x acc s Hx) as (acc' & s' & Hs').
      erewrite bind_Return by done. apply IH.
Qed.

Lemma read_write_body_returns stream operator tensor_names stack_trace data_ptr
    error_list h names :
  tensor_names !! data_ptr = Some names →
  ∃ error_list' h',
    EventHandler.read_write_body stream operator tensor_names stack_trace data_ptr
      error_list h = (Return error_list', h').
Proof.
  intros Hnames. unfold EventHandler.read_write_body.
  erewrite bind_Return; last first.
  { rewrite on_tensors_accessed_eq, LogFacts.ensure_tensor_exists_eq. reflexivity. }
  simpl. set (h1 := EventHandler.mk _ _ _).
  pose proof (LogFacts.backfill_tensor_lookup data_ptr (EventHandler.tensors_accessed h))
    as Hinfo.
  set (info := default _ _) in Hinfo.
  erewrite bind_Return by reflexivity. simpl.
  erewrite bind_Return by by apply dict_getitem_eq.
  set (current_access := Access.mk WRITE _ _ _ _ _).
  erewrite bind_Return; last first.
  { rewrite on_tensors_accessed_eq.
    erewrite LogFacts.were_there_reads_since_last_write_eq by exact Hinfo.
    reflexivity. }
  simpl.
  assert (∃ error_list' σ',
    (if match TensorInfo.reads info with [] => false | _ :: _ => true end
     then
       bind (EventHandler.on_tensors_accessed (_TensorsAccessed.get_reads data_ptr))
         (λ reads,
            for_each_acc
              (λ previous_access,
                 EventHandler.check_conflict data_ptr current_access (Some previous_access))
              reads error_list)
     else
       bind (EventHandler.on_tensors_accessed (_TensorsAccessed.get_write data_ptr))
         (λ previous_access,
            EventHandler.check_conflict data_ptr current_access previous_access
              error_list)) h1 =
    (Return error_list',
     EventHandler.mk (EventHandler.tensors_accessed h1) σ' (EventHandler.seq_num h)))
    as (error_list' & σ' & Hchecks).
  { destruct (TensorInfo.reads info) as [|r reads] eqn:Hreads.
    - erewrite bind_Return; last first.
      { rewrite on_tensors_accessed_eq.
        erewrite LogFacts.get_write_eq by exact Hinfo. reflexivity. }
      simpl. destruct (TensorInfo.write info) as [w|] eqn:Hw.
      + erewrite (check_conflict_eq _ _ _ _ h1) by exact Hinfo. by eexists _, _.
      + by eexists _, _.
    - erewrite bind_Return; last first.
      { rewrite on_tensors_accessed_eq.
        erewrite LogFacts.get_reads_eq by exact Hinfo. reflexivity. }
      simpl.
      destruct (check_conflict_loop_eq data_ptr current_access info
                  (TensorInfo.reads info) error_list h1 Hinfo) as (σ' & Hloop & _).
      by eexists _, _. }
  erewrite bind_Return by exact Hchecks.
  erewrite bind_Return; last first.
  { rewrite on_tensors_accessed_eq. simpl.
    unfold _TensorsAccessed.set_write. simpl in Hinfo. rewrite Hinfo. reflexivity. }
  by eexists _, _.
Qed.

Lemma body_unnamed_raises ty stream operator tensor_names stack_trace data_ptr
    error_list h :
  tensor_names !! data_ptr = None →
  ∃ h',
    match ty with
    | READ => EventHandler.read_only_body
    | WRITE => EventHandler.read_write_body
    end stream operator tensor_names stack_trace data_ptr error_list h =
    (Raise (KeyError data_ptr), h').
Proof.
  intros Hnames.
  destruct ty; unfold EventHandler.read_only_body, EventHandler.read_write_body;
    (erewrite bind_Return;
       [|by rewrite on_tensors_accessed_eq, LogFacts.ensure_tensor_exists_eq]);
    (erewrite bind_Return by reflexivity);
    (erewrite bind_Raise; [by eexists|]);
    unfold dict_getitem; by rewrite Hnames.
Qed.

Lemma _handle_kernel_launch_outcome (h : EventHandler.t) (stream : Z)
    (read_only read_write : list Z) (operator : string)
    (tensor_names : gmap Z (list string)) (stack_trace : StackSummary) :
  match first_unnamed tensor_names read_only read_write with
  | Some data_ptr =>
      (EventHandler._handle_kernel_launch stream read_only read_write operator
         tensor_names stack_trace h).1 = Raise (KeyError data_ptr)
  | None =>
      ∃ error_list,
        (EventHandler._handle_kernel_launch stream read_only read_write operator
           tensor_names stack_trace h).1 = Return error_list
  end.
Proof.
  unfold EventHandler._handle_kernel_launch.
  erewrite bind_Return by reflexivity.
  erewrite bind_Return by reflexivity.
  erewrite bind_Return; last first.
  { rewrite on_syncs_eq, SyncFacts.update_seq_num_eq. reflexivity. }
  set (h1 := EventHandler.mk _ _ _).
  assert (∀ ty l acc s,
    match List.find (unnamed tensor_names) l with
    | Some x =>
        ∃ s', for_each_acc
                (match ty with
                 | READ => EventHandler.read_only_body
                 | WRITE => EventHandler.read_write_body
                 end stream operator tensor_names stack_trace) l acc s
              = (Raise (KeyError x), s')
    | None =>
        ∃ acc' s', for_each_acc
                     (match ty with
                      | READ => EventHandler.read_only_body
                      | WRITE => EventHandler.read_write_body
                      end stream operator tensor_names stack_trace) l acc s
                   = (Return acc', s')
    end) as Hloop.
  { intros ty. apply (for_each_acc_first_raise _ (unnamed tensor_names) KeyError).
    - intros x acc s Hx. unfold unnamed in Hx.
      destruct (tensor_names !! x) as [names|] eqn:Hnames; [|done].
      destruct ty.
      + destruct (read_only_body_eq stream operator tensor_names stack_trace x acc s
                    names Hnames) as (h' & Heq & _). by eexists _, _.
      + by eapply read_write_body_returns.
    - intros x acc s Hx. unfold unnamed in Hx.
      destruct (tensor_names !! x) as [names|] eqn:Hnames; [done|].
      by apply body_unnamed_raises. }
  unfold first_unnamed.
  pose proof (Hloop READ read_only [] h1) as Hro.
  assert (List.find (unnamed tensor_names) (read_only ++ read_write) =
          match List.find (unnamed tensor_names) read_only with
          | Some x => Some x
          | None => List.find (unnamed tensor_names) read_write
          end) as ->.
  { clear. induction read_only as [|x l IH]; simpl; [done|].
    by destruct (unnamed tensor_names x). }
  destruct (List.find (unnamed tensor_names) read_only) as [x|].
  - destruct Hro as (s' & Hro). by erewrite bind_Raise.
  - destruct Hro as (acc' & s' & Hro). erewrite bind_Return by exact Hro.
    pose proof (Hloop WRITE read_write acc' s') as Hrw.
    destruct (List.find (unnamed tensor_names) read_write) as [x|].
    + destruct Hrw as (s'' & Hrw). by erewrite bind_Raise.
    + destruct Hrw as (acc'' & s'' & Hrw). erewrite bind_Return by exact Hrw.
      by eexists.
Qed.

(** X13.  A launch raises exactly when [tensor_names] misses one of its
    pointers: it then raises [KeyError] for the first such pointer, in the
    order [read_only] then [read_write]; when every pointer is named it
    returns its error list, in any state of the handler (unknown buffers and
    streams are back-filled, never looked up in vain). *)
Theorem launch_raises_for_unnamed_pointer_only (h : EventHandler.t) (stream : Z)
    (read_only read_write : list Z) (operator : string)
    (tensor_names : gmap Z (list string)) (stack_trace : StackSummary) :
  let r := (EventHandler._handle_kernel_launch stream read_only read_write operator
              tensor_names stack_trace h).1 in
  match first_unnamed tensor_names read_only read_write with
  | Some data_ptr => r = Raise (KeyError data_ptr)
  | None => ∃ error_list, r = Return error_list
  end.
Proof.
  intros r. subst r.
  apply (_handle_kernel_launch_outcome h stream read_only read_write operator
           tensor_names stack_trace).
Qed.

(** X14.  The body of the loop over [read_only], run on a buffer whose name
    list [tensor_names] knows: the new READ access is checked against the last
    write of the buffer only, never against earlier reads; one error is
    appended when there is a last write that the sync table does not order
    before the launching stream, none otherwise.  Afterwards the access is the
    last of the reads of the buffer, whose write and allocation trace stay. *)
Theorem read_only_body_checks (stream : Z) (operator : string)
    (tensor_names : gmap Z (list string)) (stack_trace : StackSummary)
    (data_ptr : Z) (error_list : list UnsynchronizedAccessError.t)
    (h : EventHandler.t) (names : list string) :
  tensor_names !! data_ptr = Some names →
  let info := default (TensorInfo.mk None [] None)
                (_TensorsAccessed.accesses (EventHandler.tensors_accessed h) !! data_ptr) in
  let current_access :=
    Access.mk READ (EventHandler.seq_num h) stream operator names stack_trace in
  let new_errors :=
    match TensorInfo.write info with
    | Some w =>
        if Access.seq_num w <=?
           clock_value (EventHandler.syncs h) stream (Access.stream w)
        then []
        else [UnsynchronizedAccessError.mk data_ptr
                (TensorInfo.allocation_stack_trace info) current_access w]
    | None => []
    end in
  ∃ h',
    EventHandler.read_only_body stream operator tensor_names stack_trace data_ptr
      error_list h = (Return (error_list ++ new_errors), h') ∧
    _TensorsAccessed.get_reads data_ptr (EventHandler.tensors_accessed h') =
      (Return (TensorInfo.reads info ++ [current_access]),
       EventHandler.tensors_accessed h') ∧
    _TensorsAccessed.get_write data_ptr (EventHandler.tensors_accessed h') =
      (Return (TensorInfo.write info), EventHandler.tensors_accessed h') ∧
    _TensorsAccessed.get_allocation_stack_trace data_ptr
      (EventHandler.tensors_accessed h') =
      (Return (TensorInfo.allocation_stack_trace info),
       EventHandler.tensors_accessed h').
Proof.
  intros Hnames info current_access new_errors.
  destruct (read_only_body_eq stream operator tensor_names stack_trace data_ptr
              error_list h names Hnames) as (h' & Heq & Hlookup & _).
  exists h'. split_and!.
  - rewrite Heq. f_equal. f_equal. f_equal. subst new_errors. fold info.
    unfold conflicts, unordered. destruct (TensorInfo.write info) as [w|]; [|done].
    simpl. fold current_access. by destruct (Access.seq_num w <=? _).
  - by erewrite LogFacts.get_reads_eq by exact Hlookup.
  - by erewrite LogFacts.get_write_eq by exact Hlookup.
  - by erewrite LogFacts.get_allocation_stack_trace_eq by exact Hlookup.
Qed.

Lemma read_only_body_checks_witness :
  let writer := Access.mk WRITE 1 1 "op" ["out"] [] in
  let h := EventHandler.mk
             (_TensorsAccessed.mk {[ 11 := TensorInfo.mk None [] (Some writer) ]})
             (StreamSynchronizations.mk {[ 0 := {[ 0 := 2 ]} ]} ∅) 2 in
  let tensor_names : gmap Z (list string) := {[ 11 := ["x"] ]} in
  let current_access := Access.mk READ 2 0 "op" ["x"] [] in
  tensor_names !! 11 = Some ["x"] ∧
  ∃ h',
    EventHandler.read_only_body 0 "op" tensor_names [] 11 [] h =
      (Return ([] ++ [UnsynchronizedAccessError.mk 11 None current_access writer]), h') ∧
    _TensorsAccessed.get_reads 11 (EventHandler.tensors_accessed h') =
      (Return ([] ++ [current_access]), EventHandler.tensors_accessed h') ∧
    _TensorsAccessed.get_write 11 (EventHandler.tensors_accessed h') =
      (Return (Some writer), EventHandler.tensors_accessed h') ∧
    _TensorsAccessed.get_allocation_stack_trace 11 (EventHandler.tensors_accessed h') =
      (Return None, EventHandler.tensors_accessed h').
Proof.
  intros writer h tensor_names current_access.
  assert (tensor_names !! 11 = Some ["x"]) as H by reflexivity.
  split; [exact H|].
  exact (read_only_body_checks 0 "op" tensor_names [] 11 [] h ["x"] H).
Defined.

(** ** The history of a buffer *)

Lemma history_ordered_reading_weaken n ta :
  history_ordered_reading n ta → history_ordered n ta.
Proof.
  intros H p info Hp. destruct (H p info Hp) as (Ho & Hr & Hw). split; [done|].
  unfold accesses_of. apply Forall_app. split; [done|].
  destruct (TensorInfo.write info) as [w|]; simpl; [|constructor].
  constructor; [|constructor]. specialize (Hw w eq_refl). lia.
Qed.

Lemma history_ordered_next n ta :
  history_ordered n ta → history_ordered_reading (n + 1) ta.
Proof.
  intros H p info Hp. destruct (H p info Hp) as (Ho & Ha). split; [done|].
  unfold accesses_of in Ha. apply Forall_app in Ha as [Hr Hw]. split.
  - eapply Forall_impl; [exact Hr|]. intros a Ha. simpl in Ha |- *. lia.
  - intros w Hwr. rewrite Hwr in Hw. simpl in Hw.
    rewrite Forall_singleton in Hw. lia.
Qed.

Lemma history_fresh n alloc :
  writer_older_than_readers (TensorInfo.mk alloc [] None) ∧
  Forall (λ a, Access.seq_num a ≤ n) (accesses_of (TensorInfo.mk alloc [] None)).
Proof. split; [done|constructor]. Qed.

Lemma history_ordered_backfill n data_ptr ta :
  history_ordered n ta → history_ordered n (backfill_tensor data_ptr ta).
Proof.
  intros H p info. rewrite backfill_tensor_lookup_cases. case_bool_decide; [|apply H].
  subst p. destruct (_TensorsAccessed.accesses ta !! data_ptr) as [i|] eqn:Hi; simpl.
  - intros [= <-]. by eapply H.
  - intros [= <-]. apply history_fresh.
Qed.

Lemma history_ordered_reading_backfill n data_ptr ta :
  history_ordered_reading n ta → history_ordered_reading n (backfill_tensor data_ptr ta).
Proof.
  intros H p info. rewrite backfill_tensor_lookup_cases. case_bool_decide; [|apply H].
  subst p. destruct (_TensorsAccessed.accesses ta !! data_ptr) as [i|] eqn:Hi; simpl.
  - intros [= <-]. by eapply H.
  - intros [= <-]. split_and!; [done|constructor|done].
Qed.

Lemma history_ordered_reading_add_read n data_ptr a ta :
  Access.seq_num a = n →
  history_ordered_reading n ta →
  history_ordered_reading n (_TensorsAccessed.add_read data_ptr a ta).2.
Proof.
  intros Ha H p info. rewrite add_read_lookup. case_bool_decide; [|apply H].
  subst p. destruct (_TensorsAccessed.accesses ta !! data_ptr) as [i|] eqn:Hi; simpl;
    [|done].
  intros [= <-]. destruct (H _ _ Hi) as (Ho & Hr & Hw). simpl. split_and!; [| |done].
  - intros w Hwr. simpl in *. apply Forall_app. split; [by apply Ho|].
    constructor; [|constructor]. specialize (Hw w Hwr). lia.
  - apply Forall_app. split; [done|]. constructor; [lia|constructor].
Qed.

Lemma history_ordered_set_write n data_ptr a ta :
  Access.seq_num a = n →
  history_ordered n ta →
  history_ordered n (_TensorsAccessed.set_write data_ptr a ta).2.
Proof.
  intros Ha H p info. rewrite set_write_lookup. case_bool_decide; [|apply H].
  subst p. destruct (_TensorsAccessed.accesses ta !! data_ptr) as [i|] eqn:Hi; simpl;
    [|done].
  intros [= <-]. split.
  - intros w _. constructor.
  - unfold accesses_of. simpl. constructor; [lia|constructor].
Qed.

Lemma _handle_kernel_launch_history stream read_only read_write operator tensor_names
    stack_trace h :
  history_ordered (EventHandler.seq_num h) (EventHandler.tensors_accessed h) →
  let h' := (EventHandler._handle_kernel_launch stream read_only read_write operator
               tensor_names stack_trace h).2 in
  history_ordered (EventHandler.seq_num h') (EventHandler.tensors_accessed h').
Proof.
  intros Hh h'. subst h'.
  set (n := EventHandler.seq_num h + 1).
  set (Ir := λ h' : EventHandler.t,
         EventHandler.seq_num h' = n ∧
         history_ordered_reading n (EventHandler.tensors_accessed h')).
  set (Iw := λ h' : EventHandler.t,
         EventHandler.seq_num h' = n ∧
         history_ordered n (EventHandler.tensors_accessed h')).
  assert (wp (EventHandler._handle_kernel_launch stream read_only read_write operator
                tensor_names stack_trace) (keeps Iw (λ _, True)) h) as Hwp.
  { unfold EventHandler._handle_kernel_launch.
    apply wp_bind, wp_modify. apply wp_bind, wp_gets. simpl.
    apply wp_bind, wp_on_syncs. simpl.
    assert ((StreamSynchronizations.update_seq_num stream n (EventHandler.syncs h)).1
            = Return tt) as Hret by by rewrite SyncFacts.update_seq_num_eq.
    fold n. rewrite Hret.
    apply wp_bind. eapply wp_mono.
    { apply (wp_for_each_acc Ir (λ _, True)); [|done|].
      - intros p acc s Hp _ Hs.
        apply (read_only_body_keeps n stream operator tensor_names stack_trace
                 read_only read_write Ir (λ _, True)); [| | | |done..].
        + by intros h' [? _].
        + intros dp h' _ [? ?]. split; [done|].
          by apply history_ordered_reading_backfill.
        + by intros σ' h' _ [? ?].
        + intros dp names h' _ _ [? ?]. split; [done|].
          by apply history_ordered_reading_add_read.
      - split; [done|]. simpl. by apply history_ordered_next. }
    intros [error_list|e] h2 [[Hn2 HI2] _];
      [|split; [split; [done|by apply history_ordered_reading_weaken]|done]].
    apply wp_bind. eapply wp_mono.
    { apply (wp_for_each_acc Iw (λ _, True)); [|done|].
      - intros p acc s Hp _ Hs.
        apply (read_write_body_keeps n stream operator tensor_names stack_trace
                 read_only read_write Iw (λ _, True)); [| | | |done..].
        + by intros h' [? _].
        + intros dp h' _ [? ?]. split; [done|]. by apply history_ordered_backfill.
        + by intros σ' h' _ [? ?].
        + intros dp names h' _ _ [? ?]. split; [done|].
          by apply history_ordered_set_write.
      - split; [done|]. by apply history_ordered_reading_weaken. }
    intros [error_list'|e] h3 [HI3 _]; [|done].
    by apply wp_ret. }
  unfold wp, keeps in Hwp. destruct Hwp as [[Hn' Hh'] _]. by rewrite Hn'.
Qed.

Lemma handle_history ev h :
  history_ordered (EventHandler.seq_num h) (EventHandler.tensors_accessed h) →
  history_ordered (EventHandler.seq_num (handle ev h).2)
    (EventHandler.tensors_accessed (handle ev h).2).
Proof.
  intros Hh. destruct ev; try (simpl; rewrite returning_None_state).
  - rewrite handle_KernelLaunch_state. by apply _handle_kernel_launch_history.
  - unfold EventHandler._handle_event_creation. by rewrite on_syncs_eq.
  - unfold EventHandler._handle_event_deletion. by rewrite on_syncs_eq.
  - unfold EventHandler._handle_event_record. by rewrite on_syncs_eq.
  - unfold EventHandler._handle_event_wait. by rewrite on_syncs_eq.
  - rewrite _handle_memory_allocation_state. simpl. intros p info. simpl.
    destruct (decide (p = data_ptr)) as [->|Hne].
    + rewrite lookup_insert_eq. intros [= <-]. apply history_fresh.
    + rewrite lookup_insert_ne, lookup_delete_ne by done. apply Hh.
  - rewrite _handle_memory_deallocation_state. simpl. intros p info. simpl.
    unfold _TensorsAccessed.delete_tensor. rewrite LogFacts.backfill_tensor_lookup.
    simpl. intros [_ Hp]%lookup_delete_Some.
    by eapply history_ordered_backfill.
  - unfold EventHandler._handle_stream_creation. by rewrite on_syncs_eq.
Qed.

(** X15.  Along any trace on a fresh handler, for every buffer of the log the
    last write is strictly older than every read kept since (a write clears
    the reads, and the reads of a launch come before its writes), and no
    access is numbered above the counter. *)
Theorem reads_are_newer_than_the_write (evs : list Event) :
  let h := (replay evs EventHandler.__init__).2 in
  map_Forall (λ _ info,
      writer_older_than_readers info ∧
      Forall (λ a, Access.seq_num a ≤ EventHandler.seq_num h) (accesses_of info))
    (_TensorsAccessed.accesses (EventHandler.tensors_accessed h)).
Proof.
  intros h. subst h.
  assert (∀ h, history_ordered (EventHandler.seq_num h) (EventHandler.tensors_accessed h) →
               history_ordered (EventHandler.seq_num (replay evs h).2)
                 (EventHandler.tensors_accessed (replay evs h).2)) as Hgen.
  { induction evs as [|ev evs IH]; intros h Hh; [done|].
    rewrite replay_cons. simpl. by apply IH, handle_history. }
  apply Hgen. intros p info Hp. simpl in Hp. by rewrite lookup_empty in Hp.
Qed.

(** ** One stream alone *)

Lemma log_on_stream_mono stream n n' ta :
  n ≤ n' → log_on_stream stream n ta → log_on_stream stream n' ta.
Proof.
  intros Hn H p info Hp. eapply Forall_impl; [by eapply H|].
  intros a [? ?]. split; [done|lia].
Qed.

Lemma log_on_stream_backfill stream n data_ptr ta :
  log_on_stream stream n ta → log_on_stream stream n (backfill_tensor data_ptr ta).
Proof.
  intros H p info. rewrite backfill_tensor_lookup_cases. case_bool_decide; [|apply H].
  subst p. destruct (_TensorsAccessed.accesses ta !! data_ptr) as [i|] eqn:Hi; simpl.
  - intros [= <-]. by eapply H.
  - intros [= <-]. constructor.
Qed.

Lemma log_on_stream_add_read stream n data_ptr a ta :
  Access.stream a = stream → Access.seq_num a ≤ n →
  log_on_stream stream n ta →
  log_on_stream stream n (_TensorsAccessed.add_read data_ptr a ta).2.
Proof.
  intros Hs Hn H p info. rewrite add_read_lookup. case_bool_decide; [|apply H].
  subst p. destruct (_TensorsAccessed.accesses ta !! data_ptr) as [i|] eqn:Hi; simpl;
    [|done].
  intros [= <-]. specialize (H _ _ Hi). unfold accesses_of in *. simpl.
  rewrite Forall_app in H. destruct H as [Hr Hw].
  rewrite !Forall_app. split_and!; [done| |done]. by repeat constructor.
Qed.

Lemma log_on_stream_set_write stream n data_ptr a ta :
  Access.stream a = stream → Access.seq_num a ≤ n →
  log_on_stream stream n ta →
  log_on_stream stream n (_TensorsAccessed.set_write data_ptr a ta).2.
Proof.
  intros Hs Hn H p info. rewrite set_write_lookup. case_bool_decide; [|apply H].
  subst p. destruct (_TensorsAccessed.accesses ta !! data_ptr) as [i|] eqn:Hi; simpl;
    [|done].
  intros [= <-]. unfold accesses_of. simpl. by repeat constructor.
Qed.

Lemma _handle_kernel_launch_on_stream stream read_only read_write operator tensor_names
    stack_trace h :
  log_on_stream stream (EventHandler.seq_num h) (EventHandler.tensors_accessed h) →
  wp (EventHandler._handle_kernel_launch stream read_only read_write operator
        tensor_names stack_trace)
     (keeps (λ h', log_on_stream stream (EventHandler.seq_num h')
                     (EventHandler.tensors_accessed h'))
        (λ error_list, error_list = [])) h.
Proof.
  intros Hlog.
  set (n := EventHandler.seq_num h + 1).
  set (σ0 := (StreamSynchronizations.update_seq_num stream n (EventHandler.syncs h)).2).
  eapply wp_mono.
  { apply (_handle_kernel_launch_keeps stream read_only read_write operator
             tensor_names stack_trace
             (λ h', EventHandler.seq_num h' = n ∧
                    backfilled σ0 (EventHandler.syncs h') ∧
                    log_on_stream stream n (EventHandler.tensors_accessed h'))
             (λ error_list, error_list = []) h); fold n σ0.
    - by intros h' [? _].
    - intros data_ptr h' _ (? & ? & ?). split_and!; [done..|].
      by apply log_on_stream_backfill.
    - intros σ' h' Hb (? & ? & ?). split_and!; [done| |done].
      by eapply SyncFacts.backfilled_trans.
    - intros data_ptr names h' _ _ (? & ? & ?). split_and!; [done..|].
      by apply log_on_stream_add_read.
    - intros data_ptr names h' _ _ (? & ? & ?). split_and!; [done..|].
      by apply log_on_stream_set_write.
    - intros ty data_ptr names info p error_list h' (_ & Hσ & Hl) _ _ _ Hinfo Hp Hun.
      exfalso. apply checked_against_accesses_of in Hp.
      specialize (Hl _ _ Hinfo). rewrite Forall_forall in Hl.
      destruct (Hl _ Hp) as [Hs Hle].
      unfold unordered in Hun. simpl in Hun.
      rewrite Hs, (SyncFacts.backfilled_clock_value _ _ _ _ Hσ) in Hun.
      subst σ0. unfold clock_value in Hun. rewrite clock_after_update_seq_num in Hun.
      simpl in Hun. apply negb_true_iff, Z.leb_gt in Hun. lia.
    - split_and!; [done|apply SyncFacts.backfilled_refl|]. simpl.
      eapply log_on_stream_mono; [|exact Hlog]. lia.
    - done. }
  intros r h' [(Hn & _ & Hl) HJ]. split; [by rewrite Hn|done].
Qed.

Lemma handle_on_stream stream ev h :
  launches_on stream ev →
  log_on_stream stream (EventHandler.seq_num h) (EventHandler.tensors_accessed h) →
  log_on_stream stream (EventHandler.seq_num (handle ev h).2)
    (EventHandler.tensors_accessed (handle ev h).2) ∧
  errors_satisfy (λ _, False) (handle ev h).1.
Proof.
  intros Hev Hlog.
  destruct ev as [s read_only read_write operator tensor_names stack_trace
                 |event|event|event s|event s|data_ptr stack_trace|data_ptr|s]; simpl;
    try (rewrite returning_None_state; split;
         [|pose proof (returning_None_result (S := EventHandler.t)) as Hn;
           match goal with |- errors_satisfy _ (returning_None ?m ?s).1 =>
             specialize (Hn m s);
             destruct (returning_None m s).1 as [[l|]|]; [by destruct (Hn l)|done..]
           end]).
  - simpl in Hev. subst s.
    pose proof (_handle_kernel_launch_on_stream stream read_only read_write operator
                  tensor_names stack_trace h Hlog) as Hwp.
    unfold wp, keeps in Hwp. unfold bind at 1 2 3.
    destruct (EventHandler._handle_kernel_launch _ _ _ _ _ _ h) as [[l|e] h'];
      simpl in *; destruct Hwp as [? HJ]; [|done].
    subst l. split; [done|constructor].
  - unfold EventHandler._handle_event_creation. by rewrite on_syncs_eq.
  - unfold EventHandler._handle_event_deletion. by rewrite on_syncs_eq.
  - unfold EventHandler._handle_event_record. by rewrite on_syncs_eq.
  - unfold EventHandler._handle_event_wait. by rewrite on_syncs_eq.
  - rewrite _handle_memory_allocation_state. simpl. intros p info. simpl.
    destruct (decide (p = data_ptr)) as [->|Hne].
    + rewrite lookup_insert_eq. intros [= <-]. constructor.
    + rewrite lookup_insert_ne, lookup_delete_ne by done. apply Hlog.
  - rewrite _handle_memory_deallocation_state. simpl. intros p info. simpl.
    unfold _TensorsAccessed.delete_tensor. rewrite LogFacts.backfill_tensor_lookup.
    simpl. intros [_ Hp]%lookup_delete_Some.
    by eapply log_on_stream_backfill.
  - unfold EventHandler._handle_stream_creation. by rewrite on_syncs_eq.
Qed.

(** X16.  A program that launches on one stream only is never reported: on a
    fresh handler, if every launch of the trace is on the same stream, every
    launch that returns returns the empty list, whatever events are created,
    recorded, waited for or deleted and whatever memory is allocated or freed
    in between. *)
Theorem single_stream_never_races (stream : Z) (evs : list Event) :
  Forall (launches_on stream) evs →
  Forall (errors_satisfy (λ _, False)) (replay evs EventHandler.__init__).1.
Proof.
  intros Hevs.
  assert (∀ h, log_on_stream stream (EventHandler.seq_num h)
                 (EventHandler.tensors_accessed h) →
               Forall (errors_satisfy (λ _, False)) (replay evs h).1) as Hgen.
  { induction evs as [|ev evs IH]; intros h Hlog; [constructor|].
    apply Forall_cons in Hevs as [Hev Hevs].
    rewrite replay_cons. simpl. destruct (handle_on_stream stream ev h Hev Hlog).
    constructor; [done|]. by apply IH. }
  apply Hgen. intros p info Hp. simpl in Hp. by rewrite lookup_empty in Hp.
Qed.

Lemma single_stream_never_races_witness :
  let tensor_names : gmap Z (list string) := {[ 11 := ["x"] ]} in
  let evs := [MemoryAllocation 11 []; KernelLaunch 0 [] [11] "op" tensor_names [];
              EventCreation 1; KernelLaunch 0 [11] [] "op" tensor_names [];
              KernelLaunch 0 [11] [11] "op" tensor_names []] in
  Forall (launches_on 0) evs ∧
  Forall (errors_satisfy (λ _, False)) (replay evs EventHandler.__init__).1.
Proof.
  intros tensor_names evs.
  assert (Forall (launches_on 0) evs) as H by (repeat constructor).
  exact (conj H (single_stream_never_races 0 evs H)).
Defined.

(** ** Collecting the arguments of a call *)

Lemma for_each_app {S A} (f : A → M S unit) (l1 l2 : list A) s :
  for_each f (l1 ++ l2) s = bind (for_each f l1) (λ _, for_each f l2) s.
Proof.
  revert s. induction l1 as [|x l1 IH]; intros s; simpl; [done|].
  unfold bind in *. destruct (f x s) as [[[]|e] s1]; [apply IH|done].
Qed.

Lemma for_each_fmap {S A B} (f : B → M S unit) (g : A → B) (l : list A) s :
  for_each f (g <$> l) s = for_each (λ x, f (g x)) l s.
Proof.
  revert s. induction l as [|x l IH]; intros s; simpl; [done|].
  apply bind_ext; [done|]. intros _ s'. apply IH.
Qed.

Lemma parse_inputs_calls {Any} (tree_leaves : Any → list Value) schema args kwargs ah :
  ArgumentHandler.parse_inputs tree_leaves schema args kwargs ah =
  for_each handle_call (calls_of_inputs tree_leaves schema args kwargs) ah.
Proof.
  unfold ArgumentHandler.parse_inputs, calls_of_inputs.
  generalize (zip_arguments schema args kwargs). intros l. revert ah.
  induction l as [|[argument value] l IH]; intros ah; [done|].
  cbn [for_each mbind list_bind]. rewrite for_each_app.
  apply bind_ext; [|intros _ s'; apply IH].
  unfold ArgumentHandler.tree_map. by rewrite for_each_fmap.
Qed.

Lemma parse_outputs_calls {Any} (tree_leaves : Any → list Value) outputs ah :
  ArgumentHandler.parse_outputs tree_leaves outputs ah =
  for_each handle_call (calls_of_outputs tree_leaves outputs) ah.
Proof.
  unfold ArgumentHandler.parse_outputs, calls_of_outputs, ArgumentHandler.tree_map.
  by rewrite for_each_fmap.
Qed.

Lemma handle_call_eq value is_write name ah :
  handle_call (value, is_write, name) ah =
  (Return tt,
   match cuda_pointer value with
   | Some data_ptr =>
       ArgumentHandler.mk
         (if is_write then ArgumentHandler.dataptrs_read ah
          else {[data_ptr]} ∪ ArgumentHandler.dataptrs_read ah)
         (if is_write then {[data_ptr]} ∪ ArgumentHandler.dataptrs_written ah
          else ArgumentHandler.dataptrs_written ah)
         (<[data_ptr := default [] (ArgumentHandler.tensor_names ah !! data_ptr)
                        ++ [name]]> (ArgumentHandler.tensor_names ah))
   | None => ah
   end).
Proof.
  unfold handle_call. simpl. destruct value as [[] data_ptr|]; simpl; [|done..].
  by destruct is_write.
Qed.

Lemma names_for_cons data_ptr value is_write name calls :
  names_for data_ptr ((value, is_write, name) :: calls) =
  if decide (cuda_pointer value = Some data_ptr)
  then name :: names_for data_ptr calls else names_for data_ptr calls.
Proof. unfold names_for. simpl. by destruct (decide _). Qed.

Lemma pointers_with_cons flag value is_write name calls :
  pointers_with flag ((value, is_write, name) :: calls) =
  match cuda_pointer value with
  | Some data_ptr =>
      if decide (is_write = flag) then data_ptr :: pointers_with flag calls
      else pointers_with flag calls
  | None => pointers_with flag calls
  end.
Proof.
  unfold pointers_with. simpl.
  destruct (decide _); [|by destruct (cuda_pointer value)].
  by destruct (cuda_pointer value).
Qed.

Lemma for_each_handle_call calls ah :
  ∃ ah',
    for_each handle_call calls ah = (Return tt, ah') ∧
    ArgumentHandler.dataptrs_written ah' =
      ArgumentHandler.dataptrs_written ah ∪ list_to_set (pointers_with true calls) ∧
    ArgumentHandler.dataptrs_read ah' =
      ArgumentHandler.dataptrs_read ah ∪ list_to_set (pointers_with false calls) ∧
    ∀ data_ptr,
      ArgumentHandler.tensor_names ah' !! data_ptr =
      match names_for data_ptr calls with
      | [] => ArgumentHandler.tensor_names ah !! data_ptr
      | names =>
          Some (default [] (ArgumentHandler.tensor_names ah !! data_ptr) ++ names)
      end.
Proof.
  revert ah. induction calls as [|[[value is_write] name] calls IH]; intros ah.
  - exists ah. simpl. split_and!; [done| | |done].
    + by rewrite union_empty_r_L.
    + by rewrite union_empty_r_L.
  - cbn [for_each]. erewrite bind_Return by apply handle_call_eq.
    match goal with |- context [for_each _ _ ?s] => set (ah1 := s) end.
    destruct (IH ah1) as (ah' & Hrun & Hw & Hr & Hn). exists ah'.
    split; [done|]. rewrite Hw, Hr. clear Hw Hr Hrun.
    rewrite !pointers_with_cons.
    destruct (cuda_pointer value) as [p|] eqn:Hp; subst ah1; cbn [fst snd].
    + split_and!.
      * destruct is_write; simpl; [|done].
        by rewrite (union_comm_L {[p]}), <-union_assoc_L.
      * destruct is_write; simpl; [done|].
        by rewrite (union_comm_L {[p]}), <-union_assoc_L.
      * intros data_ptr. rewrite Hn, names_for_cons, Hp. cbn [ArgumentHandler.tensor_names].
        destruct (decide (Some p = Some data_ptr)) as [[= ->]|Hne].
        -- rewrite lookup_insert_eq.
           destruct (names_for data_ptr calls); simpl; [done|].
           by rewrite <-app_assoc.
        -- by rewrite lookup_insert_ne by congruence.
    + split_and!; [done..|].
      intros data_ptr. rewrite Hn, names_for_cons, Hp. by rewrite decide_False.
Qed.

(** X17.  What the argument handler of one dispatched call has collected once
    the inputs and the outputs are parsed: neither pass raises; the written
    pointers are those of the CUDA tensors among the leaves of arguments whose
    [alias_info] says [is_write] and among all leaves of the outputs; the
    read pointers are those of the CUDA tensors among the leaves of the other
    arguments; and [tensor_names] maps a pointer to the names of the leaves
    that have it, in the order they were visited, with no entry for a pointer
    that no CUDA tensor has.  Tensors that are not on CUDA and objects that
    are no tensors leave no trace. *)
Theorem argument_handler_collects {Any} (tree_leaves : Any → list Value)
    (schema : FunctionSchema.t) (args : list Any) (kwargs : gmap string Any)
    (outputs : Any) :
  let calls := calls_of_inputs tree_leaves schema args kwargs ++
               calls_of_outputs tree_leaves outputs in
  let run := bind (ArgumentHandler.parse_inputs tree_leaves schema args kwargs)
               (λ _, ArgumentHandler.parse_outputs tree_leaves outputs)
               ArgumentHandler.__init__ in
  run.1 = Return tt ∧
  ArgumentHandler.dataptrs_written run.2 = list_to_set (pointers_with true calls) ∧
  ArgumentHandler.dataptrs_read run.2 = list_to_set (pointers_with false calls) ∧
  ∀ data_ptr,
    ArgumentHandler.tensor_names run.2 !! data_ptr =
    match names_for data_ptr calls with
    | [] => None
    | names => Some names
    end.
Proof.
  intros calls run.
  assert (run = for_each handle_call calls ArgumentHandler.__init__) as ->.
  { subst run calls. rewrite for_each_app. apply bind_ext.
    - apply parse_inputs_calls.
    - intros _ s'. apply parse_outputs_calls. }
  destruct (for_each_handle_call calls ArgumentHandler.__init__)
    as (ah' & -> & Hw & Hr & Hn). simpl.
  rewrite Hw, Hr. simpl. rewrite !union_empty_l_L.
  split_and!; [done..|].
  intros data_ptr. rewrite Hn. simpl. by rewrite lookup_empty.
Qed.

Lemma for_each_handle_call_named calls ah :
  named ah → named (for_each handle_call calls ah).2.
Proof.
  revert ah. induction calls as [|[[value is_write] name] calls IH]; intros ah Hah;
    [done|].
  cbn [for_each]. erewrite bind_Return by apply handle_call_eq. apply IH.
  destruct (cuda_pointer value) as [p|]; [|done].
  unfold named in *. simpl. rewrite dom_insert_L, Hah.
  destruct is_write.
  - by rewrite (union_comm_L {[p]} (ArgumentHandler.dataptrs_written ah)),
      (union_comm_L {[p]}), union_assoc_L.
  - by rewrite union_assoc_L.
Qed.

(** X18.  An invariant of the argument handler: when the pointers that have a
    name list are exactly the pointers read or written, this still holds
    after [parse_inputs] and after [parse_outputs], whatever they are given. *)
Theorem parsing_keeps_pointers_named {Any} (tree_leaves : Any → list Value)
    (schema : FunctionSchema.t) (args : list Any) (kwargs : gmap string Any)
    (outputs : Any) (ah : ArgumentHandler.t) :
  named ah →
  named (ArgumentHandler.parse_inputs tree_leaves schema args kwargs ah).2 ∧
  named (ArgumentHandler.parse_outputs tree_leaves outputs ah).2.
Proof.
  intros Hah. rewrite parse_inputs_calls, parse_outputs_calls.
  split; by apply for_each_handle_call_named.
Qed.

Lemma parsing_keeps_pointers_named_witness :
  let tree_leaves : list Value → list Value := λ value, value in
  let schema := FunctionSchema.mk [Argument.mk "self" None] "op" in
  named ArgumentHandler.__init__ ∧
  named (ArgumentHandler.parse_inputs tree_leaves schema [[Tensor true 11]] ∅
           ArgumentHandler.__init__).2 ∧
  named (ArgumentHandler.parse_outputs tree_leaves [Tensor true 12]
           ArgumentHandler.__init__).2.
Proof.
  intros tree_leaves schema.
  assert (named ArgumentHandler.__init__) as H.
  { unfold named. simpl. rewrite dom_empty_L. by rewrite union_empty_l_L. }
  exact (conj H (parsing_keeps_pointers_named tree_leaves schema [[Tensor true 11]] ∅
                   [Tensor true 12] ArgumentHandler.__init__ H)).
Defined.

(** ** A dispatched call *)

Lemma find_unnamed_None (tensor_names : gmap Z (list string)) (l : list Z) :
  (∀ data_ptr, data_ptr ∈ l → is_Some (tensor_names !! data_ptr)) →
  List.find (unnamed tensor_names) l = None.
Proof.
  induction l as [|x l IH]; intros Hl; simpl; [done|].
  destruct (Hl x) as [names Hx]; [by left|].
  unfold unnamed at 1. rewrite Hx. apply IH. intros p Hp. apply Hl. by right.
Qed.

Lemma named_init : named ArgumentHandler.__init__.
Proof. unfold named. simpl. by rewrite dom_empty_L, union_empty_l_L. Qed.

Section dispatch_facts.
Context {Any : Type} (tree_leaves : Any → list Value).
Variable list_of_set : gset Z → list Z.
Hypothesis list_of_set_sound : ∀ X data_ptr, data_ptr ∈ list_of_set X → data_ptr ∈ X.

Lemma dispatch_pointers_named schema args (kwargs : gmap string Any) outputs :
  let ah := (bind (ArgumentHandler.parse_inputs tree_leaves schema args kwargs)
               (λ _, ArgumentHandler.parse_outputs tree_leaves outputs)
               ArgumentHandler.__init__).2 in
  first_unnamed (ArgumentHandler.tensor_names ah)
    (list_of_set (ArgumentHandler.dataptrs_read ah ∖ ArgumentHandler.dataptrs_written ah))
    (list_of_set (ArgumentHandler.dataptrs_written ah)) = None.
Proof.
  intros ah.
  assert (named ah) as Hnamed.
  { subst ah.
    assert (∀ s, bind (ArgumentHandler.parse_inputs tree_leaves schema args kwargs)
                   (λ _, ArgumentHandler.parse_outputs tree_leaves outputs) s =
                 for_each handle_call
                   (calls_of_inputs tree_leaves schema args kwargs ++
                    calls_of_outputs tree_leaves outputs) s) as ->.
    { intros s. rewrite for_each_app. apply bind_ext.
      - apply parse_inputs_calls.
      - intros _ s'. apply parse_outputs_calls. }
    apply for_each_handle_call_named, named_init. }
  apply find_unnamed_None. intros p Hp. apply elem_of_dom. rewrite Hnamed.
  apply elem_of_app in Hp as [Hp|Hp]; apply list_of_set_sound in Hp.
  - apply elem_of_union_l. by apply elem_of_difference in Hp as [? _].
  - by apply elem_of_union_r.
Qed.

Lemma dispatch_cases schema args kwargs outputs cuda_stream stack_trace event_handler :
  ∃ kwargs' error_list event_handler',
    let ah := (bind (ArgumentHandler.parse_inputs tree_leaves schema args kwargs')
                 (λ _, ArgumentHandler.parse_outputs tree_leaves outputs)
                 ArgumentHandler.__init__).2 in
    EventHandler._handle_kernel_launch cuda_stream
      (list_of_set (ArgumentHandler.dataptrs_read ah ∖
                    ArgumentHandler.dataptrs_written ah))
      (list_of_set (ArgumentHandler.dataptrs_written ah))
      (FunctionSchema.repr schema) (ArgumentHandler.tensor_names ah)
      stack_trace event_handler = (Return error_list, event_handler') ∧
    __torch_dispatch__ tree_leaves list_of_set schema args kwargs outputs cuda_stream
      stack_trace event_handler =
    (match error_list with
     | [] => Outputs outputs
     | _ :: _ => CUDASanitizerErrors error_list
     end, event_handler').
Proof.
  unfold __torch_dispatch__.
  set (kwargs' := match kwargs with Some kwargs => kwargs | None => ∅ end).
  exists kwargs'. cbv zeta.
  set (ah := (bind _ _ ArgumentHandler.__init__).2).
  pose proof (_handle_kernel_launch_outcome event_handler cuda_stream
                (list_of_set (ArgumentHandler.dataptrs_read ah ∖
                              ArgumentHandler.dataptrs_written ah))
                (list_of_set (ArgumentHandler.dataptrs_written ah))
                (FunctionSchema.repr schema) (ArgumentHandler.tensor_names ah)
                stack_trace) as Hout.
  subst ah. rewrite dispatch_pointers_named in Hout. destruct Hout as [error_list Hout].
  destruct (EventHandler._handle_kernel_launch _ _ _ _ _ _ event_handler)
    as [r event_handler'] eqn:Hlaunch.
  simpl in Hout. subst r. exists error_list, event_handler'.
  split; [done|]. by destruct error_list.
Qed.
End dispatch_facts.

(** X19.  A dispatched call never ends with an exception of the launch
    handler: every pointer the argument handler passes on has its name list,
    so no [KeyError] is raised.  The call ends with the outputs of the kernel
    or with [CUDASanitizerErrors] on a list that is not empty.  Of [list] on a
    set only this is used: it gives elements of the set. *)
Theorem dispatch_never_propagates {Any} (tree_leaves : Any → list Value)
    (list_of_set : gset Z → list Z) (schema : FunctionSchema.t) (args : list Any)
    (kwargs : option (gmap string Any)) (outputs : Any) (cuda_stream : Z)
    (stack_trace : StackSummary) (event_handler : EventHandler.t) :
  (∀ X data_ptr, data_ptr ∈ list_of_set X → data_ptr ∈ X) →
  match (__torch_dispatch__ tree_leaves list_of_set schema args kwargs outputs
           cuda_stream stack_trace event_handler).1 with
  | Outputs returned => returned = outputs
  | CUDASanitizerErrors errors => errors ≠ []
  | Propagated _ => False
  end.
Proof.
  intros Hlist.
  destruct (dispatch_cases tree_leaves list_of_set Hlist schema args kwargs outputs
              cuda_stream stack_trace event_handler)
    as (kwargs' & error_list & event_handler' & _ & ->).
  by destruct error_list.
Qed.

Lemma dispatch_never_propagates_witness :
  let tree_leaves : list Value → list Value := λ value, value in
  let schema := FunctionSchema.mk [Argument.mk "self" None] "op" in
  (∀ (X : gset Z) data_ptr, data_ptr ∈ elements X → data_ptr ∈ X) ∧
  match (__torch_dispatch__ tree_leaves elements schema [[Tensor true 11]] None
           [Tensor true 12] 0 [] EventHandler.__init__).1 with
  | Outputs returned => returned = [Tensor true 12]
  | CUDASanitizerErrors errors => errors ≠ []
  | Propagated _ => False
  end.
Proof.
  intros tree_leaves schema.
  assert (∀ (X : gset Z) data_ptr, data_ptr ∈ elements X → data_ptr ∈ X) as H.
  { intros X data_ptr. apply elem_of_elements. }
  exact (conj H (dispatch_never_propagates tree_leaves elements schema
                   [[Tensor true 11]] None [Tensor true 12] 0 [] EventHandler.__init__ H)).
Defined.

(** X20.  Dispatched calls on one stream go through: when every access in the
    log of the event handler was made on the current stream by a launch
    counted so far, the call returns the outputs of the kernel, and the same
    holds of the log afterwards, so that the next call on the stream returns
    as well. *)
Theorem dispatch_on_one_stream_returns {Any} (tree_leaves : Any → list Value)
    (list_of_set : gset Z → list Z) (schema : FunctionSchema.t) (args : list Any)
    (kwargs : option (gmap string Any)) (outputs : Any) (cuda_stream : Z)
    (stack_trace : StackSummary) (event_handler : EventHandler.t) :
  (∀ X data_ptr, data_ptr ∈ list_of_set X → data_ptr ∈ X) →
  log_on_stream cuda_stream (EventHandler.seq_num event_handler)
    (EventHandler.tensors_accessed event_handler) →
  let dispatched := __torch_dispatch__ tree_leaves list_of_set schema args kwargs
                      outputs cuda_stream stack_trace event_handler in
  dispatched.1 = Outputs outputs ∧
  log_on_stream cuda_stream (EventHandler.seq_num dispatched.2)
    (EventHandler.tensors_accessed dispatched.2).
Proof.
  intros Hlist Hlog dispatched. subst dispatched.
  destruct (dispatch_cases tree_leaves list_of_set Hlist schema args kwargs outputs
              cuda_stream stack_trace event_handler)
    as (kwargs' & error_list & event_handler' & Hlaunch & ->).
  cbv zeta in Hlaunch.
  match type of Hlaunch with
  | EventHandler._handle_kernel_launch _ ?ro ?rw ?op ?names _ _ = _ =>
      pose proof (_handle_kernel_launch_on_stream cuda_stream ro rw op names
                    stack_trace event_handler Hlog) as Hwp
  end.
  unfold wp, keeps in Hwp. rewrite Hlaunch in Hwp. simpl in Hwp.
  destruct Hwp as [Hlog' ->]. done.
Qed.

Lemma dispatch_on_one_stream_returns_witness :
  let tree_leaves : list Value → list Value := λ value, value in
  let schema := FunctionSchema.mk [Argument.mk "self" None; Argument.mk "other" None]
                  "op" in
  let event_handler :=
    EventHandler.mk
      (_TensorsAccessed.mk
         {[ 11 := TensorInfo.mk None [Access.mk READ 2 0 "op" ["self"] []]
                    (Some (Access.mk WRITE 1 0 "op" ["output"] []));
            12 := TensorInfo.mk None [] (Some (Access.mk WRITE 2 0 "op" ["output"] [])) ]})
      (StreamSynchronizations.mk {[ 0 := {[ 0 := 2 ]} ]} ∅) 2 in
  let dispatched := __torch_dispatch__ tree_leaves elements schema
                      [[Tensor true 12]; [Tensor true 11; Other]] None
                      [Tensor true 11] 0 [] event_handler in
  (∀ (X : gset Z) data_ptr, data_ptr ∈ elements X → data_ptr ∈ X) ∧
  log_on_stream 0 (EventHandler.seq_num event_handler)
    (EventHandler.tensors_accessed event_handler) ∧
  dispatched.1 = Outputs [Tensor true 11] ∧
  log_on_stream 0 (EventHandler.seq_num dispatched.2)
    (EventHandler.tensors_accessed dispatched.2).
Proof.
  intros tree_leaves schema event_handler dispatched.
  assert (∀ (X : gset Z) data_ptr, data_ptr ∈ elements X → data_ptr ∈ X) as H.
  { intros X data_ptr. apply elem_of_elements. }
  assert (log_on_stream 0 (EventHandler.seq_num event_handler)
            (EventHandler.tensors_accessed event_handler)) as H0.
  { intros p info Hp. simpl in Hp.
    apply lookup_insert_Some in Hp as [[<- <-]|[_ Hp]].
    - unfold accesses_of. simpl. repeat constructor; simpl; lia.
    - apply lookup_singleton_Some in Hp as [<- <-].
      unfold accesses_of. simpl. repeat constructor; simpl; lia. }
  exact (conj H (conj H0 (dispatch_on_one_stream_returns tree_leaves elements schema
                            [[Tensor true 12]; [Tensor true 11; Other]] None
                            [Tensor true 11] 0 [] event_handler H H0))).
Defined.

(** ** Pairing values with schema arguments *)

Lemma dict_setitem_fresh {V} (k : string) (v : V) (d : list (string * V)) :
  k ∉ d.*1 → dict_setitem k v d = d ++ [(k, v)].
Proof.
  induction d as [|[k' v'] d IH]; intros Hk; simpl; [done|].
  rewrite fmap_cons, not_elem_of_cons in Hk. destruct Hk as [Hne Hk]. simpl in Hne.
  rewrite decide_False by done. by rewrite IH.
Qed.

Lemma dict_of_items_NoDup {V} (kvs : list (string * V)) :
  NoDup kvs.*1 → dict_of_items kvs = kvs.
Proof.
  unfold dict_of_items. intros Hkvs.
  assert (∀ d, NoDup (d ++ kvs).*1 →
               foldl (λ d kv, dict_setitem kv.1 kv.2 d) d kvs = d ++ kvs) as Hgen.
  { clear Hkvs. induction kvs as [|[k v] kvs IH]; intros d Hd; simpl.
    - by rewrite app_nil_r.
    - rewrite fmap_app, fmap_cons in Hd.
      rewrite dict_setitem_fresh.
      + rewrite IH; [by rewrite <-app_assoc|].
        rewrite <-app_assoc, fmap_app. simpl. done.
      + apply NoDup_app in Hd as (_ & Hd & _). intros Hk. apply (Hd k Hk). by left. }
  by apply (Hgen []).
Qed.

Lemma zip_by_key_arguments {Any} (l : list Argument.t) (kwargs : gmap string Any) :
  (λ '(_, argument, value), (argument, value)) <$>
    zip_by_key ((λ arg, (Argument.name arg, arg)) <$> l) kwargs =
  omap (λ argument, pair argument <$> kwargs !! Argument.name argument) l.
Proof.
  induction l as [|argument l IH]; [done|].
  rewrite fmap_cons. cbn [zip_by_key omap list_omap]. rewrite <-IH.
  by destruct (kwargs !! Argument.name argument) as [value|].
Qed.

Lemma zip_take_length {A B} (l : list A) (k : list B) :
  zip (take (length k) l) k = zip l k.
Proof.
  revert k. induction l as [|x l IH]; intros [|y k]; simpl; [done..|].
  by rewrite IH.
Qed.

Lemma fst_zip_take {A B} (l : list A) (k : list B) :
  (zip l k).*1 = take (length k) l.
Proof.
  revert k. induction l as [|x l IH]; intros [|y k]; simpl; [done..|].
  by rewrite IH.
Qed.

Lemma fst_omap_sublist {A B} (f : A → option B) (l : list A) :
  (omap (λ x, pair x <$> f x) l).*1 `sublist_of` l.
Proof.
  induction l as [|x l IH]; simpl; [done|].
  destruct (f x); simpl; [by apply sublist_skip|by apply sublist_cons].
Qed.

(** X21.  What [zip_arguments] yields for a schema whose argument names are
    distinct: the positional values paired with the schema arguments of the
    same position, then, in schema order, each later schema argument whose
    name is a key of [kwargs], paired with the value under that key.  Values
    beyond the last schema argument, keys that name no later schema argument
    (also a key naming an argument already given by position) and schema
    arguments given no value are passed over without an error, and no schema
    argument is yielded twice. *)
Theorem zip_arguments_pairs {Any} (schema : FunctionSchema.t) (args : list Any)
    (kwargs : gmap string Any) :
  NoDup (Argument.name <$> FunctionSchema.arguments schema) →
  zip_arguments schema args kwargs =
    zip (FunctionSchema.arguments schema) args ++
    omap (λ argument, pair argument <$> kwargs !! Argument.name argument)
      (drop (length args) (FunctionSchema.arguments schema)) ∧
  (zip_arguments schema args kwargs).*1 `sublist_of` FunctionSchema.arguments schema.
Proof.
  intros Hnames.
  assert (zip_arguments schema args kwargs =
          zip (FunctionSchema.arguments schema) args ++
          omap (λ argument, pair argument <$> kwargs !! Argument.name argument)
            (drop (length args) (FunctionSchema.arguments schema))) as Heq.
  { unfold zip_arguments. cbv zeta. rewrite zip_take_length.
    rewrite dict_of_items_NoDup.
    - by rewrite zip_by_key_arguments.
    - rewrite <-list_fmap_compose.
      rewrite <-(take_drop (length args) (FunctionSchema.arguments schema)),
        fmap_app in Hnames.
      by apply NoDup_app in Hnames as (_ & _ & Hnames). }
  split; [done|]. rewrite Heq, fmap_app, fst_zip_take.
  rewrite <-(take_drop (length args) (FunctionSchema.arguments schema)) at 3.
  apply sublist_app; [done|apply fst_omap_sublist].
Qed.

Lemma zip_arguments_pairs_witness :
  let arguments := [Argument.mk "self" None; Argument.mk "other" None;
                    Argument.mk "out" (Some (AliasInfo.mk true))] in
  let schema := FunctionSchema.mk arguments "op" in
  let args := [1] in
  let kwargs : gmap string Z := {[ "out" := 3; "self" := 4; "alpha" := 5 ]} in
  NoDup (Argument.name <$> arguments) ∧
  (zip_arguments schema args kwargs =
     zip arguments args ++
     omap (λ argument, pair argument <$> kwargs !! Argument.name argument)
       (drop (length args) arguments) ∧
   (zip_arguments schema args kwargs).*1 `sublist_of` arguments).
Proof.
  intros arguments schema args kwargs.
  assert (NoDup (Argument.name <$> arguments)) as H.
  { refine (bool_decide_unpack (NoDup (Argument.name <$> arguments)) _).
    vm_compute. exact I. }
  exact (conj H (zip_arguments_pairs schema args kwargs H)).
Defined.

(** ** Captured stacks *)

(** X22.  The captured stack summaries are carried along and steer nothing:
    two traces that differ only in the stack summaries captured at launches
    and allocations give, on fresh handlers, the same outcome at every call up
    to the stack summaries inside the errors; in particular the same calls
    raise and every launch reports the same pairs of accesses. *)
Theorem reports_ignore_captured_stacks (evs1 evs2 : list Event) :
  erase_event <$> evs1 = erase_event <$> evs2 →
  erase_outcome <$> (replay evs1 EventHandler.__init__).1 =
  erase_outcome <$> (replay evs2 EventHandler.__init__).1.
Proof.
  intros Heq.
  pose proof (replay_erase evs1 EventHandler.__init__) as H1.
  pose proof (replay_erase evs2 EventHandler.__init__) as H2.
  rewrite erase_handler_init in H1, H2. rewrite Heq in H1.
  rewrite H1 in H2. by injection H2.
Qed.

Lemma reports_ignore_captured_stacks_witness :
  let evs1 := unsynchronized_read_after_write_trace "op" {[ 11 := ["out"] ]}
                {[ 11 := ["x"] ]} ["alloc.py:1"] ["a.py:1"] ["a.py:2"] in
  let evs2 := unsynchronized_read_after_write_trace "op" {[ 11 := ["out"] ]}
                {[ 11 := ["x"] ]} ["alloc.py:9"] ["b.py:7"; "main.py:3"] [] in
  erase_event <$> evs1 = erase_event <$> evs2 ∧
  erase_outcome <$> (replay evs1 EventHandler.__init__).1 =
  erase_outcome <$> (replay evs2 EventHandler.__init__).1.
Proof.
  intros evs1 evs2.
  assert (erase_event <$> evs1 = erase_event <$> evs2) as H by reflexivity.
  exact (conj H (reports_ignore_captured_stacks evs1 evs2 H)).
Defined.
